(** * git-repo-analyser: the orchestration core of [app.py] and [advanced_app.py]

    A shallow embedding of the two Flask variants of the repository
    analyser: the URL parser, the workspace reaper, the repository acquirer,
    the session event handler, the session orchestrator and the request
    handler, together with the properties of each that the design document
    states.

    Python [str] values are modelled by [string]; a character stands for the
    code point with the same number (0..255).  Exceptions are the ones
    derived from [Exception], carried by their message.  Calls of [print]
    are left out, the two reports of [safe_rmtree] apart. *)

From Stdlib Require Import String Ascii List Bool Arith ZArith Lia.
Import ListNotations.
Open Scope list_scope.
Open Scope string_scope.

Set Implicit Arguments.

(** ** Python string primitives *)

Module PyStr.

(** [str.isspace] on one character, for the code points below 256:
    TAB..CR, FS..US, SPACE, NEL and NBSP. *)
Definition isspace (c : ascii) : bool :=
  let n := nat_of_ascii c in
  ((9 <=? n)%nat && (n <=? 13)%nat) || ((28 <=? n)%nat && (n <=? 32)%nat)
  || (n =? 133)%nat || (n =? 160)%nat.

(** [s.lstrip()] *)
Fixpoint lstrip (s : string) : string :=
  match s with
  | EmptyString => EmptyString
  | String c s' => if isspace c then lstrip s' else s
  end.

(** [s.rstrip()]: a character is dropped when it is a space and everything
    after it has been dropped. *)
Fixpoint rstrip (s : string) : string :=
  match s with
  | EmptyString => EmptyString
  | String c s' =>
      match rstrip s' with
      | EmptyString => if isspace c then EmptyString else String c EmptyString
      | r => String c r
      end
  end.

(** [s.strip()] *)
Definition strip (s : string) : string := rstrip (lstrip s).

(** [s[n:]] *)
Fixpoint drop (n : nat) (s : string) : string :=
  match n, s with
  | O, _ => s
  | S n', String _ s' => drop n' s'
  | S _, EmptyString => EmptyString
  end.

(** [s[:n]] *)
Fixpoint take (n : nat) (s : string) : string :=
  match n, s with
  | S n', String c s' => String c (take n' s')
  | _, _ => EmptyString
  end.

(** [s[len(w):]] when [s.startswith(w)] *)
Fixpoint strip_prefix (w s : string) : option string :=
  match w, s with
  | EmptyString, _ => Some s
  | String a w', String b s' =>
      if Ascii.eqb a b then strip_prefix w' s' else None
  | String _ _, EmptyString => None
  end.

(** [w in s] *)
Fixpoint contains (w s : string) : bool :=
  match strip_prefix w s with
  | Some _ => true
  | None =>
      match s with
      | EmptyString => false
      | String _ s' => contains w s'
      end
  end.

(** [c.lower()] for the code points below 256: the letters A..Z and the
    Latin-1 capitals (192..222 without the multiplication sign 215) move up
    by 32; other characters are kept. *)
Definition lower_char (c : ascii) : ascii :=
  let n := nat_of_ascii c in
  if ((65 <=? n)%nat && (n <=? 90)%nat)
     || ((192 <=? n)%nat && (n <=? 222)%nat && negb (n =? 215)%nat)
  then ascii_of_nat (n + 32) else c.

(** [s.lower()] *)
Fixpoint lower (s : string) : string :=
  match s with
  | EmptyString => EmptyString
  | String c s' => String (lower_char c) (lower s')
  end.

(** [sep.join(l)] *)
Fixpoint join (sep : string) (l : list string) : string :=
  match l with
  | [] => EmptyString
  | [x] => x
  | x :: rest => x ++ sep ++ join sep rest
  end.

(** Truthiness of a [str]: the empty string is false. *)
Definition truthy (s : string) : bool :=
  match s with EmptyString => false | _ => true end.

Definition newline : ascii := ascii_of_nat 10.
Definition nl : string := String newline EmptyString.

End PyStr.

(** ** The fragment of [re] that the two patterns use

    A backtracking matcher in continuation-passing style.  Alternatives are
    tried in the order of Python's engine: a greedy quantifier tries the
    longer match first, a lazy one the shorter; [re.search] tries the start
    positions from left to right and keeps the first match. *)

Module Re.
Import PyStr.

Inductive regex : Type :=
| Lit (w : string)                         (* literal text *)
| Plus (greedy : bool) (cls : ascii -> bool) (* [cls]+ and [cls]+? *)
| Opt (r : regex)                          (* (?:r)? *)
| Grp (n : nat) (r : regex)                (* capturing group number n *)
| Cat (r1 r2 : regex)
| Bol                                      (* ^ *)
| Eol.                                     (* $ *)

(** The groups of a match, most recently set first. *)
Definition captures := list (nat * string).

Record mstate : Type := MState {
  pos : nat;          (* index in the searched string *)
  rest : string;      (* the text from [pos] on *)
  groups : captures
}.

(** [$] without MULTILINE: at the end, or before a final newline. *)
Definition at_eol (s : string) : bool :=
  match s with
  | EmptyString => true
  | String c EmptyString => Ascii.eqb c newline
  | _ => false
  end.

Section Exec.
Variable k : mstate -> option captures.
Variable greedy : bool.
Variable cls : ascii -> bool.
Variable g : captures.

Fixpoint plus_loop (p : nat) (s : string) : option captures :=
  match s with
  | EmptyString => None
  | String c s' =>
      if cls c then
        let st' := MState (S p) s' g in
        if greedy then
          match plus_loop (S p) s' with
          | Some m => Some m
          | None => k st'
          end
        else
          match k st' with
          | Some m => Some m
          | None => plus_loop (S p) s'
          end
      else None
  end.
End Exec.

Fixpoint exec (r : regex) (st : mstate) (k : mstate -> option captures)
  : option captures :=
  match r with
  | Lit w =>
      match strip_prefix w (rest st) with
      | Some s' => k (MState (pos st + String.length w) s' (groups st))
      | None => None
      end
  | Plus greedy cls => plus_loop k greedy cls (groups st) (pos st) (rest st)
  | Opt r' =>
      match exec r' st k with
      | Some m => Some m
      | None => k st
      end
  | Grp n r' =>
      exec r' st (fun st' =>
        k (MState (pos st') (rest st')
             ((n, take (pos st' - pos st) (rest st)) :: groups st')))
  | Cat r1 r2 => exec r1 st (fun st' => exec r2 st' k)
  | Bol => if (pos st =? 0)%nat then k st else None
  | Eol => if at_eol (rest st) then k st else None
  end.

(** One attempt of the pattern at position [p], where [s] is the text from
    [p] on. *)
Definition match_at (r : regex) (p : nat) (s : string) : option captures :=
  exec r (MState p s []) (fun st => Some (groups st)).

(** [re.search(r, s)]: the match object (its groups) or [None]. *)
Fixpoint search_from (r : regex) (p : nat) (s : string) : option captures :=
  match match_at r p s with
  | Some m => Some m
  | None =>
      match s with
      | EmptyString => None
      | String _ s' => search_from r (S p) s'
      end
  end.

Definition search (r : regex) (s : string) : option captures :=
  search_from r 0 s.

(** [match.group(n)]; [None] for a group that took no part in the match. *)
Fixpoint group (n : nat) (m : captures) : option string :=
  match m with
  | [] => None
  | (i, v) :: m' => if (i =? n)%nat then Some v else group n m'
  end.

End Re.

(** ** URL parser *)

Import PyStr Re.

Definition slash : ascii := "/"%char.

(** The class [[^/]]. *)
Definition not_slash (c : ascii) : bool := negb (Ascii.eqb c slash).

(** [r'github\.com/([^/]+)/([^/]+?)(?:\.git)?/?$'] *)
Definition pattern_url : regex :=
  Cat (Lit "github.com/")
 (Cat (Grp 1 (Plus true not_slash))
 (Cat (Lit "/")
 (Cat (Grp 2 (Plus false not_slash))
 (Cat (Opt (Lit ".git"))
 (Cat (Opt (Lit "/"))
      Eol))))).

(** [r'^([^/]+)/([^/]+)$'] *)
Definition pattern_short : regex :=
  Cat Bol
 (Cat (Grp 1 (Plus true not_slash))
 (Cat (Lit "/")
 (Cat (Grp 2 (Plus true not_slash))
      Eol))).

Definition patterns : list regex := [pattern_url; pattern_short].

(** The loop over [patterns] of [parse_github_url]. *)
Fixpoint first_match (ps : list regex) (url : string)
  : option string * option string :=
  match ps with
  | [] => (None, None)
  | pattern :: ps' =>
      match search pattern url with
      | Some m => (group 1 m, group 2 m)
      | None => first_match ps' url
      end
  end.

(** [parse_github_url] (the same text in both variants). *)
Definition parse_github_url (url : string) : option string * option string :=
  let url := strip url in
  first_match patterns url.

(** ** Session events and the records kept of them *)

(** [event.data]: the attributes the handler reads.  An attribute read with
    [getattr(..., None)] or compared with [None] is an [option]. *)
Record event_data : Type := EventData {
  content : string;
  delta_content : option string;
  tool_name : string;
  tool_call_id : option string;
  arguments : option string;
  result : option string
}.

(** A session event; [type_value] is [event.type.value]. *)
Record event : Type := Event {
  type_value : string;
  data : event_data
}.

(** The dictionaries appended to [events_log]. *)
Inductive log_record : Type :=
| MessageDelta (content : string)
    (* {"type": "message_delta", "content": ...} *)
| ToolStart (tool_name : string) (tool_call_id : option string)
    (* {"type": "tool_start", "tool_name": ..., "tool_call_id": ...} *)
| ToolComplete (tool_call_id : option string) (result : option string).
    (* {"type": "tool_complete", "tool_call_id": ..., "result": ...} *)

(** The three objects [handle_event] closes over: the [asyncio.Event] [done]
    (its flag) and the two lists. *)
Record handler_state : Type := HandlerState {
  done : bool;
  response_content : list string;
  events_log : list log_record
}.

Definition handler_init : handler_state := HandlerState false [] [].

(** [asyncio.Event.set]: raises the flag; on a raised flag it changes
    nothing. *)
Definition event_set (flag : bool) : bool := true.

(** [handle_event].  The branches are those of both variants;
    [advanced_app.py] prints diagnostics besides, which change none of the
    three objects. *)
Definition handle_event (h : handler_state) (ev : event) : handler_state :=
  if type_value ev =? "assistant.message" then
    HandlerState (done h) (response_content h ++ [content (data ev)])%list
                 (events_log h)
  else if type_value ev =? "assistant.message_delta" then
    let delta := match delta_content (data ev) with
                 | Some d => d
                 | None => ""
                 end in
    if truthy delta then
      HandlerState (done h) (response_content h)
                   (events_log h ++ [MessageDelta delta])%list
    else h
  else if type_value ev =? "tool.execution_start" then
    HandlerState (done h) (response_content h)
      (events_log h ++ [ToolStart (tool_name (data ev)) (tool_call_id (data ev))])%list
  else if type_value ev =? "tool.execution_complete" then
    HandlerState (done h) (response_content h)
      (events_log h ++ [ToolComplete (tool_call_id (data ev)) (result (data ev))])%list
  else if type_value ev =? "session.idle" then
    HandlerState (event_set (done h)) (response_content h) (events_log h)
  else h.

(** The handler applied to the events in the order they arrive. *)
Definition handle_events (h : handler_state) (evs : list event) : handler_state :=
  fold_left handle_event evs h.

(** ** The outside world

    Everything the program reaches through [os], [shutil], [subprocess] and
    the Copilot SDK.  A call that can raise returns [Some message] for the
    exception; an awaited SDK call also returns the events the SDK hands to
    the registered handler while the coroutine is suspended in it. *)

Record Platform : Type := {
  World : Type;
  TEMP_REPOS_DIR : string;
  os_path_join : string -> string -> string;
  os_path_exists : World -> string -> bool;
  (* os.makedirs(path, exist_ok=True) *)
  os_makedirs : World -> string -> World;
  (* subprocess.run(["git", "-C", path, "gc", "--prune=now"], timeout=10) *)
  git_gc : World -> string -> option string * World;
  (* shutil.rmtree(path, onerror=remove_readonly) *)
  shutil_rmtree : World -> string -> option string * World;
  (* subprocess.run(["git", "clone", ..., url, path]): its stderr *)
  git_clone : World -> string -> string -> string * World;
  (* subprocess.run(["git", "-C", path, "restore", "--source=HEAD", ":/"]) *)
  git_restore : World -> string -> World;
  client_start : World -> option string * World;
  client_create_session : World -> option string * World;
  session_send : World -> string -> list event * option string * World;
  (* what happens while the coroutine waits in done.wait() *)
  done_wait : World -> list event * option string * World;
  session_destroy : World -> list event * option string * World;
  client_stop : World -> list event * option string * World
}.

(** What the program does to the outside world, in order. *)
Inductive action : Type :=
| AMakedirs (path : string)
| AGitGc (path : string)
| ARmtree (path : string)
| ASleep (seconds : nat)
| ACleanupFailed (attempt : nat) (e : string)  (* print: Cleanup attempt n failed: e *)
| ACouldNotCleanUp (path : string)             (* print: Could not fully clean up path *)
| AGitClone (url path : string)
| AGitRestore (path : string)
| AClientStart
| ACreateSession
| ASessionOn
| ASend (prompt : string)
| AWait
| ADestroy
| AStop
| AEvent (ev : event).                         (* the SDK calls handle_event(ev) *)

(** How a call ends: it returns, it raises, or it never returns. *)
Inductive outcome (A : Type) : Type :=
| Ret (a : A)
| Raise (e : string)
| Hang.
Arguments Ret {A} a.
Arguments Raise {A} e.
Arguments Hang {A}.

(** ** The effect monad *)

Section Effects.
Variable P : Platform.

Record state : Type := State {
  world : World P;
  handler : handler_state;
  trace : list action
}.

Definition M (A : Type) : Type := state -> outcome A * state.

Definition ret {A} (a : A) : M A := fun st => (Ret a, st).

Definition bind {A B} (m : M A) (f : A -> M B) : M B :=
  fun st =>
    match m st with
    | (Ret a, st') => f a st'
    | (Raise e, st') => (Raise e, st')
    | (Hang, st') => (Hang, st')
    end.

Definition raise {A} (e : string) : M A := fun st => (Raise e, st).

(** [try: body  except Exception as e: handler e] *)
Definition try_except {A} (body : M A) (handler : string -> M A) : M A :=
  fun st =>
    match body st with
    | (Raise e, st') => handler e st'
    | r => r
    end.

(** [try: body  finally: final].  An exception of [final] replaces the
    outcome of [body]. *)
Definition try_finally {A} (body : M A) (final : M unit) : M A :=
  fun st =>
    match body st with
    | (Hang, st') => (Hang, st')
    | (r, st') =>
        match final st' with
        | (Ret _, st'') => (r, st'')
        | (Raise e, st'') => (Raise e, st'')
        | (Hang, st'') => (Hang, st'')
        end
    end.

Definition log (a : action) : M unit :=
  fun st => (Ret tt, State (world st) (handler st) (trace st ++ [a])%list).

Definition get_world : M (World P) := fun st => (Ret (world st), st).

Definition get_handler : M handler_state := fun st => (Ret (handler st), st).

Definition set_handler (h : handler_state) : M unit :=
  fun st => (Ret tt, State (world st) h (trace st)).

(** A call that cannot raise. *)
Definition call (a : action) (f : World P -> World P) : M unit :=
  fun st => (Ret tt, State (f (world st)) (handler st) (trace st ++ [a])%list).

(** A call that cannot raise and returns a value. *)
Definition call_val {A} (a : action) (f : World P -> A * World P) : M A :=
  fun st =>
    let (v, w) := f (world st) in
    (Ret v, State w (handler st) (trace st ++ [a])%list).

(** A call that can raise. *)
Definition call_exn (a : action) (f : World P -> option string * World P)
  : M unit :=
  fun st =>
    let (r, w) := f (world st) in
    let st' := State w (handler st) (trace st ++ [a])%list in
    match r with
    | None => (Ret tt, st')
    | Some e => (Raise e, st')
    end.

(** The SDK hands [ev] to the registered handler. *)
Definition dispatch (ev : event) : M unit :=
  fun st =>
    (Ret tt, State (world st) (handle_event (handler st) ev)
                   (trace st ++ [AEvent ev])%list).

Fixpoint dispatch_all (evs : list event) : M unit :=
  match evs with
  | [] => ret tt
  | ev :: evs' => bind (dispatch ev) (fun _ => dispatch_all evs')
  end.

(** [await] of an SDK call: the events that arrive meanwhile are handled,
    then the call returns or raises. *)
Definition await (a : action)
    (f : World P -> list event * option string * World P) : M unit :=
  fun st =>
    let '(evs, r, w) := f (world st) in
    let st1 := State w (handler st) (trace st ++ [a])%list in
    match dispatch_all evs st1 with
    | (Ret _, st2) =>
        match r with
        | None => (Ret tt, st2)
        | Some e => (Raise e, st2)
        end
    | other => other
    end.

(** [await done.wait()]: returns at once when the flag is up; otherwise the
    coroutine is suspended, events are handled, and it resumes when the flag
    is up, raises when the wait is interrupted, and stays suspended when
    neither happens. *)
Definition await_done : M unit :=
  fun st =>
    if done (handler st) then
      (Ret tt, State (world st) (handler st) (trace st ++ [AWait])%list)
    else
      match await AWait (done_wait P) st with
      | (Ret _, st') => if done (handler st') then (Ret tt, st') else (Hang, st')
      | other => other
      end.

End Effects.

Arguments ret {P A} a.
Arguments raise {P A} e.
Arguments bind {P A B} m f.
Arguments try_except {P A} body handler.
Arguments try_finally {P A} body final.
Arguments log {P} a.
Arguments get_world {P}.
Arguments get_handler {P}.
Arguments set_handler {P} h.
Arguments call {P} a f.
Arguments call_val {P A} a f.
Arguments call_exn {P} a f.
Arguments await {P} a f.
Arguments await_done {P}.

Declare Scope eff_scope.
Delimit Scope eff_scope with eff.
Notation "x <- m ;; k" := (bind m (fun x => k))
  (at level 61, m at next level, right associativity) : eff_scope.
Notation "m ;; k" := (bind m (fun _ => k))
  (at level 61, right associativity) : eff_scope.
Open Scope eff_scope.

(** ** Values that cross the HTTP boundary *)

(** The values of the result dictionary. *)
Inductive jvalue : Type :=
| JStr (s : string)
| JEvents (l : list log_record).

(** A JSON object, its keys in insertion order. *)
Definition payload : Type := list (string * jvalue).

(** [key in d] *)
Fixpoint has_key (key : string) (d : payload) : bool :=
  match d with
  | [] => false
  | (k, _) :: d' => (k =? key) || has_key key d'
  end.

(** [d.get(key)] *)
Fixpoint lookup {V : Type} (key : string) (d : list (string * V)) : option V :=
  match d with
  | [] => None
  | (k, v) :: d' => if k =? key then Some v else lookup key d'
  end.

(** [d.get(key, default)] *)
Definition get_default {V : Type} (key : string) (default : V)
    (d : list (string * V)) : V :=
  match lookup key d with
  | Some v => v
  | None => default
  end.

(** The JSON body of a request to [/api/analyze]: the two keys it may
    hold. *)
Record request : Type := Request {
  req_repo_url : option string;
  req_type : option string
}.

(** What a Flask view returns: the body and the status code. *)
Definition response : Type := (payload * nat)%type.

Definition invalid_url_message : string :=
  "Invalid GitHub URL. Please use format: https://github.com/owner/repo".

Definition no_response_message : string := "No response received.".

(** ["\n".join(response_content) if response_content else "No response
    received."] *)
Definition response_text (response_content : list string) : string :=
  match response_content with
  | [] => no_response_message
  | _ => join nl response_content
  end.

(** ** [advanced_app.py] *)

Module AdvancedApp.
Section WithPlatform.
Variable P : Platform.

(** The body of the [try] of [safe_rmtree], up to its [return True]. *)
Definition remove_tree (path : string) : M P unit :=
  w <- get_world ;;
  if os_path_exists P w path then
    let git_dir := os_path_join P path ".git" in
    (if os_path_exists P w git_dir
     then call_exn (AGitGc path) (fun w => git_gc P w path)
     else ret tt) ;;
    call_exn (ARmtree path) (fun w => shutil_rmtree P w path)
  else ret tt.

(** The [for attempt in range(retries)] loop of [safe_rmtree] over the
    attempts that remain, and the two lines after it. *)
Fixpoint safe_rmtree_loop (path : string) (retries : nat)
    (attempts : list nat) : M P bool :=
  match attempts with
  | [] =>
      log (ACouldNotCleanUp path) ;;
      ret false
  | attempt :: attempts' =>
      try_except
        (remove_tree path ;; ret true)
        (fun e =>
           log (ACleanupFailed (attempt + 1) e) ;;
           (if (attempt <? retries - 1)%nat then log (ASleep 1) else ret tt) ;;
           safe_rmtree_loop path retries attempts')
  end.

(** [safe_rmtree(path, retries)] *)
Definition safe_rmtree (path : string) (retries : nat) : M P bool :=
  safe_rmtree_loop path retries (seq 0 retries).

(** The default of [retries]. *)
Definition default_retries : nat := 3.

(** [clone_repo(owner, repo)] *)
Definition clone_repo (owner repo : string) : M P string :=
  call (AMakedirs (TEMP_REPOS_DIR P)) (fun w => os_makedirs P w (TEMP_REPOS_DIR P)) ;;
  let repo_path := os_path_join P (TEMP_REPOS_DIR P) (take 20 repo) in
  w <- get_world ;;
  (if os_path_exists P w repo_path
   then safe_rmtree repo_path default_retries ;; ret tt
   else ret tt) ;;
  let clone_url := "https://github.com/" ++ owner ++ "/" ++ repo ++ ".git" in
  stderr <- call_val (AGitClone clone_url repo_path)
                     (fun w => git_clone P w clone_url repo_path) ;;
  w2 <- get_world ;;
  if negb (os_path_exists P w2 repo_path) then
    raise ("Failed to clone repository: " ++ stderr)
  else
    (if contains "checkout failed" (lower stderr)
     then call (AGitRestore repo_path) (fun w => git_restore P w repo_path)
     else ret tt) ;;
    ret repo_path.

(** [cleanup_repo(repo_path)] *)
Definition cleanup_repo (repo_path : string) : M P unit :=
  w <- get_world ;;
  if truthy repo_path && os_path_exists P w repo_path then
    safe_rmtree repo_path default_retries ;; ret tt
  else ret tt.

(** The [overview] template of [analysis_prompts] in [advanced_app.py]. *)
Definition prompt_overview (owner repo repo_path : string) : string :=
  "You are a helpful assistant that analyzes code repositories.

I have cloned the GitHub repository " ++ owner ++ "/" ++ repo ++ " to a local folder at: " ++ repo_path ++ "

Please analyze this LOCAL repository by reading files and exploring the directory structure.

Use file system tools (read_file, list_dir, grep_search, semantic_search) to explore the cloned repository.

Provide a comprehensive overview including:
1. **Repository Information**: Name, description, primary language, what the project does (read the README.md)
2. **Structure Overview**: List the directories and explain their purposes
3. **Key Files**: Read important files like README.md, package.json, requirements.txt, etc.
4. **Technology Stack**: Languages, frameworks, and tools used (based on config files)
5. **Project Type**: What kind of project this is (web app, library, CLI, etc.)

Start by listing the contents of " ++ repo_path ++ " and then read the key files.".

(** The [structure] template of [analysis_prompts] in [advanced_app.py]. *)
Definition prompt_structure (owner repo repo_path : string) : string :=
  "You are a helpful assistant that analyzes code repositories.

I have cloned the GitHub repository " ++ owner ++ "/" ++ repo ++ " to a local folder at: " ++ repo_path ++ "

Please analyze the file structure of this LOCAL repository using file system tools.

Use list_dir to explore directories and read_file to examine key files.

1. List ALL directories and files, explaining their purposes
2. Identify the project type (web app, library, CLI tool, etc.)
3. Find and read configuration files, explain what they configure
4. Identify entry points and main source files

Start by listing the contents of " ++ repo_path.

(** The [diagram] template of [analysis_prompts] in [advanced_app.py]. *)
Definition prompt_diagram (owner repo repo_path : string) : string :=
  "You are a helpful assistant that analyzes code repositories and creates Mermaid diagrams.

I have cloned the GitHub repository " ++ owner ++ "/" ++ repo ++ " to a local folder at: " ++ repo_path ++ "

Please analyze this LOCAL repository using file system tools (read_file, list_dir, grep_search).

Your task:
1. Explore the directory structure using list_dir
2. Read key files to understand the architecture (README.md, main source files, config files)
3. Based on your analysis, create a Mermaid flow diagram

CRITICAL MERMAID SYNTAX RULES:
- Each node definition MUST be on a SINGLE LINE
- Node labels should be SHORT (1-5 words max)
- Do NOT put newlines inside square brackets []
- Use simple IDs like A, B, C or short names like React, DOM, etc.
- If you need line breaks in labels, use <br> tag, NOT actual newlines

Output a Mermaid diagram using EXACTLY this format:
```mermaid
graph TD
    A[Short Label] --> B[Another Label]
    B --> C[Third Label]
    C --> D[Fourth Label]
```

CORRECT example:
```mermaid
graph TD
    A[React Core] --> B[Reconciler]
    B --> C[React DOM]
    B --> D[React Native]
```

WRONG example (DO NOT DO THIS):
```mermaid
graph TD
    A[React Core
    Package] --> B[Reconciler]
```

Keep node labels concise. Use actual component/directory names from " ++ owner ++ "/" ++ repo ++ ".
Start by listing the contents of " ++ repo_path.

(** The [dependencies] template of [analysis_prompts] in [advanced_app.py]. *)
Definition prompt_dependencies (owner repo repo_path : string) : string :=
  "You are a helpful assistant that analyzes code repositories.

I have cloned the GitHub repository " ++ owner ++ "/" ++ repo ++ " to a local folder at: " ++ repo_path ++ "

Please analyze the dependencies of this LOCAL repository using file system tools.

Use read_file to examine dependency files and grep_search to find imports.

1. Find and READ all dependency files (package.json, requirements.txt, Cargo.toml, go.mod, etc.)
2. List the main dependencies and their purposes
3. Identify any development dependencies
4. Summarize the technology stack

Start by listing the contents of " ++ repo_path ++ " to find dependency files.".

Definition analysis_prompts (owner repo repo_path : string) : list (string * string) :=
  [("overview", prompt_overview owner repo repo_path);
   ("structure", prompt_structure owner repo repo_path);
   ("diagram", prompt_diagram owner repo repo_path);
   ("dependencies", prompt_dependencies owner repo repo_path)].

(** The [finally] block of [analyze_github_repo]. *)
Definition teardown (repo_path : string) : M P unit :=
  await ADestroy (session_destroy P) ;;
  await AStop (client_stop P) ;;
  cleanup_repo repo_path.

(** [analyze_github_repo(repo_url, analysis_type)] *)
Definition analyze_github_repo (repo_url analysis_type : string) : M P payload :=
  match parse_github_url repo_url with
  | (Some owner, Some repo) =>
      if negb (truthy owner) || negb (truthy repo) then
        ret [("response", JStr invalid_url_message); ("events", JEvents [])]
      else
        cloned <- try_except
                    (repo_path <- clone_repo owner repo ;; ret (inl repo_path))
                    (fun e => ret (inr e)) ;;
        match cloned with
        | inr e =>
            ret [("response", JStr ("Failed to clone repository: " ++ e));
                 ("events", JEvents [])]
        | inl repo_path =>
            call_exn AClientStart (client_start P) ;;
            call_exn ACreateSession (client_create_session P) ;;
            set_handler handler_init ;;
            log ASessionOn ;;
            let prompt :=
              get_default analysis_type (prompt_overview owner repo repo_path)
                          (analysis_prompts owner repo repo_path) in
            try_finally
              (await (ASend prompt) (fun w => session_send P w prompt) ;;
               await_done)
              (teardown repo_path) ;;
            h <- get_handler ;;
            ret [("response", JStr (response_text (response_content h)));
                 ("events", JEvents (events_log h));
                 ("owner", JStr owner);
                 ("repo", JStr repo)]
        end
  | _ => ret [("response", JStr invalid_url_message); ("events", JEvents [])]
  end.

(** The view [analyze] of [/api/analyze]. *)
Definition analyze (req : request) : M P response :=
  let repo_url := match req_repo_url req with Some u => u | None => "" end in
  let analysis_type := match req_type req with Some t => t | None => "overview" end in
  if negb (truthy repo_url) then
    ret ([("error", JStr "Repository URL is required")], 400)
  else
    try_except
      (result <- analyze_github_repo repo_url analysis_type ;;
       ret (result, 200))
      (fun e => ret ([("error", JStr e)], 500)).

End WithPlatform.
End AdvancedApp.

(** ** [app.py] *)

Module App.
Section WithPlatform.
Variable P : Platform.

(** The [overview] template of [analysis_prompts] in [app.py]. *)
Definition prompt_overview (owner repo : string) : string :=
  "You are a helpful assistant that analyzes GitHub repositories.

Please analyze the GitHub repository: https://github.com/" ++ owner ++ "/" ++ repo ++ "

Provide a comprehensive overview including:
1. **Repository Information**: Name, description, primary language, what the project does
2. **Structure Overview**: Main directories and their purposes based on common conventions
3. **Key Files**: Important files like README, package.json, requirements.txt, etc.
4. **Technology Stack**: Languages, frameworks, and tools likely used
5. **Project Type**: What kind of project this is (web app, library, CLI, etc.)

Fetch and analyze the repository information to provide accurate details.".

(** The [structure] template of [analysis_prompts] in [app.py]. *)
Definition prompt_structure (owner repo : string) : string :=
  "You are a helpful assistant that analyzes GitHub repositories.

Please analyze the file structure of: https://github.com/" ++ owner ++ "/" ++ repo ++ "

1. List the main directories and explain their purposes
2. Identify the project type (web app, library, CLI tool, etc.)
3. Find configuration files and explain what they configure
4. Identify entry points and main source files

Browse the repository to understand its structure.".

(** The [diagram] template of [analysis_prompts] in [app.py]. *)
Definition prompt_diagram (owner repo : string) : string :=
  "You are a helpful assistant that analyzes GitHub repositories and creates Mermaid diagrams.

IMPORTANT: Do NOT analyze any local files or the current working directory.
ONLY analyze the remote GitHub repository at this URL: https://github.com/" ++ owner ++ "/" ++ repo ++ "

Your task:
1. Fetch information about the GitHub repository " ++ owner ++ "/" ++ repo ++ " from the web
2. Based on the repository's README, file structure, and code organization, create a Mermaid flow diagram

The diagram should show:
- The overall architecture/structure of the project
- How different components/modules relate to each other
- Data flow or dependency relationships between parts

Output a Mermaid diagram using this format:
```mermaid
graph TD
    A[Component A] --> B[Component B]
    B --> C[Component C]
```

Use actual component names, directories, or module names from the " ++ owner ++ "/" ++ repo ++ " repository.
Do NOT reference any local files - only use information from the GitHub repository.".

(** The [dependencies] template of [analysis_prompts] in [app.py]. *)
Definition prompt_dependencies (owner repo : string) : string :=
  "You are a helpful assistant that analyzes GitHub repositories.

Please analyze the dependencies of: https://github.com/" ++ owner ++ "/" ++ repo ++ "

1. Find all dependency files (package.json, requirements.txt, Cargo.toml, go.mod, etc.)
2. List the main dependencies and their purposes
3. Identify any development dependencies
4. Summarize the technology stack

Fetch the dependency information from the repository.".

Definition analysis_prompts (owner repo : string) : list (string * string) :=
  [("overview", prompt_overview owner repo);
   ("structure", prompt_structure owner repo);
   ("diagram", prompt_diagram owner repo);
   ("dependencies", prompt_dependencies owner repo)].

(** [analyze_github_repo(repo_url, analysis_type)] *)
Definition analyze_github_repo (repo_url analysis_type : string) : M P payload :=
  match parse_github_url repo_url with
  | (Some owner, Some repo) =>
      if negb (truthy owner) || negb (truthy repo) then
        ret [("response", JStr invalid_url_message); ("events", JEvents [])]
      else
        call_exn AClientStart (client_start P) ;;
        call_exn ACreateSession (client_create_session P) ;;
        set_handler handler_init ;;
        log ASessionOn ;;
        let prompt :=
          get_default analysis_type (prompt_overview owner repo)
                      (analysis_prompts owner repo) in
        await (ASend prompt) (fun w => session_send P w prompt) ;;
        await_done ;;
        await ADestroy (session_destroy P) ;;
        await AStop (client_stop P) ;;
        h <- get_handler ;;
        ret [("response", JStr (response_text (response_content h)));
             ("events", JEvents (events_log h));
             ("owner", JStr owner);
             ("repo", JStr repo)]
  | _ => ret [("response", JStr invalid_url_message); ("events", JEvents [])]
  end.

(** The view [analyze] of [/api/analyze]. *)
Definition analyze (req : request) : M P response :=
  let repo_url := match req_repo_url req with Some u => u | None => "" end in
  let analysis_type := match req_type req with Some t => t | None => "overview" end in
  if negb (truthy repo_url) then
    ret ([("error", JStr "Repository URL is required")], 400)
  else
    try_except
      (result <- analyze_github_repo repo_url analysis_type ;;
       ret (result, 200))
      (fun e => ret ([("error", JStr e)], 500)).

End WithPlatform.
End App.

(** ** A scripted platform

    A small world in which the outcome of every external call is fixed in
    advance; the closed examples below run the program on it. *)

Module Sim.

Record world : Type := SimWorld {
  paths : list string;              (* the paths that exist *)
  rmtree_errors : list string;      (* the next rmtree calls fail with these *)
  gc_errors : list string;          (* the next git gc calls fail with these *)
  clone_creates : bool;             (* git clone creates the target *)
  clone_stderr : string;
  send_script : list event * option string;
  wait_script : list event * option string
}.

Definition exists_ (w : world) (p : string) : bool :=
  existsb (String.eqb p) (paths w).

Definition under (p q : string) : bool :=
  match strip_prefix p q with Some _ => true | None => false end.

Definition set_paths (w : world) (ps : list string) : world :=
  SimWorld ps (rmtree_errors w) (gc_errors w) (clone_creates w)
           (clone_stderr w) (send_script w) (wait_script w).

Definition rmtree (w : world) (p : string) : option string * world :=
  match rmtree_errors w with
  | e :: es =>
      (Some e, SimWorld (paths w) es (gc_errors w) (clone_creates w)
                        (clone_stderr w) (send_script w) (wait_script w))
  | [] => (None, set_paths w (filter (fun q => negb (under p q)) (paths w)))
  end.

Definition gc (w : world) (p : string) : option string * world :=
  match gc_errors w with
  | e :: es =>
      (Some e, SimWorld (paths w) (rmtree_errors w) es (clone_creates w)
                        (clone_stderr w) (send_script w) (wait_script w))
  | [] => (None, w)
  end.

Definition clone (w : world) (url p : string) : string * world :=
  (clone_stderr w,
   if clone_creates w then set_paths w (p :: paths w) else w).

Definition platform : Platform := {|
  World := world;
  TEMP_REPOS_DIR := "temp_repos";
  os_path_join := fun a b => a ++ "/" ++ b;
  os_path_exists := exists_;
  os_makedirs := fun w p => if exists_ w p then w else set_paths w (p :: paths w);
  git_gc := gc;
  shutil_rmtree := rmtree;
  git_clone := clone;
  git_restore := fun w _ => w;
  client_start := fun w => (None, w);
  client_create_session := fun w => (None, w);
  session_send := fun w _ => (send_script w, w);
  done_wait := fun w => (wait_script w, w);
  session_destroy := fun w => ([], None, w);
  client_stop := fun w => ([], None, w)
|}.

Definition init (w : world) : state platform := State platform w handler_init [].

Definition no_data : event_data := EventData "" None "" None None None.

Definition ev_message (text : string) : event :=
  Event "assistant.message" (EventData text None "" None None None).

Definition ev_delta (text : option string) : event :=
  Event "assistant.message_delta" (EventData "" text "" None None None).

Definition ev_tool_start (name id : string) : event :=
  Event "tool.execution_start" (EventData "" None name (Some id) None None).

Definition ev_tool_complete (id out : string) : event :=
  Event "tool.execution_complete" (EventData "" None "" (Some id) None (Some out)).

Definition ev_idle : event := Event "session.idle" no_data.

(** An empty world in which the engine answers [text] and goes idle. *)
Definition quiet_world (text : string) : world :=
  SimWorld [] [] [] true "" ([], None) ([ev_message text; ev_idle], None).

End Sim.

Unset Implicit Arguments.

(** ** What the properties speak about: events *)

(** The events handed to the handler, read off a trace. *)
Fixpoint events_of (tr : list action) : list event :=
  match tr with
  | [] => []
  | AEvent ev :: tr' => ev :: events_of tr'
  | _ :: tr' => events_of tr'
  end.

Definition is_idle (ev : event) : bool := type_value ev =? "session.idle".

(** How often the flag of [done] goes from down to up while [evs] are
    handled. *)
Fixpoint flag_rises (h : handler_state) (evs : list event) : nat :=
  match evs with
  | [] => 0
  | ev :: evs' =>
      let h' := handle_event h ev in
      (if negb (done h) && done h' then 1 else 0) + flag_rises h' evs'
  end.

(** The record an event leaves in the log, if it leaves one: a delta with
    text, a tool start, a tool completion. *)
Definition logged (ev : event) : list log_record :=
  if type_value ev =? "assistant.message_delta" then
    match delta_content (data ev) with
    | Some (String c d) => [MessageDelta (String c d)]
    | _ => []
    end
  else if type_value ev =? "tool.execution_start" then
    [ToolStart (tool_name (data ev)) (tool_call_id (data ev))]
  else if type_value ev =? "tool.execution_complete" then
    [ToolComplete (tool_call_id (data ev)) (result (data ev))]
  else [].

(** The final-message fragments among [evs], in arrival order. *)
Definition fragments (evs : list event) : list string :=
  flat_map (fun ev => if type_value ev =? "assistant.message"
                      then [content (data ev)] else []) evs.

(** ** What the properties speak about: effects and runs *)

Definition is_backoff (a : action) : bool :=
  match a with
  | ACleanupFailed _ _ | ASleep _ | ACouldNotCleanUp _ => true
  | _ => false
  end.

Definition is_rmtree (a : action) : bool :=
  match a with
  | ARmtree _ => true
  | _ => false
  end.

Definition is_gc (a : action) : bool :=
  match a with
  | AGitGc _ => true
  | _ => false
  end.

(** What [safe_rmtree] prints and sleeps when its attempts number
    [attempt], [attempt + 1], ... fail with [errs]. *)
Fixpoint backoff_log (retries attempt : nat) (errs : list string) : list action :=
  match errs with
  | [] => []
  | e :: errs' =>
      ((ACleanupFailed (attempt + 1) e
        :: (if (attempt <? retries - 1)%nat then [ASleep 1] else []))
       ++ backoff_log retries (S attempt) errs')%list
  end.

(** The states [st'] a computation may reach from [st] when it only talks
    to the file system: the handler's objects are untouched, the trace
    grows by [new], and no event is handed over. *)
Definition fs_step {P : Platform} (st st' : state P) (new : list action) : Prop :=
  trace st' = (trace st ++ new)%list /\
  handler st' = handler st /\
  events_of new = [].

(** One attempt of [safe_rmtree] on [path], read off the platform: started
    in the world [w] it ends with [r] -- [None] when it reaches
    [return True], [Some e] when it raises [e] -- in the world [w'], after
    the commands [acts]. *)
Inductive attempt_result (P : Platform) (path : string) (w : World P)
  : option string -> World P -> list action -> Prop :=
| AttemptAbsent :
    os_path_exists P w path = false ->
    attempt_result P path w None w []
| AttemptGcRaises e w1 :
    os_path_exists P w path = true ->
    os_path_exists P w (os_path_join P path ".git") = true ->
    git_gc P w path = (Some e, w1) ->
    attempt_result P path w (Some e) w1 [AGitGc path]
| AttemptAfterGc w1 r w2 :
    os_path_exists P w path = true ->
    os_path_exists P w (os_path_join P path ".git") = true ->
    git_gc P w path = (None, w1) ->
    shutil_rmtree P w1 path = (r, w2) ->
    attempt_result P path w r w2 [AGitGc path; ARmtree path]
| AttemptPlain r w2 :
    os_path_exists P w path = true ->
    os_path_exists P w (os_path_join P path ".git") = false ->
    shutil_rmtree P w path = (r, w2) ->
    attempt_result P path w r w2 [ARmtree path].

(** The attempts number [a], [a + 1], ... raise [errs], one after the
    other, each started in the world the one before left; [w'] is the world
    after the last of them and [acts] is everything done meanwhile: the
    commands of each attempt, its report and, when an attempt is still to
    come, the sleep of 1 second. *)
Inductive failed_attempts (P : Platform) (path : string) (retries : nat)
  : nat -> World P -> list string -> World P -> list action -> Prop :=
| FailedNone a w :
    failed_attempts P path retries a w [] w []
| FailedNext a w e w1 acts errs w' rest :
    attempt_result P path w (Some e) w1 acts ->
    failed_attempts P path retries (S a) w1 errs w' rest ->
    failed_attempts P path retries a w (e :: errs) w'
      (acts ++ ACleanupFailed (a + 1) e
            :: (if (a <? retries - 1)%nat then [ASleep 1] else []) ++ rest)%list.

(** How a call of [safe_rmtree] with [n] attempts left, the next of them
    number [a], ends: [errs] are the exceptions of the attempts that failed;
    with [True] when the attempt after them returned, with [False] and the
    final report when all [n] failed. *)
Definition reaped (P : Platform) (path : string) (retries a n : nat)
    (w : World P) (b : bool) (w' : World P) (new : list action)
    (errs : list string) : Prop :=
  exists w_f tried last,
    failed_attempts P path retries a w errs w_f tried /\
    new = (tried ++ last)%list /\
    if b then
      List.length errs < n /\ attempt_result P path w_f None w' last
    else
      List.length errs = n /\ w' = w_f /\ last = [ACouldNotCleanUp path].

Definition clone_target (P : Platform) (repo : string) : string :=
  os_path_join P (TEMP_REPOS_DIR P) (take 20 repo).

Definition clone_source (owner repo : string) : string :=
  "https://github.com/" ++ owner ++ "/" ++ repo ++ ".git".

(** The states [st'] a computation may reach from [st]: the trace grows by
    [new] and the handler's objects are those the handler leaves after the
    events in [new]. *)
Definition run_step {P : Platform} (st st' : state P) (new : list action) : Prop :=
  trace st' = (trace st ++ new)%list /\
  handler st' = handle_events (handler st) (events_of new).

Definition invalid_payload : payload :=
  [("response", JStr invalid_url_message); ("events", JEvents [])].

Definition clone_failed_payload (e : string) : payload :=
  [("response", JStr ("Failed to clone repository: " ++ e));
   ("events", JEvents [])].

Definition success_payload (owner repo : string) (h : handler_state) : payload :=
  [("response", JStr (response_text (response_content h)));
   ("events", JEvents (events_log h));
   ("owner", JStr owner);
   ("repo", JStr repo)].

(** The outcome of [try: body finally: final] from those of its parts. *)
Definition finally_outcome {A : Type} (body : outcome A) (final : outcome unit)
  : outcome A :=
  match final with
  | Ret _ => body
  | Raise e => Raise e
  | Hang => Hang
  end.

Section RunVocabulary.
Variable P : Platform.
Implicit Types st : state P.

(** The body of the [try]: send the instruction, wait for the signal. *)
Definition send_and_wait (prompt : string) : M P unit :=
  await (ASend prompt) (fun w => session_send P w prompt) ;; await_done.

(** The state in which the handler is registered. *)
Definition session_opened (st st_on : state P) : Prop :=
  exists pre,
    trace st_on = (trace st ++ pre ++ [AClientStart; ACreateSession; ASessionOn])%list /\
    events_of pre = [] /\
    handler st_on = handler_init.

(** The ways a call of [analyze_github_repo] of [advanced_app.py] can go. *)
Inductive advanced_run (url : string) (st : state P)
  : outcome payload -> state P -> Prop :=
| RunInvalid :
    advanced_run url st (Ret invalid_payload) st
| RunCloneFailed e st1 new :
    fs_step st st1 new ->
    advanced_run url st (Ret (clone_failed_payload e)) st1
| RunNoSession e st1 new :
    fs_step st st1 new ->
    advanced_run url st (Raise e) st1
| RunStalled st_on prompt st_b new :
    session_opened st st_on ->
    send_and_wait prompt st_on = (Hang, st_b) ->
    run_step st_on st_b (ASend prompt :: new) ->
    advanced_run url st Hang st_b
| RunTornDown owner repo st_on prompt rb st_b newb rt st' newt :
    parse_github_url url = (Some owner, Some repo) ->
    session_opened st st_on ->
    send_and_wait prompt st_on = (rb, st_b) ->
    rb <> Hang ->
    run_step st_on st_b (ASend prompt :: newb) ->
    AdvancedApp.teardown (clone_target P repo) st_b = (rt, st') ->
    run_step st_b st' (ADestroy :: newt) ->
    advanced_run url st
      (finally_outcome
         (match rb with
          | Ret _ => Ret (success_payload owner repo (handler st'))
          | Raise e => Raise e
          | Hang => Hang
          end) rt)
      st'.

(** The last two awaits of [analyze_github_repo] of [app.py]. *)
Definition close_session : M P unit :=
  await ADestroy (session_destroy P) ;; await AStop (client_stop P).

(** The ways a call of [analyze_github_repo] of [app.py] can go. *)
Inductive basic_run (url : string) (st : state P)
  : outcome payload -> state P -> Prop :=
| BasicInvalid :
    basic_run url st (Ret invalid_payload) st
| BasicNoSession e st1 new :
    fs_step st st1 new ->
    basic_run url st (Raise e) st1
| BasicStalled st_on prompt st_b new :
    session_opened st st_on ->
    send_and_wait prompt st_on = (Hang, st_b) ->
    run_step st_on st_b (ASend prompt :: new) ->
    basic_run url st Hang st_b
| BasicLeftOpen st_on prompt e st_b new :
    session_opened st st_on ->
    send_and_wait prompt st_on = (Raise e, st_b) ->
    run_step st_on st_b (ASend prompt :: new) ->
    basic_run url st (Raise e) st_b
| BasicClosed owner repo st_on prompt st_b newb rt st' newt :
    parse_github_url url = (Some owner, Some repo) ->
    session_opened st st_on ->
    send_and_wait prompt st_on = (Ret tt, st_b) ->
    run_step st_on st_b (ASend prompt :: newb) ->
    close_session st_b = (rt, st') ->
    run_step st_b st' (ADestroy :: newt) ->
    basic_run url st
      (finally_outcome (Ret (success_payload owner repo (handler st'))) rt)
      st'.

End RunVocabulary.

(** ** What the properties speak about: texts and patterns *)

(** Every character of [s] is in the class [cls]. *)
Fixpoint all_in (cls : ascii -> bool) (s : string) : bool :=
  match s with
  | EmptyString => true
  | String c s' => cls c && all_in cls s'
  end.

(** A non-empty text without ['/']: what a group of either pattern can
    capture. *)
Definition name_ok (s : string) : Prop :=
  s <> "" /\ all_in not_slash s = true.

(** The last character of a text. *)
Fixpoint last_char (s : string) : option ascii :=
  match s with
  | EmptyString => None
  | String c EmptyString => Some c
  | String _ s' => last_char s'
  end.

Fixpoint count_slash (s : string) : nat :=
  match s with
  | EmptyString => 0
  | String c s' => (if not_slash c then 0 else 1) + count_slash s'
  end.

(** The text before the first ['/']. *)
Fixpoint before_slash (s : string) : string :=
  match s with
  | EmptyString => EmptyString
  | String c s' => if not_slash c then String c (before_slash s') else EmptyString
  end.

(** A character other than the space. *)
Definition not_space (c : ascii) : bool := negb (Ascii.eqb c " "%char).

(** Closes a goal [k (MState p s g) = v] from the same fact at an equal
    position. *)
Ltac same_pos H := rewrite <- H; do 2 f_equal; simpl; lia.

(** The text stops the class: it is empty or starts outside [cls]. *)
Definition stops (cls : ascii -> bool) (s : string) : Prop :=
  match s with
  | EmptyString => True
  | String c _ => cls c = false
  end.

(** [/?$] matches all of [s]. *)
Definition opt_slash_eol (s : string) : bool :=
  match strip_prefix "/" s with
  | Some r => at_eol r
  | None => false
  end || at_eol s.

(** [(?:\.git)?/?$] matches all of [s]. *)
Definition tail_ok (s : string) : bool :=
  match strip_prefix ".git" s with
  | Some r => opt_slash_eol r
  | None => false
  end || opt_slash_eol s.

(** The four endings of the URL form. *)
Definition url_suffix (dotgit trailing : bool) : string :=
  (if dotgit then ".git" else "") ++ (if trailing then "/" else "").

Definition tail_pattern : regex :=
  Cat (Opt (Lit ".git")) (Cat (Opt (Lit "/")) Eol).

(** The continuation after group 1 of [pattern_url], for a match that
    started at [p] on the text [s1] after the host. *)
Definition after_owner (p : nat) (s1 : string) (st' : mstate) : option captures :=
  exec (Cat (Lit "/") (Cat (Grp 2 (Plus false not_slash)) tail_pattern))
       (MState (pos st') (rest st') ((1, take (pos st' - p) s1) :: groups st'))
       (fun st => Some (groups st)).

(** The continuation after group 2, for a group that started at [p] on
    [s2]. *)
Definition after_name (p : nat) (s2 : string) (st' : mstate) : option captures :=
  exec tail_pattern
       (MState (pos st') (rest st') ((2, take (pos st' - p) s2) :: groups st'))
       (fun st => Some (groups st)).

Definition short_after_owner (p : nat) (s1 : string) (st' : mstate)
  : option captures :=
  exec (Cat (Lit "/") (Cat (Grp 2 (Plus true not_slash)) Eol))
       (MState (pos st') (rest st') ((1, take (pos st' - p) s1) :: groups st'))
       (fun st => Some (groups st)).

Definition short_after_name (p : nat) (s2 : string) (st' : mstate)
  : option captures :=
  exec Eol
       (MState (pos st') (rest st') ((2, take (pos st' - p) s2) :: groups st'))
       (fun st => Some (groups st)).

(** What the view makes of the outcome of [analyze_github_repo]. *)
Definition view_outcome (r : outcome payload) : outcome response :=
  match r with
  | Ret pl => Ret (pl, 200)
  | Raise e => Ret ([("error", JStr e)], 500)
  | Hang => Hang
  end.

Definition url_of (req : request) : string :=
  match req_repo_url req with Some u => u | None => "" end.

Definition kind_of (req : request) : string :=
  match req_type req with Some t => t | None => "overview" end.

Definition is_teardown (a : action) : bool :=
  match a with
  | ADestroy | AStop => true
  | _ => false
  end.

(** The formatting rules of the diagram instruction of [advanced_app.py]:
    single-line node declarations, short labels, no line break inside the
    label brackets. *)
Definition diagram_rules : list string :=
  ["- Each node definition MUST be on a SINGLE LINE";
   "- Node labels should be SHORT (1-5 words max)";
   "- Do NOT put newlines inside square brackets []"].

(** Its worked examples, one correct and one wrong. *)
Definition diagram_examples : list string :=
  ["CORRECT example:
```mermaid
graph TD
    A[React Core] --> B[Reconciler]
    B --> C[React DOM]
    B --> D[React Native]
```";
   "WRONG example (DO NOT DO THIS):
```mermaid
graph TD
    A[React Core
    Package] --> B[Reconciler]
```"].

(** The words any statement of such rules or examples would use. *)
Definition diagram_rule_words : list string :=
  ["single"; "short"; "newline"; "line break"; "bracket";
   "correct"; "wrong"; "example"].

Definition contains_all (ws : list string) (s : string) : bool :=
  forallb (fun w => contains w s) ws.

Definition contains_none (ws : list string) (s : string) : bool :=
  forallb (fun w => negb (contains w s)) ws.

(** ** What the further properties speak about *)

(** The event types [handle_event] has a branch for. *)
Definition handled_types : list string :=
  ["assistant.message"; "assistant.message_delta"; "tool.execution_start";
   "tool.execution_complete"; "session.idle"].

(** The keys of [analysis_prompts]. *)
Definition known_kinds : list string :=
  ["overview"; "structure"; "diagram"; "dependencies"].





(** [range(retries)] for an [int]: empty when [retries] is not positive. *)
Definition range (retries : Z) : list Z :=
  map Z.of_nat (seq 0 (Z.to_nat retries)).

(** The loop of [safe_rmtree] with [retries] and [attempt] as the [int]s
    they are in the source. *)
Fixpoint safe_rmtree_loop_int (P : Platform) (path : string) (retries : Z)
    (attempts : list Z) : M P bool :=
  match attempts with
  | [] =>
      log (ACouldNotCleanUp path) ;;
      ret false
  | attempt :: attempts' =>
      try_except
        (AdvancedApp.remove_tree path ;; ret true)
        (fun e =>
           log (ACleanupFailed (Z.to_nat (attempt + 1)) e) ;;
           (if (attempt <? retries - 1)%Z then log (ASleep 1) else ret tt) ;;
           safe_rmtree_loop_int P path retries attempts')
  end.

(** [safe_rmtree(path, retries)] for any [int], negative ones included. *)
Definition safe_rmtree_int (P : Platform) (path : string) (retries : Z)
  : M P bool :=
  safe_rmtree_loop_int P path retries (range retries).

(** The scripted platform with an engine that cannot be started:
    [client.start()] raises [e]. *)
Definition engine_down (e : string) : Platform := {|
  World := Sim.world;
  TEMP_REPOS_DIR := TEMP_REPOS_DIR Sim.platform;
  os_path_join := os_path_join Sim.platform;
  os_path_exists := Sim.exists_;
  os_makedirs := os_makedirs Sim.platform;
  git_gc := Sim.gc;
  shutil_rmtree := Sim.rmtree;
  git_clone := Sim.clone;
  git_restore := fun w _ => w;
  client_start := fun w => (Some e, w);
  client_create_session := fun w => (None, w);
  session_send := fun w _ => (Sim.send_script w, w);
  done_wait := fun w => (Sim.wait_script w, w);
  session_destroy := fun w => ([], None, w);
  client_stop := fun w => ([], None, w)
|}.

(** The scripted platform with a session that cannot be destroyed:
    [session.destroy()] hands over [evs] and raises [e]. *)
Definition closing_fails (evs : list event) (e : string) : Platform := {|
  World := Sim.world;
  TEMP_REPOS_DIR := TEMP_REPOS_DIR Sim.platform;
  os_path_join := os_path_join Sim.platform;
  os_path_exists := Sim.exists_;
  os_makedirs := os_makedirs Sim.platform;
  git_gc := Sim.gc;
  shutil_rmtree := Sim.rmtree;
  git_clone := Sim.clone;
  git_restore := fun w _ => w;
  client_start := fun w => (None, w);
  client_create_session := fun w => (None, w);
  session_send := fun w _ => (Sim.send_script w, w);
  done_wait := fun w => (Sim.wait_script w, w);
  session_destroy := fun w => (evs, Some e, w);
  client_stop := fun w => ([], None, w)
|}.

(** * Properties *)

(** ** The event handler *)

Section Handler.

Lemma handle_event_done_mono (h : handler_state) (ev : event) :
  done h = true -> done (handle_event h ev) = true.
Proof.
  intros Hd. unfold handle_event.
  repeat match goal with
         | |- context [if ?b then _ else _] => destruct b
         end; simpl; auto.
Qed.

Lemma handle_event_done (h : handler_state) (ev : event) :
  done (handle_event h ev) = done h || is_idle ev.
Proof.
  unfold handle_event, is_idle.
  destruct (type_value ev =? "assistant.message") eqn:E1.
  - apply String.eqb_eq in E1. rewrite E1. simpl. now rewrite orb_false_r.
  - destruct (type_value ev =? "assistant.message_delta") eqn:E2.
    + apply String.eqb_eq in E2. rewrite E2. simpl.
      destruct (truthy _); simpl; now rewrite orb_false_r.
    + destruct (type_value ev =? "tool.execution_start") eqn:E3.
      * apply String.eqb_eq in E3. rewrite E3. simpl. now rewrite orb_false_r.
      * destruct (type_value ev =? "tool.execution_complete") eqn:E4.
        -- apply String.eqb_eq in E4. rewrite E4. simpl. now rewrite orb_false_r.
        -- destruct (type_value ev =? "session.idle"); simpl.
           ++ now rewrite orb_true_r.
           ++ now rewrite orb_false_r.
Qed.

Lemma handle_event_log (h : handler_state) (ev : event) :
  events_log (handle_event h ev) = (events_log h ++ logged ev)%list.
Proof.
  unfold handle_event, logged.
  destruct (type_value ev =? "assistant.message") eqn:E1.
  - apply String.eqb_eq in E1. rewrite E1. simpl. now rewrite app_nil_r.
  - destruct (type_value ev =? "assistant.message_delta").
    + destruct (delta_content (data ev)) as [[|c d]|]; simpl;
        now rewrite ?app_nil_r.
    + destruct (type_value ev =? "tool.execution_start"); [reflexivity|].
      destruct (type_value ev =? "tool.execution_complete"); [reflexivity|].
      destruct (type_value ev =? "session.idle"); simpl; now rewrite app_nil_r.
Qed.

Lemma handle_event_content (h : handler_state) (ev : event) :
  response_content (handle_event h ev)
  = (response_content h ++ fragments [ev])%list.
Proof.
  unfold handle_event, fragments. simpl.
  destruct (type_value ev =? "assistant.message"); simpl; [reflexivity|].
  rewrite app_nil_r.
  repeat match goal with
         | |- context [if ?b then _ else _] => destruct b
         end; reflexivity.
Qed.

Lemma handle_events_done (evs : list event) (h : handler_state) :
  done (handle_events h evs) = done h || existsb is_idle evs.
Proof.
  unfold handle_events. revert h.
  induction evs as [|ev evs IH]; intros h; simpl.
  - now rewrite orb_false_r.
  - rewrite IH, handle_event_done. now rewrite orb_assoc.
Qed.

Lemma handle_events_log (evs : list event) (h : handler_state) :
  events_log (handle_events h evs) = (events_log h ++ flat_map logged evs)%list.
Proof.
  unfold handle_events. revert h.
  induction evs as [|ev evs IH]; intros h; simpl.
  - now rewrite app_nil_r.
  - rewrite IH, handle_event_log. now rewrite <- app_assoc.
Qed.

Lemma handle_events_content (evs : list event) (h : handler_state) :
  response_content (handle_events h evs)
  = (response_content h ++ fragments evs)%list.
Proof.
  unfold handle_events. revert h.
  induction evs as [|ev evs IH]; intros h.
  - simpl. now rewrite app_nil_r.
  - simpl fold_left. rewrite IH, handle_event_content.
    rewrite <- app_assoc. f_equal.
    unfold fragments. simpl. now rewrite app_nil_r.
Qed.

Lemma handle_events_app (h : handler_state) (evs1 evs2 : list event) :
  handle_events h (evs1 ++ evs2) = handle_events (handle_events h evs1) evs2.
Proof. unfold handle_events. apply fold_left_app. Qed.

Lemma flag_rises_up (evs : list event) (h : handler_state) :
  done h = true -> flag_rises h evs = 0.
Proof.
  revert h. induction evs as [|ev evs IH]; intros h Hd; simpl; [reflexivity|].
  rewrite Hd. simpl. apply IH. now apply handle_event_done_mono.
Qed.

Lemma flag_rises_down (evs : list event) (h : handler_state) :
  done h = false ->
  flag_rises h evs = if existsb is_idle evs then 1 else 0.
Proof.
  revert h. induction evs as [|ev evs IH]; intros h Hd; simpl; [reflexivity|].
  rewrite Hd, handle_event_done, Hd. simpl.
  destruct (is_idle ev) eqn:Ei; simpl.
  - rewrite flag_rises_up; [reflexivity|].
    rewrite handle_event_done, Ei. apply orb_true_r.
  - apply IH. rewrite handle_event_done, Hd, Ei. reflexivity.
Qed.

End Handler.

(** C5, as stated, fails: a final message and an idle event are received
    and neither is recorded in the event log, so the log does not hold a
    record of every received event. *)
Lemma event_log_misses_events :
  let evs := [Sim.ev_message "hi"; Sim.ev_delta (Some ""); Sim.ev_idle] in
  events_log (handle_events handler_init evs) = [] /\
  List.length (events_log (handle_events handler_init evs)) <> List.length evs.
Proof. simpl. split; [reflexivity | discriminate]. Qed.

(** C5, amended: over any sequence of received events the flag of the
    completion signal goes up at most once -- exactly once when an idle
    event is among them, however many there are -- and stays up; the event
    log holds, in arrival order, the record of every delta with text, every
    tool start and every tool completion, those after the first idle event
    included; final messages go to the response fragments, and idle events
    and empty deltas leave no record. *)
Theorem completion_once_and_log_in_order (evs : list event) :
  flag_rises handler_init evs = (if existsb is_idle evs then 1 else 0) /\
  done (handle_events handler_init evs) = existsb is_idle evs /\
  (forall before after : list event,
      evs = (before ++ after)%list ->
      done (handle_events handler_init before) = true ->
      done (handle_events handler_init evs) = true /\
      events_log (handle_events handler_init evs)
      = (events_log (handle_events handler_init before)
           ++ flat_map logged after)%list) /\
  events_log (handle_events handler_init evs) = flat_map logged evs /\
  response_content (handle_events handler_init evs) = fragments evs.
Proof.
  split; [now apply flag_rises_down|].
  split; [now rewrite handle_events_done|].
  split.
  - intros before after -> Hb. rewrite handle_events_app. split.
    + rewrite handle_events_done, Hb. reflexivity.
    + apply handle_events_log.
  - split.
    + now rewrite handle_events_log.
    + now rewrite handle_events_content.
Qed.

Lemma completion_once_and_log_in_order_witness :
  let before := [Sim.ev_tool_start "read_file" "c1"; Sim.ev_idle] in
  let after := [Sim.ev_idle; Sim.ev_delta (Some "late");
                Sim.ev_tool_complete "c1" "ok"] in
  done (handle_events handler_init before) = true /\
  flag_rises handler_init (before ++ after) = 1 /\
  events_log (handle_events handler_init (before ++ after))
  = (events_log (handle_events handler_init before) ++ flat_map logged after)%list.
Proof.
  split; [reflexivity|].
  destruct (completion_once_and_log_in_order
              ([Sim.ev_tool_start "read_file" "c1"; Sim.ev_idle]
                 ++ [Sim.ev_idle; Sim.ev_delta (Some "late");
                     Sim.ev_tool_complete "c1" "ok"]))
    as (Hrise & _ & Hlate & _).
  split; [exact Hrise|].
  exact (proj2 (Hlate _ _ eq_refl eq_refl)).
Defined.

(** ** The workspace reaper *)

Section Reaper.
Variable P : Platform.
Implicit Types st : state P.

Lemma fs_step_refl st : fs_step st st [].
Proof. unfold fs_step. now rewrite app_nil_r. Qed.

Lemma events_of_app (a b : list action) :
  events_of (a ++ b) = (events_of a ++ events_of b)%list.
Proof.
  induction a as [|x a IH]; simpl; [reflexivity|].
  destruct x; simpl; auto. now rewrite IH.
Qed.

Lemma fs_step_trans st1 st2 st3 n1 n2 :
  fs_step st1 st2 n1 -> fs_step st2 st3 n2 -> fs_step st1 st3 (n1 ++ n2).
Proof.
  unfold fs_step. intros (T1 & H1 & E1) (T2 & H2 & E2).
  rewrite T2, T1, H2, H1, events_of_app, E1, E2, app_assoc. auto.
Qed.

(** One attempt returns or raises, after at most one [git gc] and one
    [rmtree]. *)
Lemma remove_tree_cases (path : string) st :
  exists r st' new,
    AdvancedApp.remove_tree path st = (r, st') /\
    (r = Ret tt \/ exists e, r = Raise e) /\
    fs_step st st' new /\
    filter is_backoff new = [] /\
    List.length (filter is_rmtree new) <= 1 /\
    List.length (filter is_gc new) <= 1 /\
    (os_path_exists P (world st) path = false ->
     r = Ret tt /\ st' = st).
Proof.
  unfold AdvancedApp.remove_tree, bind, get_world, call_exn, ret.
  destruct (os_path_exists P (world st) path) eqn:Ex.
  - destruct (os_path_exists P (world st) (os_path_join P path ".git")).
    + simpl. destruct (git_gc P (world st) path) as [[e|] w1]; simpl.
      * eexists _, _, [AGitGc path]. split; [reflexivity|].
        split; [right; eauto|]. unfold fs_step. simpl.
        repeat split; auto; discriminate.
      * destruct (shutil_rmtree P w1 path) as [[e|] w2]; simpl.
        -- eexists _, _, [AGitGc path; ARmtree path]. split; [reflexivity|].
           split; [right; eauto|]. unfold fs_step. simpl.
           rewrite <- app_assoc. repeat split; auto; discriminate.
        -- eexists _, _, [AGitGc path; ARmtree path]. split; [reflexivity|].
           split; [left; auto|]. unfold fs_step. simpl.
           rewrite <- app_assoc. repeat split; auto; discriminate.
    + simpl. destruct (shutil_rmtree P (world st) path) as [[e|] w2]; simpl.
      * eexists _, _, [ARmtree path]. split; [reflexivity|].
        split; [right; eauto|]. unfold fs_step. simpl.
        repeat split; auto; discriminate.
      * eexists _, _, [ARmtree path]. split; [reflexivity|].
        split; [left; auto|]. unfold fs_step. simpl.
        repeat split; auto; discriminate.
  - eexists _, _, []. split; [reflexivity|].
    split; [left; auto|]. split; [apply fs_step_refl|].
    simpl. repeat split; auto.
Qed.

(** The retry loop over the attempts [a], [a+1], ..., [a+n-1]. *)
Lemma safe_rmtree_loop_spec (path : string) (retries n : nat) :
  forall (a : nat) st,
  exists b st' new errs,
    AdvancedApp.safe_rmtree_loop path retries (seq a n) st = (Ret b, st') /\
    fs_step st st' new /\
    List.length errs <= n /\
    b = negb (List.length errs =? n)%nat /\
    filter is_backoff new
    = (backoff_log retries a errs
         ++ (if b then [] else [ACouldNotCleanUp path]))%list /\
    List.length (filter is_rmtree new) <= n /\
    List.length (filter is_gc new) <= n.
Proof.
  induction n as [|n IH]; intros a st.
  - exists false, (State P (world st) (handler st)
                     (trace st ++ [ACouldNotCleanUp path])%list),
           [ACouldNotCleanUp path], [].
    simpl. unfold bind, log, ret. simpl.
    repeat split; auto.
  - simpl seq. simpl AdvancedApp.safe_rmtree_loop.
    destruct (remove_tree_cases path st)
      as (r & st1 & new1 & Hrun & Hr & Hfs1 & Hb1 & Hc1 & Hg1 & _).
    unfold try_except, bind at 1. rewrite Hrun.
    destruct Hr as [-> | [e ->]].
    + exists true, st1, new1, []. unfold ret. simpl.
      repeat split; try apply Hfs1; auto; lia.
    + unfold bind at 1, log at 1. simpl.
      set (st2 := State P (world st1) (handler st1)
                    (trace st1 ++ [ACleanupFailed (a + 1) e])%list).
      assert (Hfs2 : fs_step st1 st2 [ACleanupFailed (a + 1) e])
        by (unfold fs_step; simpl; auto).
      unfold bind at 1.
      destruct (a <? retries - 1)%nat eqn:Hlt.
      * unfold log at 1. simpl.
        set (st3 := State P (world st1) (handler st1)
                      ((trace st1 ++ [ACleanupFailed (a + 1) e])
                         ++ [ASleep 1])%list).
        assert (Hfs3 : fs_step st2 st3 [ASleep 1])
          by (unfold fs_step; simpl; auto).
        destruct (IH (S a) st3)
          as (b & st' & new & errs & Hloop & Hfs & Hle & Hb & Hlog & Hcnt & Hgc).
        exists b, st', (new1 ++ [ACleanupFailed (a + 1) e] ++ [ASleep 1] ++ new)%list,
               (e :: errs).
        split; [exact Hloop|].
        split.
        { eapply fs_step_trans; [exact Hfs1|].
          eapply fs_step_trans; [exact Hfs2|].
          eapply fs_step_trans; [exact Hfs3|exact Hfs]. }
        split; [simpl; lia|].
        split; [simpl; exact Hb|].
        split.
        { rewrite !filter_app, Hb1, Hlog. simpl. rewrite Hlt. reflexivity. }
        rewrite !filter_app, !length_app. simpl. lia.
      * unfold ret at 1. simpl.
        destruct (IH (S a) st2)
          as (b & st' & new & errs & Hloop & Hfs & Hle & Hb & Hlog & Hcnt & Hgc).
        exists b, st', (new1 ++ [ACleanupFailed (a + 1) e] ++ new)%list,
               (e :: errs).
        split; [exact Hloop|].
        split.
        { eapply fs_step_trans; [exact Hfs1|].
          eapply fs_step_trans; [exact Hfs2|exact Hfs]. }
        split; [simpl; lia|].
        split; [simpl; exact Hb|].
        split.
        { rewrite !filter_app, Hb1, Hlog. simpl. rewrite Hlt. reflexivity. }
        rewrite !filter_app, !length_app. simpl. lia.
Qed.

(** On a path that does not exist the first attempt returns [True] and
    touches nothing. *)
Lemma safe_rmtree_absent (path : string) (retries : nat) st :
  0 < retries ->
  os_path_exists P (world st) path = false ->
  AdvancedApp.safe_rmtree path retries st = (Ret true, st).
Proof.
  intros Hr Hex. unfold AdvancedApp.safe_rmtree.
  destruct retries as [|n]; [lia|]. simpl.
  destruct (remove_tree_cases path st)
    as (r & st1 & new1 & Hrun & _ & _ & _ & _ & _ & Habs).
  destruct (Habs Hex) as [-> ->].
  unfold try_except, bind. rewrite Hrun. reflexivity.
Qed.

End Reaper.

(** ** The workspace reaper, attempt by attempt *)

Section Attempts.
Variable P : Platform.
Implicit Types st : state P.

(** The body of the [try] is one attempt. *)
Lemma remove_tree_attempt (path : string) st :
  exists r w' acts,
    AdvancedApp.remove_tree path st
    = (match r with None => Ret tt | Some e => Raise e end,
       State P w' (handler st) (trace st ++ acts)%list) /\
    attempt_result P path (world st) r w' acts.
Proof.
  destruct st as [w h tr].
  unfold AdvancedApp.remove_tree, bind, get_world, call_exn, ret. simpl.
  destruct (os_path_exists P w path) eqn:Ex.
  - destruct (os_path_exists P w (os_path_join P path ".git")) eqn:Eg; simpl.
    + destruct (git_gc P w path) as [[e|] w1] eqn:Hgc; simpl.
      * exists (Some e), w1, [AGitGc path]. split; [reflexivity|].
        now apply AttemptGcRaises.
      * destruct (shutil_rmtree P w1 path) as [r w2] eqn:Hrm.
        exists r, w2, [AGitGc path; ARmtree path]. split.
        -- rewrite <- app_assoc. now destruct r.
        -- now apply AttemptAfterGc with (w1 := w1).
    + destruct (shutil_rmtree P w path) as [r w2] eqn:Hrm.
      exists r, w2, [ARmtree path]. split.
      * now destruct r.
      * now apply AttemptPlain.
  - exists None, w, []. split.
    + now rewrite app_nil_r.
    + now apply AttemptAbsent.
Qed.

(** An attempt runs at most one [git gc] and one [rmtree], reports nothing
    and hands over no event. *)
Lemma attempt_result_actions {path : string} {w : World P} {r w' acts} :
  attempt_result P path w r w' acts ->
  events_of acts = [] /\
  filter is_backoff acts = [] /\
  List.length (filter is_rmtree acts) <= 1 /\
  List.length (filter is_gc acts) <= 1.
Proof. intros H. destruct H; cbn; auto. Qed.

(** What the platform answers decides the attempt. *)
Lemma attempt_result_unique (path : string) (w : World P) r1 w1 acts1 r2 w2 acts2 :
  attempt_result P path w r1 w1 acts1 ->
  attempt_result P path w r2 w2 acts2 ->
  r1 = r2 /\ w1 = w2 /\ acts1 = acts2.
Proof.
  intros H1 H2.
  destruct H1; inversion H2; subst;
    repeat match goal with
           | Ha : ?f = _, Hb : ?f = _ |- _ =>
               rewrite Ha in Hb; inversion Hb; subst; clear Hb
           end; auto.
Qed.

Lemma failed_attempts_actions {path : string} {retries a : nat}
    {w : World P} {errs w' acts} :
  failed_attempts P path retries a w errs w' acts ->
  events_of acts = [] /\
  filter is_backoff acts = backoff_log retries a errs /\
  List.length (filter is_rmtree acts) <= List.length errs /\
  List.length (filter is_gc acts) <= List.length errs.
Proof.
  intros H. induction H as [a w | a w e w1 acts errs w' rest Hatt _ IH].
  - cbn. auto.
  - destruct (attempt_result_actions Hatt) as (E1 & B1 & R1 & G1).
    destruct IH as (E2 & B2 & R2 & G2).
    rewrite events_of_app, !filter_app, !length_app, E1, B1.
    cbn [events_of filter is_backoff is_rmtree is_gc app backoff_log List.length].
    rewrite events_of_app, !filter_app, !length_app, E2, B2.
    destruct (a <? retries - 1)%nat; cbn; repeat split; auto; lia.
Qed.

(** The retry loop over the attempts [a], [a+1], ..., [a+n-1], with the
    state it ends in. *)
Lemma safe_rmtree_loop_attempts (path : string) (retries n : nat) :
  forall (a : nat) st,
  exists b w' new errs,
    AdvancedApp.safe_rmtree_loop path retries (seq a n) st
    = (Ret b, State P w' (handler st) (trace st ++ new)%list) /\
    reaped P path retries a n (world st) b w' new errs.
Proof.
  induction n as [|n IH]; intros a st.
  - exists false, (world st), [ACouldNotCleanUp path], [].
    split; [reflexivity|].
    exists (world st), [], [ACouldNotCleanUp path].
    split; [apply FailedNone|]. auto.
  - cbn [seq AdvancedApp.safe_rmtree_loop].
    destruct (remove_tree_attempt path st) as (r & w1 & acts & Hrun & Hatt).
    unfold try_except, bind at 1. rewrite Hrun.
    destruct r as [e|].
    + set (sleep := if (a <? retries - 1)%nat then [ASleep 1] else []).
      set (st2 := State P w1 (handler st)
                    (trace st ++ acts ++ ACleanupFailed (a + 1) e :: sleep)%list).
      destruct (IH (S a) st2) as (b & w' & new & errs & Hloop & Hreap).
      exists b, w', (acts ++ ACleanupFailed (a + 1) e :: sleep ++ new)%list,
             (e :: errs).
      split.
      * unfold bind at 1, log at 1. cbn [world handler trace].
        unfold bind at 1.
        assert (Hst : forall tr,
                   tr = trace st2 ->
                   AdvancedApp.safe_rmtree_loop path retries (seq (S a) n)
                     (State P w1 (handler st) tr)
                   = (Ret b, State P w' (handler st)
                                   (trace st
                                      ++ acts ++ ACleanupFailed (a + 1) e
                                      :: sleep ++ new)%list)).
        { intros tr ->. change (State P w1 (handler st) (trace st2)) with st2.
          rewrite Hloop. subst st2. cbn [handler trace].
          do 2 f_equal. rewrite <- !app_assoc. reflexivity. }
        subst sleep. destruct (a <? retries - 1)%nat.
        -- unfold log at 1. cbn [world handler trace]. apply Hst.
           subst st2. cbn [trace]. rewrite <- !app_assoc. reflexivity.
        -- unfold ret at 1. apply Hst.
           subst st2. cbn [trace]. rewrite <- !app_assoc. reflexivity.
      * destruct Hreap as (w_f & tried & last & Hfail & Hnew & Hend).
        exists w_f, (acts ++ ACleanupFailed (a + 1) e :: sleep ++ tried)%list, last.
        split; [eapply FailedNext; eauto|].
        split.
        { subst new. rewrite <- !app_assoc. cbn [app].
          now rewrite <- !app_assoc. }
        destruct b; cbn [List.length].
        -- destruct Hend; split; [lia | assumption].
        -- destruct Hend as (? & ? & ?); repeat split; auto.
    + exists true, w1, acts, []. split; [reflexivity|].
      exists (world st), [], acts.
      split; [apply FailedNone|]. cbn. repeat split; auto. lia.
Qed.

(** [safe_rmtree] for any number of retries: the result, the reports and
    the commands, from the attempts the platform decides. *)
Lemma safe_rmtree_attempts (path : string) (retries : nat) st :
  exists b st' new errs,
    AdvancedApp.safe_rmtree path retries st = (Ret b, st') /\
    trace st' = (trace st ++ new)%list /\
    handler st' = handler st /\
    List.length errs <= retries /\
    b = negb (List.length errs =? retries)%nat /\
    filter is_backoff new
    = (backoff_log retries 0 errs
         ++ (if b then [] else [ACouldNotCleanUp path]))%list /\
    List.length (filter is_rmtree new) <= retries /\
    List.length (filter is_gc new) <= retries /\
    reaped P path retries 0 retries (world st) b (world st') new errs.
Proof.
  destruct (safe_rmtree_loop_attempts path retries retries 0 st)
    as (b & w' & new & errs & Hrun & Hreap).
  exists b, (State P w' (handler st) (trace st ++ new)%list), new, errs.
  split; [exact Hrun|]. cbn [world handler trace].
  assert (Hreap' := Hreap).
  destruct Hreap' as (w_f & tried & last & Hfail & Hnew & Hend).
  destruct (failed_attempts_actions Hfail) as (_ & Hlog & Hrm & Hgc).
  assert (Hlast : filter is_backoff last
                  = (if b then [] else [ACouldNotCleanUp path]) /\
                  List.length errs + List.length (filter is_rmtree last)
                  <= retries /\
                  List.length errs + List.length (filter is_gc last)
                  <= retries /\
                  b = negb (List.length errs =? retries)%nat).
  { destruct b.
    - destruct Hend as [Hlt Hatt].
      destruct (attempt_result_actions Hatt) as (_ & B & R & G).
      repeat split; auto; try lia.
      symmetry. apply negb_true_iff, Nat.eqb_neq. lia.
    - destruct Hend as (Hlen & _ & ->). cbn. rewrite Hlen, Nat.eqb_refl.
      repeat split; lia. }
  destruct Hlast as (Hb1 & Hr1 & Hg1 & Hb).
  repeat split; auto.
  - destruct b; [destruct Hend; lia | destruct Hend as (-> & _); lia].
  - subst new. now rewrite filter_app, Hlog, Hb1.
  - subst new. rewrite filter_app, length_app. lia.
  - subst new. rewrite filter_app, length_app. lia.
Qed.

End Attempts.

(** C7: on a path that does not exist, [safe_rmtree] returns [True] and
    changes nothing (no command is run, the world and the trace are as
    before); called twice in succession on that path it returns [True] both
    times, again without any effect and without raising. *)
Theorem safe_rmtree_idempotent (P : Platform) (path : string) (st : state P) :
  os_path_exists P (world st) path = false ->
  AdvancedApp.safe_rmtree path AdvancedApp.default_retries st = (Ret true, st) /\
  (first <- AdvancedApp.safe_rmtree path AdvancedApp.default_retries ;;
   second <- AdvancedApp.safe_rmtree path AdvancedApp.default_retries ;;
   ret (first, second)) st = (Ret (true, true), st).
Proof.
  intros Hex.
  assert (H1 : AdvancedApp.safe_rmtree path AdvancedApp.default_retries st
               = (Ret true, st))
    by (apply safe_rmtree_absent; [unfold AdvancedApp.default_retries; lia | exact Hex]).
  split; [exact H1|].
  unfold bind. rewrite H1, H1. reflexivity.
Qed.

Lemma safe_rmtree_idempotent_witness :
  let st := Sim.init (Sim.quiet_world "") in
  os_path_exists Sim.platform (world st) "temp_repos/widgets" = false /\
  AdvancedApp.safe_rmtree "temp_repos/widgets" AdvancedApp.default_retries st
  = (Ret true, st).
Proof.
  split; [reflexivity|].
  apply (safe_rmtree_idempotent Sim.platform "temp_repos/widgets"
           (Sim.init (Sim.quiet_world ""))).
  reflexivity.
Defined.

(** When a successful [rmtree] leaves the path absent and [git gc] does not
    bring it back, a second call after a successful first one is the no-op
    above. *)
Lemma safe_rmtree_again_after_success (P : Platform) (path : string)
    (st st1 : state P) :
  (forall w w', shutil_rmtree P w path = (None, w') ->
                os_path_exists P w' path = false) ->
  os_path_exists P (world st) path = true ->
  AdvancedApp.safe_rmtree path 1 st = (Ret true, st1) ->
  AdvancedApp.safe_rmtree path AdvancedApp.default_retries st1 = (Ret true, st1).
Proof.
  intros Hlaw Hex Hrun.
  apply safe_rmtree_absent; [unfold AdvancedApp.default_retries; lia|].
  revert Hrun.
  unfold AdvancedApp.safe_rmtree. simpl.
  unfold AdvancedApp.remove_tree, try_except, bind, get_world, call_exn, ret, log.
  rewrite Hex.
  destruct (os_path_exists P (world st) (os_path_join P path ".git")); simpl.
  - destruct (git_gc P (world st) path) as [[e|] w1]; simpl;
      [discriminate|].
    destruct (shutil_rmtree P w1 path) as [[e|] w2] eqn:Hrm; simpl;
      [discriminate|].
    intros H. inversion H; subst. simpl. eapply Hlaw; eauto.
  - destruct (shutil_rmtree P (world st) path) as [[e|] w2] eqn:Hrm; simpl;
      [discriminate|].
    intros H. inversion H; subst. simpl. eapply Hlaw; eauto.
Qed.

(** C8: [safe_rmtree] with its default of 3 retries always returns a
    boolean -- it never raises and never hangs, whatever [git gc] and
    [rmtree] do.  It makes at most 3 attempts (at most 3 [git gc] and 3
    [rmtree] calls); each failed attempt is reported, and after each of the
    first two failures it sleeps 1 second before the next attempt; it
    returns [False], after reporting that it gave up, exactly when all 3
    attempts failed.  The attempts are the ones the platform decides:
    [errs] are the exceptions that [git gc] or [rmtree] raised in the
    attempts 1, 2, ..., each attempt started in the world the one before
    left; the call returns [True] when the attempt after them -- one of the
    first 3 -- returned, in the world that attempt left, and [False] when
    all 3 raised, in the world the third left. *)
Theorem safe_rmtree_bounded_retries (P : Platform) (path : string) (st : state P) :
  exists b st' new errs,
    AdvancedApp.safe_rmtree path AdvancedApp.default_retries st = (Ret b, st') /\
    trace st' = (trace st ++ new)%list /\
    handler st' = handler st /\
    List.length errs <= 3 /\
    b = negb (List.length errs =? 3)%nat /\
    filter is_backoff new
    = (backoff_log 3 0 errs ++ (if b then [] else [ACouldNotCleanUp path]))%list /\
    List.length (filter is_rmtree new) <= 3 /\
    List.length (filter is_gc new) <= 3 /\
    exists w_f tried last,
      failed_attempts P path 3 0 (world st) errs w_f tried /\
      new = (tried ++ last)%list /\
      if b then
        List.length errs < 3 /\ attempt_result P path w_f None (world st') last
      else
        List.length errs = 3 /\ world st' = w_f /\ last = [ACouldNotCleanUp path].
Proof.
  destruct (safe_rmtree_attempts P path 3 st)
    as (b & st' & new & errs & Hrun & Ht & Hh & Hle & Hb & Hlog & Hrm & Hgc
        & w_f & tried & last & Hfail & Hnew & Hend).
  exists b, st', new, errs.
  repeat split; auto.
  exists w_f, tried, last. auto.
Qed.

Example safe_rmtree_gives_up :
  let w := Sim.SimWorld ["ws"] ["locked"; "locked"; "locked"] [] true ""
                        ([], None) ([], None) in
  AdvancedApp.safe_rmtree "ws" 3 (Sim.init w)
  = (Ret false,
     State Sim.platform
       (Sim.SimWorld ["ws"] [] [] true "" ([], None) ([], None))
       handler_init
       [ARmtree "ws"; ACleanupFailed 1 "locked"; ASleep 1;
        ARmtree "ws"; ACleanupFailed 2 "locked"; ASleep 1;
        ARmtree "ws"; ACleanupFailed 3 "locked"; ACouldNotCleanUp "ws"]).
Proof. reflexivity. Qed.

(** ** The repository acquirer *)

Section Acquirer.
Variable P : Platform.
Implicit Types st : state P.

Lemma clone_repo_spec (owner repo : string) st :
  exists st1 stderr w2 r st' pre,
    AdvancedApp.clone_repo owner repo st = (r, st') /\
    git_clone P (world st1) (clone_source owner repo) (clone_target P repo)
    = (stderr, w2) /\
    trace st1 = (trace st ++ pre)%list /\
    handler st' = handler st /\
    events_of pre = [] /\
    (if os_path_exists P w2 (clone_target P repo) then
       r = Ret (clone_target P repo) /\
       if contains "checkout failed" (lower stderr) then
         world st' = git_restore P w2 (clone_target P repo) /\
         trace st' = (trace st ++ pre
                        ++ [AGitClone (clone_source owner repo) (clone_target P repo);
                            AGitRestore (clone_target P repo)])%list
       else
         world st' = w2 /\
         trace st' = (trace st ++ pre
                        ++ [AGitClone (clone_source owner repo) (clone_target P repo)])%list
     else
       r = Raise ("Failed to clone repository: " ++ stderr) /\
       world st' = w2 /\
       trace st' = (trace st ++ pre
                      ++ [AGitClone (clone_source owner repo) (clone_target P repo)])%list).
Proof.
  unfold AdvancedApp.clone_repo.
  fold (clone_target P repo). fold (clone_source owner repo).
  set (path := clone_target P repo). set (url := clone_source owner repo).
  unfold bind at 1. unfold call at 1. cbv beta iota.
  set (st0 := State P _ _ _).
  unfold bind at 1. unfold get_world at 1. cbv beta iota.
  assert (Hpre : exists st1 new1,
             (if os_path_exists P (world st0) path
              then AdvancedApp.safe_rmtree path AdvancedApp.default_retries;; ret tt
              else ret tt) st0 = (Ret tt, st1) /\ fs_step st0 st1 new1).
  { destruct (os_path_exists P (world st0) path).
    - destruct (safe_rmtree_loop_spec P path 3 3 0 st0)
        as (b & st1 & new1 & errs & Hrun & Hfs & _).
      exists st1, new1. split; [|exact Hfs].
      unfold bind, AdvancedApp.safe_rmtree, AdvancedApp.default_retries.
      rewrite Hrun. reflexivity.
    - exists st0, []. split; [reflexivity | apply fs_step_refl]. }
  destruct Hpre as (st1 & new1 & Hpre & (Ht1 & Hh1 & He1)).
  unfold bind at 1. rewrite Hpre.
  unfold bind, call_val, get_world, call, ret, raise.
  destruct (git_clone P (world st1) url path) as [stderr w2] eqn:Hclone.
  cbv beta iota. cbn [world handler trace].
  exists st1, stderr, w2.
  assert (Htr : forall tail : list action,
             ((trace st1 ++ [AGitClone url path]) ++ tail)%list
             = (trace st ++ (AMakedirs (TEMP_REPOS_DIR P) :: new1)
                  ++ AGitClone url path :: tail)%list).
  { intros tail. rewrite Ht1. subst st0. simpl.
    rewrite <- !app_assoc. reflexivity. }
  assert (Htr1 : trace st1
                 = (trace st ++ AMakedirs (TEMP_REPOS_DIR P) :: new1)%list).
  { rewrite Ht1. subst st0. simpl. now rewrite <- app_assoc. }
  destruct (os_path_exists P w2 path) eqn:Hex; simpl negb; cbv iota.
  - destruct (contains "checkout failed" (lower stderr)).
    + eexists _, _, (AMakedirs (TEMP_REPOS_DIR P) :: new1).
      split; [reflexivity|]. split; [exact Hclone|].
      split; [exact Htr1|].
      cbn [world handler trace events_of]. rewrite Hh1.
      split; [reflexivity|]. split; [exact He1|].
      split; [reflexivity|]. split; [reflexivity|].
      apply (Htr [AGitRestore path]).
    + eexists _, _, (AMakedirs (TEMP_REPOS_DIR P) :: new1).
      split; [reflexivity|]. split; [exact Hclone|].
      split; [exact Htr1|].
      cbn [world handler trace events_of]. rewrite Hh1.
      split; [reflexivity|]. split; [exact He1|].
      split; [reflexivity|]. split; [reflexivity|].
      rewrite <- (Htr []). now rewrite app_nil_r.
  - eexists _, _, (AMakedirs (TEMP_REPOS_DIR P) :: new1).
    split; [reflexivity|]. split; [exact Hclone|].
      split; [exact Htr1|].
    cbn [world handler trace events_of]. rewrite Hh1.
    split; [reflexivity|]. split; [exact He1|].
    split; [reflexivity|]. split; [reflexivity|].
    rewrite <- (Htr []). now rewrite app_nil_r.
Qed.

End Acquirer.

(** C4: [clone_repo] raises exactly when the target directory does not
    exist after [git clone] has run (in the world [w2] that the clone, run
    in the state [st1] reached by the steps before it, leaves behind), and
    the exception then carries the stderr of the clone; when the directory exists the call returns the
    workspace path, whatever the clone reported, and when that report
    mentions a failed checkout, [git restore] is run on the workspace as
    the last step before the path is returned. *)
Theorem clone_repo_fails_iff_no_directory (P : Platform)
    (owner repo : string) (st : state P) :
  let path := clone_target P repo in
  let url := clone_source owner repo in
  exists st1 stderr w2 r st' pre,
    AdvancedApp.clone_repo owner repo st = (r, st') /\
    trace st1 = (trace st ++ pre)%list /\
    git_clone P (world st1) url path = (stderr, w2) /\
    ((exists e, r = Raise e) <-> os_path_exists P w2 path = false) /\
    (os_path_exists P w2 path = false ->
     r = Raise ("Failed to clone repository: " ++ stderr) /\
     trace st' = (trace st ++ pre ++ [AGitClone url path])%list) /\
    (os_path_exists P w2 path = true ->
     r = Ret path /\
     (contains "checkout failed" (lower stderr) = true ->
      world st' = git_restore P w2 path /\
      trace st' = (trace st ++ pre ++ [AGitClone url path; AGitRestore path])%list) /\
     (contains "checkout failed" (lower stderr) = false ->
      world st' = w2 /\
      trace st' = (trace st ++ pre ++ [AGitClone url path])%list)).
Proof.
  intros path url.
  destruct (clone_repo_spec P owner repo st)
    as (st1 & stderr & w2 & r & st' & pre & Hrun & Hclone & Hpre & _ & _ & Hcases).
  fold path url in Hclone, Hcases.
  exists st1, stderr, w2, r, st', pre.
  split; [exact Hrun|]. split; [exact Hpre|]. split; [exact Hclone|].
  destruct (os_path_exists P w2 path).
  - destruct Hcases as [-> Hrest]. split.
    + split; [intros [e He]; discriminate | discriminate].
    + split; [discriminate|]. intros _. split; [reflexivity|].
      destruct (contains "checkout failed" (lower stderr));
        split; auto; discriminate.
  - destruct Hcases as (-> & Hw & Ht). split.
    + split; [reflexivity | intros _; eauto].
    + split; [auto | discriminate].
Qed.

Example clone_repo_checkout_failed :
  let w := Sim.SimWorld [] [] [] true "error: Checkout FAILED for x"
                        ([], None) ([], None) in
  AdvancedApp.clone_repo "acme" "widgets" (Sim.init w)
  = (Ret "temp_repos/widgets",
     State Sim.platform
       (Sim.set_paths w ["temp_repos/widgets"; "temp_repos"])
       handler_init
       [AMakedirs "temp_repos";
        AGitClone "https://github.com/acme/widgets.git" "temp_repos/widgets";
        AGitRestore "temp_repos/widgets"]).
Proof. reflexivity. Qed.

Example clone_repo_no_directory :
  let w := Sim.SimWorld [] [] [] false "fatal: repository not found"
                        ([], None) ([], None) in
  fst (AdvancedApp.clone_repo "acme" "widgets" (Sim.init w))
  = Raise "Failed to clone repository: fatal: repository not found".
Proof. reflexivity. Qed.

(** ** The session orchestrator *)

Section Orchestrator.
Variable P : Platform.
Implicit Types st : state P.

Lemma events_of_map_AEvent (evs : list event) : events_of (map AEvent evs) = evs.
Proof. induction evs as [|ev evs IH]; simpl; [reflexivity | now rewrite IH]. Qed.

Lemma fs_step_run_step st st' new : fs_step st st' new -> run_step st st' new.
Proof. intros (Ht & Hh & He). split; [exact Ht|]. now rewrite He, Hh. Qed.

Lemma run_step_refl st : run_step st st [].
Proof. split; [now rewrite app_nil_r | reflexivity]. Qed.

Lemma run_step_trans st1 st2 st3 n1 n2 :
  run_step st1 st2 n1 -> run_step st2 st3 n2 -> run_step st1 st3 (n1 ++ n2).
Proof.
  intros (T1 & H1) (T2 & H2). split.
  - now rewrite T2, T1, app_assoc.
  - now rewrite H2, H1, events_of_app, handle_events_app.
Qed.

Lemma dispatch_all_eq (evs : list event) st :
  dispatch_all evs st
  = (Ret tt, State P (world st) (handle_events (handler st) evs)
                   (trace st ++ map AEvent evs)).
Proof.
  revert st. induction evs as [|ev evs IH]; intros st; simpl.
  - unfold ret. rewrite app_nil_r. now destruct st.
  - unfold bind, dispatch. rewrite IH. simpl.
    now rewrite <- app_assoc.
Qed.

Lemma await_eq (a : action) f st :
  await a f st
  = (match snd (fst (f (world st))) with
     | None => Ret tt
     | Some e => Raise e
     end,
     State P (snd (f (world st)))
           (handle_events (handler st) (fst (fst (f (world st)))))
           (trace st ++ a :: map AEvent (fst (fst (f (world st)))))).
Proof.
  unfold await. destruct (f (world st)) as [[evs r] w]. simpl.
  rewrite dispatch_all_eq. simpl. rewrite <- app_assoc. simpl.
  destruct r; reflexivity.
Qed.

Lemma await_step (a : action) f st :
  events_of [a] = [] ->
  exists r st' evs,
    await a f st = (r, st') /\
    (r = Ret tt \/ exists e, r = Raise e) /\
    run_step st st' (a :: map AEvent evs).
Proof.
  intros Ha. rewrite await_eq.
  assert (He : forall evs, events_of (a :: map AEvent evs) = evs).
  { intros evs. change (a :: map AEvent evs) with ([a] ++ map AEvent evs)%list.
    now rewrite events_of_app, Ha, events_of_map_AEvent. }
  destruct (f (world st)) as [[evs [e|]] w]; simpl;
    eexists _, _, evs; (split; [reflexivity|]);
    (split; [eauto|]); split; cbn [trace handler]; auto;
    now rewrite He.
Qed.

Lemma await_done_step st :
  exists r st' evs,
    await_done st = (r, st') /\
    run_step st st' (AWait :: map AEvent evs) /\
    (r = Ret tt -> done (handler st') = true).
Proof.
  unfold await_done. destruct (done (handler st)) eqn:Hd.
  - eexists _, _, []. split; [reflexivity|]. simpl.
    split; [split; reflexivity | auto].
  - rewrite await_eq.
    destruct (done_wait P (world st)) as [[evs [e|]] w]; simpl.
    + eexists _, _, evs. split; [reflexivity|].
      split; [|discriminate]. split; simpl; auto.
      now rewrite events_of_map_AEvent.
    + destruct (done (handle_events (handler st) evs)) eqn:Hd2.
      * eexists _, _, evs. split; [reflexivity|].
        split; [|auto]. split; simpl; auto.
        now rewrite events_of_map_AEvent.
      * eexists _, _, evs. split; [reflexivity|].
        split; [|discriminate]. split; simpl; auto.
        now rewrite events_of_map_AEvent.
Qed.

Lemma cleanup_repo_step (repo_path : string) st :
  exists st' new,
    AdvancedApp.cleanup_repo repo_path st = (Ret tt, st') /\
    fs_step st st' new.
Proof.
  unfold AdvancedApp.cleanup_repo, bind at 1, get_world.
  destruct (truthy repo_path && os_path_exists P (world st) repo_path).
  - destruct (safe_rmtree_loop_spec P repo_path 3 3 0 st)
      as (b & st' & new & errs & Hrun & Hfs & _).
    exists st', new. split; [|exact Hfs].
    unfold bind, AdvancedApp.safe_rmtree, AdvancedApp.default_retries.
    now rewrite Hrun.
  - exists st, []. split; [reflexivity | apply fs_step_refl].
Qed.

Lemma clone_repo_step (owner repo : string) st :
  exists r st' new,
    AdvancedApp.clone_repo owner repo st = (r, st') /\
    fs_step st st' new /\
    (r = Ret (clone_target P repo) \/ exists e, r = Raise e).
Proof.
  destruct (clone_repo_spec P owner repo st)
    as (st0 & stderr & w2 & r & st' & pre & Hrun & _ & _ & Hh & He & Hcases).
  destruct (os_path_exists P w2 (clone_target P repo)).
  - destruct Hcases as [-> Hrest].
    destruct (contains "checkout failed" (lower stderr));
      destruct Hrest as [_ Ht]; eexists _, _, _;
      (split; [exact Hrun|]); (split; [|left; reflexivity]);
      (split; [exact Ht|]); (split; [exact Hh|]);
      rewrite events_of_app, He; reflexivity.
  - destruct Hcases as (-> & _ & Ht). eexists _, _, _.
    split; [exact Hrun|]. split; [|right; eauto].
    split; [exact Ht|]. split; [exact Hh|].
    rewrite events_of_app, He. reflexivity.
Qed.

(** The [finally] block: [session.destroy()] is always awaited first; when
    it and [client.stop()] return, [cleanup_repo] runs and the block
    returns. *)
Lemma teardown_step (repo_path : string) st :
  exists r st' new,
    AdvancedApp.teardown repo_path st = (r, st') /\
    (r = Ret tt \/ exists e, r = Raise e) /\
    run_step st st' (ADestroy :: new) /\
    (r = Ret tt ->
     exists evs1 evs2 st2 fs,
       new = (map AEvent evs1 ++ AStop :: map AEvent evs2 ++ fs)%list /\
       AdvancedApp.cleanup_repo repo_path st2 = (Ret tt, st') /\
       fs_step st2 st' fs).
Proof.
  unfold AdvancedApp.teardown.
  destruct (await_step ADestroy (session_destroy P) st eq_refl)
    as (r1 & st1 & evs1 & Hrun1 & Hr1 & Hs1).
  unfold bind at 1. rewrite Hrun1.
  destruct Hr1 as [-> | [e ->]].
  2:{ eexists _, _, _. split; [reflexivity|]. split; [right; eauto|].
      split; [exact Hs1 | discriminate]. }
  destruct (await_step AStop (client_stop P) st1 eq_refl)
    as (r2 & st2 & evs2 & Hrun2 & Hr2 & Hs2).
  unfold bind at 1. rewrite Hrun2.
  destruct Hr2 as [-> | [e ->]].
  2:{ exists (Raise e), st2, (map AEvent evs1 ++ AStop :: map AEvent evs2)%list.
      split; [reflexivity|]. split; [right; eauto|].
      split; [|discriminate].
      exact (run_step_trans _ _ _ _ _ Hs1 Hs2). }
  destruct (cleanup_repo_step repo_path st2) as (st3 & fs & Hrun3 & Hs3).
  rewrite Hrun3.
  exists (Ret tt), st3, (map AEvent evs1 ++ AStop :: map AEvent evs2 ++ fs)%list.
  split; [reflexivity|]. split; [left; reflexivity|].
  split.
  - exact (run_step_trans _ _ _ _ _ Hs1
             (run_step_trans _ _ _ _ _ Hs2 (fs_step_run_step _ _ _ Hs3))).
  - intros _. exists evs1, evs2, st2, fs. split; [reflexivity|].
    split; [exact Hrun3 | exact Hs3].
Qed.

Lemma send_and_wait_step (prompt : string) st :
  exists r st' new,
    send_and_wait P prompt st = (r, st') /\
    run_step st st' (ASend prompt :: new) /\
    (r = Ret tt -> done (handler st') = true).
Proof.
  unfold send_and_wait.
  destruct (await_step (ASend prompt) (fun w => session_send P w prompt) st eq_refl)
    as (r1 & st1 & evs1 & Hrun1 & Hr1 & Hs1).
  unfold bind. rewrite Hrun1.
  destruct Hr1 as [-> | [e ->]].
  - destruct (await_done_step st1) as (r2 & st2 & evs2 & Hrun2 & Hs2 & Hd).
    rewrite Hrun2.
    exists r2, st2, (map AEvent evs1 ++ AWait :: map AEvent evs2)%list.
    split; [reflexivity|]. split; [|exact Hd].
    exact (run_step_trans _ _ _ _ _ Hs1 Hs2).
  - exists (Raise e), st1, (map AEvent evs1). split; [reflexivity|].
    split; [exact Hs1 | discriminate].
Qed.

Lemma advanced_run_cases (url kind : string) st r st' :
  AdvancedApp.analyze_github_repo url kind st = (r, st') ->
  advanced_run P url st r st'.
Proof.
  unfold AdvancedApp.analyze_github_repo.
  destruct (parse_github_url url) as [[owner|] [repo|]] eqn:Hparse;
    try (intros H; inversion H; subst; apply RunInvalid).
  destruct (negb (truthy owner) || negb (truthy repo));
    [intros H; inversion H; subst; apply RunInvalid|].
  destruct (clone_repo_step owner repo st) as (rc & st1 & new1 & Hc & Hfs1 & Hrc).
  unfold bind at 1, try_except at 1, bind at 1. rewrite Hc.
  destruct Hrc as [-> | [e ->]].
  2:{ unfold ret. intros H. inversion H; subst.
      eapply RunCloneFailed; eauto. }
  unfold ret at 1. cbv beta iota.
  set (prompt := get_default kind (AdvancedApp.prompt_overview _ _ _)
                             (AdvancedApp.analysis_prompts _ _ _)).
  unfold bind at 1, call_exn at 1.
  destruct (client_start P (world st1)) as [[e|] w2].
  { intros H. inversion H; subst. eapply RunNoSession.
    eapply fs_step_trans; [exact Hfs1|]. split; [reflexivity|]. split; reflexivity. }
  unfold bind at 1, call_exn at 1. cbn [world handler trace].
  destruct (client_create_session P w2) as [[e|] w3].
  { intros H. inversion H; subst. eapply RunNoSession.
    eapply fs_step_trans; [exact Hfs1|].
    instantiate (1 := [AClientStart; ACreateSession]).
    split; [cbn [trace]; now rewrite <- app_assoc|]. split; reflexivity. }
  unfold bind at 1, set_handler at 1. cbn [world handler trace].
  unfold bind at 1, log at 1. cbn [world handler trace].
  set (st_on := State P w3 handler_init _).
  assert (Hon : session_opened P st st_on).
  { destruct Hfs1 as (Ht1 & _ & He1). exists new1. subst st_on. cbn [trace handler].
    rewrite Ht1, <- !app_assoc. auto. }
  destruct (send_and_wait_step prompt st_on) as (rb & st_b & newb & Hb & Hsb & _).
  unfold bind at 1, try_finally at 1. fold (send_and_wait P prompt). rewrite Hb.
  destruct (teardown_step (clone_target P repo) st_b)
    as (rt & st2 & newt & Ht & Hrt & Hst & _).
  destruct rb as [[]|e|].
  - rewrite Ht. destruct Hrt as [-> | [e ->]].
    + unfold bind, get_handler, ret. intros H. inversion H; subst.
      apply (RunTornDown P url st owner repo st_on prompt (Ret tt) st_b newb
               (Ret tt) st' newt); auto; discriminate.
    + intros H. inversion H; subst.
      apply (RunTornDown P url st owner repo st_on prompt (Ret tt) st_b newb
               (Raise e) st' newt); auto; discriminate.
  - rewrite Ht. destruct Hrt as [-> | [e' ->]]; intros H; inversion H; subst.
    + apply (RunTornDown P url st owner repo st_on prompt (Raise e) st_b newb
               (Ret tt) st' newt); auto; discriminate.
    + apply (RunTornDown P url st owner repo st_on prompt (Raise e) st_b newb
               (Raise e') st' newt); auto; discriminate.
  - intros H. inversion H; subst. eapply RunStalled; eauto.
Qed.

Lemma close_session_step st :
  exists r st' new,
    close_session P st = (r, st') /\
    (r = Ret tt \/ exists e, r = Raise e) /\
    run_step st st' (ADestroy :: new).
Proof.
  unfold close_session.
  destruct (await_step ADestroy (session_destroy P) st eq_refl)
    as (r1 & st1 & evs1 & Hrun1 & Hr1 & Hs1).
  unfold bind. rewrite Hrun1.
  destruct Hr1 as [-> | [e ->]].
  - destruct (await_step AStop (client_stop P) st1 eq_refl)
      as (r2 & st2 & evs2 & Hrun2 & Hr2 & Hs2).
    rewrite Hrun2.
    exists r2, st2, (map AEvent evs1 ++ AStop :: map AEvent evs2)%list.
    split; [reflexivity|]. split; [exact Hr2|].
    exact (run_step_trans _ _ _ _ _ Hs1 Hs2).
  - exists (Raise e), st1, (map AEvent evs1).
    split; [reflexivity|]. split; [right; eauto | exact Hs1].
Qed.

Lemma basic_run_cases (url kind : string) st r st' :
  App.analyze_github_repo url kind st = (r, st') ->
  basic_run P url st r st'.
Proof.
  unfold App.analyze_github_repo.
  destruct (parse_github_url url) as [[owner|] [repo|]] eqn:Hparse;
    try (intros H; inversion H; subst; apply BasicInvalid).
  destruct (negb (truthy owner) || negb (truthy repo));
    [intros H; inversion H; subst; apply BasicInvalid|].
  set (prompt := get_default kind (App.prompt_overview _ _)
                             (App.analysis_prompts _ _)).
  unfold bind at 1, call_exn at 1.
  destruct (client_start P (world st)) as [[e|] w2].
  { intros H. inversion H; subst. eapply BasicNoSession.
    split; [reflexivity|]. split; reflexivity. }
  unfold bind at 1, call_exn at 1. cbn [world handler trace].
  destruct (client_create_session P w2) as [[e|] w3].
  { intros H. inversion H; subst. eapply BasicNoSession.
    instantiate (1 := [AClientStart; ACreateSession]).
    split; [cbn [trace]; now rewrite <- app_assoc|]. split; reflexivity. }
  unfold bind at 1, set_handler at 1. cbn [world handler trace].
  unfold bind at 1, log at 1. cbn [world handler trace].
  set (st_on := State P w3 handler_init _).
  assert (Hon : session_opened P st st_on).
  { exists []. subst st_on. cbn [trace handler app].
    rewrite <- !app_assoc. auto. }
  destruct (send_and_wait_step prompt st_on) as (rb & st_b & newb & Hb & Hsb & _).
  assert (Hsplit : forall k : M P payload,
             (await (ASend prompt) (fun w => session_send P w prompt) ;;
              await_done ;; k) st_on
             = (send_and_wait P prompt ;; k) st_on).
  { intros k. unfold send_and_wait, bind.
    destruct (await (ASend prompt) _ st_on) as [[[]|e|] s1]; reflexivity. }
  rewrite Hsplit. unfold bind at 1. rewrite Hb.
  destruct rb as [[]|e|].
  - destruct (close_session_step st_b) as (rt & st2 & newt & Ht & Hrt & Hst).
    assert (Hsplit2 : forall k : M P payload,
               (await ADestroy (session_destroy P) ;;
                await AStop (client_stop P) ;; k) st_b
               = (close_session P ;; k) st_b).
    { intros k. unfold close_session, bind.
      destruct (await ADestroy _ st_b) as [[[]|e|] s1]; reflexivity. }
    rewrite Hsplit2. unfold bind at 1. rewrite Ht.
    destruct Hrt as [-> | [e ->]].
    + unfold bind, get_handler, ret. intros H. inversion H; subst.
      apply (BasicClosed P url st owner repo st_on prompt st_b newb
               (Ret tt) st' newt); auto.
    + intros H. inversion H; subst.
      apply (BasicClosed P url st owner repo st_on prompt st_b newb
               (Raise e) st' newt); auto.
  - intros H. inversion H; subst. eapply BasicLeftOpen; eauto.
  - intros H. inversion H; subst. eapply BasicStalled; eauto.
Qed.

End Orchestrator.

(** ** The result aggregator *)

Lemma finally_outcome_ret {A : Type} (body : outcome A) (final : outcome unit) (a : A) :
  finally_outcome body final = Ret a -> body = Ret a /\ final = Ret tt.
Proof.
  destruct final as [[]|e|]; simpl; intros H; auto; discriminate.
Qed.

(** [PyStr.join] is the join of the Standard Library. *)
Lemma join_concat (sep : string) (l : list string) :
  join sep l = String.concat sep l.
Proof.
  induction l as [|x l IH]; [reflexivity|].
  destruct l as [|y l]; [reflexivity|].
  cbn [join String.concat] in *. now rewrite IH.
Qed.

(** C6: when a run of [analyze_github_repo] (either variant) returns the
    result of a session -- the payload that carries [owner] and [repo] --
    its [response] is the final-message fragments received during the run,
    in arrival order, joined by newlines ([String.concat] is the join of
    the Standard Library); when no final message was received it is the
    placeholder text. *)
Theorem response_joins_fragments (P : Platform) (url kind : string)
    (st st' : state P) (pl : payload) :
  AdvancedApp.analyze_github_repo url kind st = (Ret pl, st') \/
  App.analyze_github_repo url kind st = (Ret pl, st') ->
  has_key "owner" pl = true ->
  exists new,
    trace st' = (trace st ++ new)%list /\
    lookup "response" pl
    = Some (JStr (match fragments (events_of new) with
                  | [] => "No response received."
                  | fr => String.concat nl fr
                  end)).
Proof.
  intros Hrun Hkey.
  assert (Hgoal : forall st_on st_b prompt newb newt owner repo,
             session_opened P st st_on ->
             run_step st_on st_b (ASend prompt :: newb) ->
             run_step st_b st' (ADestroy :: newt) ->
             pl = success_payload owner repo (handler st') ->
             exists new,
               trace st' = (trace st ++ new)%list /\
               lookup "response" pl
               = Some (JStr (match fragments (events_of new) with
                             | [] => "No response received."
                             | fr => String.concat nl fr
                             end))).
  { intros st_on st_b prompt newb newt owner repo
           (pre & Hton & Hpre & Hhon) (Htb & Hhb) (Ht' & Hh') ->.
    exists (pre ++ [AClientStart; ACreateSession; ASessionOn]
              ++ (ASend prompt :: newb) ++ (ADestroy :: newt))%list.
    split.
    - rewrite Ht', Htb, Hton. now rewrite <- !app_assoc.
    - rewrite !events_of_app, Hpre. cbn [events_of app].
      change (lookup "response" (success_payload owner repo (handler st')))
        with (Some (JStr (response_text (response_content (handler st'))))).
      rewrite Hh', Hhb, Hhon. cbn [events_of].
      rewrite <- handle_events_app, handle_events_content.
      cbn [handler_init response_content app].
      unfold response_text, no_response_message.
      destruct (fragments _) eqn:E; [reflexivity|].
      now rewrite join_concat. }
  destruct Hrun as [Hrun | Hrun].
  - apply advanced_run_cases in Hrun.
    inversion Hrun; subst; try discriminate.
    match goal with H : finally_outcome _ _ = Ret _ |- _ =>
      apply finally_outcome_ret in H; destruct H as [Hb _] end.
    destruct rb as [[]|e|]; try discriminate.
    injection Hb as Hpl. eapply Hgoal; eauto.
  - apply basic_run_cases in Hrun.
    inversion Hrun; subst; try discriminate.
    match goal with H : finally_outcome _ _ = Ret _ |- _ =>
      apply finally_outcome_ret in H; destruct H as [Hb _] end.
    injection Hb as Hpl. eapply Hgoal; eauto.
Qed.

(** Three runs on the scripted platform: both variants with two final
    messages among other events, some of them arriving with the send and
    some during the wait, and [app.py] with no final message at all. *)
Lemma response_joins_fragments_witness :
  let talk :=
    Sim.init (Sim.SimWorld [] [] [] true ""
                ([Sim.ev_delta (Some "thinking"); Sim.ev_message "first";
                  Sim.ev_tool_start "read_file" "call-1"], None)
                ([Sim.ev_message "second"; Sim.ev_idle], None)) in
  let mute :=
    Sim.init (Sim.SimWorld [] [] [] true ""
                ([Sim.ev_delta (Some "thinking")], None)
                ([Sim.ev_idle], None)) in
  let log := [MessageDelta "thinking"; ToolStart "read_file" (Some "call-1")] in
  let said := [("response", JStr "first
second");
               ("events", JEvents log);
               ("owner", JStr "acme"); ("repo", JStr "widgets")] in
  let unsaid := [("response", JStr "No response received.");
                 ("events", JEvents [MessageDelta "thinking"]);
                 ("owner", JStr "acme"); ("repo", JStr "widgets")] in
  let adv := AdvancedApp.analyze_github_repo "acme/widgets" "overview" talk in
  let bas := App.analyze_github_repo "https://github.com/acme/widgets" "diagram" talk in
  let non := App.analyze_github_repo "acme/widgets" "structure" mute in
  (fst adv = Ret said /\
   fragments (events_of (trace (snd adv))) = ["first"; "second"] /\
   exists new,
     trace (snd adv) = (trace talk ++ new)%list /\
     lookup "response" said
     = Some (JStr (match fragments (events_of new) with
                   | [] => "No response received."
                   | fr => String.concat nl fr
                   end))) /\
  (fst bas = Ret said /\
   fragments (events_of (trace (snd bas))) = ["first"; "second"] /\
   exists new,
     trace (snd bas) = (trace talk ++ new)%list /\
     lookup "response" said
     = Some (JStr (match fragments (events_of new) with
                   | [] => "No response received."
                   | fr => String.concat nl fr
                   end))) /\
  (fst non = Ret unsaid /\
   fragments (events_of (trace (snd non))) = [] /\
   exists new,
     trace (snd non) = (trace mute ++ new)%list /\
     lookup "response" unsaid
     = Some (JStr (match fragments (events_of new) with
                   | [] => "No response received."
                   | fr => String.concat nl fr
                   end))).
Proof.
  intros talk mute log said unsaid adv bas non.
  split; [|split].
  - split; [vm_compute; reflexivity|]. split; [vm_compute; reflexivity|].
    apply (response_joins_fragments Sim.platform "acme/widgets" "overview" talk).
    + left. vm_compute. reflexivity.
    + reflexivity.
  - split; [vm_compute; reflexivity|]. split; [vm_compute; reflexivity|].
    apply (response_joins_fragments Sim.platform
             "https://github.com/acme/widgets" "diagram" talk).
    + right. vm_compute. reflexivity.
    + reflexivity.
  - split; [vm_compute; reflexivity|]. split; [vm_compute; reflexivity|].
    apply (response_joins_fragments Sim.platform "acme/widgets" "structure" mute).
    + right. vm_compute. reflexivity.
    + reflexivity.
Defined.

Example response_of_two_fragments :
  response_text ["first"; "second"] = "first" ++ nl ++ "second" /\
  response_text [] = "No response received." /\
  response_text [""] = "".
Proof. repeat split. Qed.

(** ** The URL parser *)

Section Strings.

Lemma append_nil_r (s : string) : s ++ "" = s.
Proof. induction s; simpl; congruence. Qed.

Lemma append_assoc (a b c : string) : (a ++ b) ++ c = a ++ b ++ c.
Proof. induction a; simpl; congruence. Qed.

Lemma length_append (a b : string) :
  String.length (a ++ b) = String.length a + String.length b.
Proof. induction a; simpl; auto. Qed.

Lemma take_append (a b : string) : take (String.length a) (a ++ b) = a.
Proof. induction a; simpl; [now destruct b | congruence]. Qed.

Lemma strip_prefix_append (w s : string) : strip_prefix w (w ++ s) = Some s.
Proof.
  induction w as [|c w IH]; simpl; [reflexivity|].
  now rewrite Ascii.eqb_refl.
Qed.

Lemma strip_prefix_some (w s r : string) :
  strip_prefix w s = Some r -> s = w ++ r.
Proof.
  revert s. induction w as [|c w IH]; intros s; simpl.
  - congruence.
  - destruct s as [|d s]; [discriminate|].
    destruct (Ascii.eqb c d) eqn:E; [|discriminate].
    apply Ascii.eqb_eq in E. subst d. intros H. now rewrite (IH _ H).
Qed.

Lemma all_in_append (cls : ascii -> bool) (a b : string) :
  all_in cls (a ++ b) = all_in cls a && all_in cls b.
Proof.
  induction a as [|c a IH]; simpl; [reflexivity|].
  now rewrite IH, andb_assoc.
Qed.

Lemma count_slash_append (a b : string) :
  count_slash (a ++ b) = count_slash a + count_slash b.
Proof. induction a as [|c a IH]; simpl; [reflexivity|]. rewrite IH. lia. Qed.

Lemma count_slash_none (s : string) :
  all_in not_slash s = true -> count_slash s = 0.
Proof.
  induction s as [|c s IH]; simpl; [reflexivity|].
  destruct (not_slash c); simpl; [exact IH | discriminate].
Qed.

Lemma before_slash_append (a b : string) :
  all_in not_slash a = true ->
  before_slash (a ++ String slash b) = a.
Proof.
  induction a as [|c a IH]; simpl; [reflexivity|].
  destruct (not_slash c); simpl; [|discriminate].
  intros H. now rewrite IH.
Qed.

Lemma last_char_append (a b : string) :
  b <> "" -> last_char (a ++ b) = last_char b.
Proof.
  intros Hb. induction a as [|c a IH]; simpl; [reflexivity|].
  destruct (a ++ b) eqn:E; [|exact IH].
  destruct a; [simpl in E; congruence | discriminate].
Qed.

Lemma last_char_rstrip (s : string) (c : ascii) :
  last_char (rstrip s) = Some c -> isspace c = false.
Proof.
  induction s as [|d s IH]; simpl; [discriminate|].
  destruct (rstrip s) as [|e r] eqn:E.
  - destruct (isspace d) eqn:Hd; simpl; [discriminate|].
    intros H. injection H as <-. exact Hd.
  - simpl. simpl in IH. exact IH.
Qed.

Lemma last_char_strip (s : string) : last_char (strip s) <> Some newline.
Proof.
  intros H. apply last_char_rstrip in H. discriminate.
Qed.

End Strings.

(** *** The matcher *)

Section Matcher.
Variable k : mstate -> option captures.
Variable cls : ascii -> bool.
Variable g : captures.

(** What a match of [cls+] (greedy or lazy) looks like. *)
Lemma plus_loop_sound (greedy : bool) (s : string) :
  forall (p : nat) (m : captures),
    plus_loop k greedy cls g p s = Some m ->
    exists pre suf,
      s = pre ++ suf /\ pre <> "" /\ all_in cls pre = true /\
      k (MState (p + String.length pre) suf g) = Some m.
Proof.
  induction s as [|c s IH]; intros p m; simpl; [discriminate|].
  destruct (cls c) eqn:Hc; [|discriminate].
  assert (Hone : k (MState (S p) s g) = Some m ->
                 exists pre suf,
                   String c s = pre ++ suf /\ pre <> "" /\
                   all_in cls pre = true /\
                   k (MState (p + String.length pre) suf g) = Some m).
  { intros Hk. exists (String c ""), s. simpl. rewrite Hc.
    replace (p + 1) with (S p) by lia. repeat split; auto; discriminate. }
  assert (Hmore : plus_loop k greedy cls g (S p) s = Some m ->
                  exists pre suf,
                    String c s = pre ++ suf /\ pre <> "" /\
                    all_in cls pre = true /\
                    k (MState (p + String.length pre) suf g) = Some m).
  { intros Hl. destruct (IH _ _ Hl) as (pre & suf & -> & Hne & Hall & Hk).
    exists (String c pre), suf. simpl. rewrite Hc, Hall.
    replace (p + S (String.length pre)) with (S p + String.length pre) by lia.
    repeat split; auto; discriminate. }
  destruct greedy.
  - destruct (plus_loop k true cls g (S p) s) eqn:Hl.
    + intros H. injection H as <-. now apply Hmore.
    + exact Hone.
  - destruct (k (MState (S p) s g)) eqn:Hk.
    + intros H. injection H as <-. now apply Hone.
    + exact Hmore.
Qed.

Lemma plus_loop_stops (greedy : bool) (p : nat) (s : string) :
  stops cls s -> plus_loop k greedy cls g p s = None.
Proof. destruct s as [|c s]; simpl; [reflexivity|]. now intros ->. Qed.

(** A greedy [cls+] takes the whole run when the rest matches there. *)
Lemma plus_greedy_longest (pre suf : string) :
  forall (p : nat) (m : captures),
    pre <> "" -> all_in cls pre = true -> stops cls suf ->
    k (MState (p + String.length pre) suf g) = Some m ->
    plus_loop k true cls g p (pre ++ suf) = Some m.
Proof.
  induction pre as [|c pre IH]; intros p m Hne Hall Hstop Hk; [congruence|].
  simpl in Hall. apply andb_prop in Hall. destruct Hall as [Hc Hall].
  simpl. rewrite Hc.
  destruct pre as [|d pre].
  - simpl. rewrite plus_loop_stops by exact Hstop. same_pos Hk.
  - rewrite (IH (S p) m); auto; [discriminate|]. same_pos Hk.
Qed.

(** A lazy [cls+?] takes the shortest prefix after which the rest
    matches. *)
Lemma plus_lazy_shortest (pre suf : string) :
  forall (p : nat) (m : captures),
    pre <> "" -> all_in cls pre = true ->
    k (MState (p + String.length pre) suf g) = Some m ->
    (forall a b, pre = a ++ b -> a <> "" -> b <> "" ->
                 k (MState (p + String.length a) (b ++ suf) g) = None) ->
    plus_loop k false cls g p (pre ++ suf) = Some m.
Proof.
  induction pre as [|c pre IH]; intros p m Hne Hall Hk Hmin; [congruence|].
  simpl in Hall. apply andb_prop in Hall. destruct Hall as [Hc Hall].
  simpl. rewrite Hc.
  destruct pre as [|d pre].
  - simpl. replace (k (MState (S p) suf g)) with (Some m); [reflexivity|].
    same_pos Hk.
  - replace (k (MState (S p) (String d pre ++ suf) g)) with (@None captures).
    + apply IH; auto; [discriminate| |].
      * same_pos Hk.
      * intros a b Hab Ha Hb.
        rewrite <- (Hmin (String c a) b); auto; [|simpl; now rewrite Hab|discriminate].
        do 2 f_equal. simpl. lia.
    + rewrite <- (Hmin (String c "") (String d pre)); auto; try discriminate.
      do 2 f_equal. simpl. lia.
Qed.

End Matcher.

Section Search.
Variable r : regex.

Lemma search_from_sound (s : string) :
  forall (p : nat) (m : captures),
    search_from r p s = Some m ->
    exists pre suf, s = pre ++ suf /\ match_at r (p + String.length pre) suf = Some m.
Proof.
  induction s as [|c s IH]; intros p m; simpl.
  - destruct (match_at r p "") eqn:E; [|discriminate].
    intros H. injection H as <-. exists "", "". split; [reflexivity|].
    rewrite <- E. f_equal. simpl. lia.
  - destruct (match_at r p (String c s)) eqn:E.
    + intros H. injection H as <-. exists "", (String c s).
      split; [reflexivity|]. rewrite <- E. f_equal. simpl. lia.
    + intros H. destruct (IH _ _ H) as (pre & suf & -> & Hm).
      exists (String c pre), suf. split; [reflexivity|].
      rewrite <- Hm. f_equal. simpl. lia.
Qed.

(** [search] returns the match at the leftmost position that has one. *)
Lemma search_from_leftmost (pre suf : string) :
  forall (p : nat) (m : captures),
    match_at r (p + String.length pre) suf = Some m ->
    (forall a b, pre = a ++ b -> b <> "" ->
                 match_at r (p + String.length a) (b ++ suf) = None) ->
    search_from r p (pre ++ suf) = Some m.
Proof.
  induction pre as [|c pre IH]; intros p m Hm Hnone.
  - simpl in *. replace (p + 0) with p in Hm by lia.
    destruct suf; simpl; now rewrite Hm.
  - simpl.
    replace (match_at r p (String c (pre ++ suf))) with (@None captures).
    + apply IH.
      * rewrite <- Hm. f_equal. simpl. lia.
      * intros a b Hab Hb.
        rewrite <- (Hnone (String c a) b); auto; [|simpl; now rewrite Hab].
        f_equal. simpl. lia.
    + rewrite <- (Hnone "" (String c pre)); auto; [|discriminate].
      f_equal. simpl. lia.
Qed.

Lemma search_from_none (s : string) :
  forall (p : nat),
    (forall pre suf, s = pre ++ suf -> match_at r (p + String.length pre) suf = None) ->
    search_from r p s = None.
Proof.
  intros p Hnone. destruct (search_from r p s) as [m|] eqn:E; [|reflexivity].
  destruct (search_from_sound _ _ _ E) as (pre & suf & Hs & Hm).
  rewrite (Hnone _ _ Hs) in Hm. discriminate.
Qed.

End Search.

(** *** The two patterns *)

Section Patterns.

Lemma tail_exec (p : nat) (s : string) (g : captures) :
  exec tail_pattern (MState p s g) (fun st => Some (groups st))
  = if tail_ok s then Some g else None.
Proof.
  unfold tail_pattern, tail_ok, opt_slash_eol. cbn [exec rest groups pos].
  repeat match goal with
         | |- context [strip_prefix ?w ?x] =>
             destruct (strip_prefix w x); cbn [rest groups pos]
         end;
    repeat match goal with
           | |- context [at_eol ?x] => destruct (at_eol x)
           end;
    reflexivity.
Qed.

Lemma tail_ok_suffix (dotgit trailing : bool) :
  tail_ok (url_suffix dotgit trailing) = true.
Proof. now destruct dotgit, trailing. Qed.

Lemma at_eol_inv (s : string) :
  at_eol s = true -> last_char s <> Some newline -> s = "".
Proof.
  destruct s as [|c [|d s]]; simpl; try discriminate; [reflexivity|].
  intros H. apply Ascii.eqb_eq in H. subst c. congruence.
Qed.

Lemma opt_slash_eol_inv (s : string) :
  opt_slash_eol s = true -> last_char s <> Some newline ->
  s = "" \/ s = "/".
Proof.
  unfold opt_slash_eol. intros H Hl. apply orb_prop in H. destruct H as [H|H].
  - destruct (strip_prefix "/" s) as [r|] eqn:E; [|discriminate].
    apply strip_prefix_some in E. subst s.
    destruct r as [|c r]; [now right|].
    assert (Hr : String c r = "").
    { apply at_eol_inv; [exact H|].
      rewrite last_char_append in Hl by discriminate. exact Hl. }
    discriminate.
  - left. now apply at_eol_inv.
Qed.

Lemma tail_ok_inv (s : string) :
  tail_ok s = true -> last_char s <> Some newline ->
  exists dotgit trailing, s = url_suffix dotgit trailing.
Proof.
  unfold tail_ok. intros H Hl. apply orb_prop in H. destruct H as [H|H].
  - destruct (strip_prefix ".git" s) as [r|] eqn:E; [|discriminate].
    apply strip_prefix_some in E. subst s.
    destruct r as [|c r]; [now exists true, false|].
    rewrite last_char_append in Hl by discriminate.
    destruct (opt_slash_eol_inv _ H Hl) as [->| ->];
      [now exists true, false | now exists true, true].
  - destruct (opt_slash_eol_inv _ H Hl) as [->| ->];
      [now exists false, false | now exists false, true].
Qed.

End Patterns.

Section UrlPattern.

Lemma pattern_url_tail : pattern_url =
  Cat (Lit "github.com/")
 (Cat (Grp 1 (Plus true not_slash))
 (Cat (Lit "/")
 (Cat (Grp 2 (Plus false not_slash)) tail_pattern))).
Proof. reflexivity. Qed.

Lemma match_at_url (p : nat) (s : string) :
  match_at pattern_url p s
  = match strip_prefix "github.com/" s with
    | Some s1 => plus_loop (after_owner (p + 11) s1) true not_slash [] (p + 11) s1
    | None => None
    end.
Proof.
  unfold match_at. rewrite pattern_url_tail. cbn [exec rest pos groups].
  destruct (strip_prefix "github.com/" s); reflexivity.
Qed.

Lemma after_owner_eq (p : nat) (s1 : string) (q : nat) (s : string) (g : captures) :
  after_owner p s1 (MState q s g)
  = match strip_prefix "/" s with
    | Some s2 =>
        plus_loop (after_name (q + 1) s2) false not_slash
                  ((1, take (q - p) s1) :: g) (q + 1) s2
    | None => None
    end.
Proof.
  unfold after_owner. cbn [exec rest pos groups].
  destruct (strip_prefix "/" s); reflexivity.
Qed.

Lemma after_name_eq (p : nat) (s2 : string) (q : nat) (s : string) (g : captures) :
  after_name p s2 (MState q s g)
  = if tail_ok s then Some ((2, take (q - p) s2) :: g) else None.
Proof. unfold after_name. cbn [rest pos groups]. apply tail_exec. Qed.

(** A match of [pattern_url] at a position reads the host, an owner, a
    slash, a name and one of the endings, and captures the owner and the
    name. *)
Lemma match_url_sound (p : nat) (s : string) (m : captures) :
  match_at pattern_url p s = Some m ->
  exists o n sfx,
    s = "github.com/" ++ o ++ "/" ++ n ++ sfx /\
    name_ok o /\ name_ok n /\ tail_ok sfx = true /\
    m = [(2, n); (1, o)].
Proof.
  rewrite match_at_url.
  destruct (strip_prefix "github.com/" s) as [s1|] eqn:E1; [|discriminate].
  apply strip_prefix_some in E1. intros H.
  apply plus_loop_sound in H.
  destruct H as (o & suf & Hs1 & Ho & Hoall & H).
  rewrite after_owner_eq in H.
  destruct (strip_prefix "/" suf) as [s2|] eqn:E2; [|discriminate].
  apply strip_prefix_some in E2.
  apply plus_loop_sound in H.
  destruct H as (n & sfx & Hs2 & Hn & Hnall & H).
  rewrite after_name_eq in H.
  destruct (tail_ok sfx) eqn:Ht; [|discriminate].
  injection H as <-.
  exists o, n, sfx. subst s s1 suf s2.
  repeat split; auto.
  replace (p + 11 + String.length o + 1 + String.length n
           - (p + 11 + String.length o + 1)) with (String.length n) by lia.
  replace (p + 11 + String.length o - (p + 11)) with (String.length o) by lia.
  now rewrite !take_append.
Qed.

Lemma match_url_complete (p : nat) (o n sfx : string) :
  name_ok o -> name_ok n -> tail_ok sfx = true ->
  (forall a b, n = a ++ b -> a <> "" -> b <> "" -> tail_ok (b ++ sfx) = false) ->
  match_at pattern_url p ("github.com/" ++ o ++ "/" ++ n ++ sfx)
  = Some [(2, n); (1, o)].
Proof.
  intros [Ho Hoall] [Hn Hnall] Ht Hmin.
  rewrite match_at_url, strip_prefix_append.
  apply plus_greedy_longest; auto; [reflexivity|].
  rewrite after_owner_eq.
  change ("/" ++ n ++ sfx) with ("/" ++ (n ++ sfx)).
  rewrite strip_prefix_append.
  replace (p + 11 + String.length o - (p + 11)) with (String.length o) by lia.
  rewrite take_append.
  apply plus_lazy_shortest; auto.
  - rewrite after_name_eq, Ht.
    replace (p + 11 + String.length o + 1 + String.length n
             - (p + 11 + String.length o + 1)) with (String.length n) by lia.
    now rewrite take_append.
  - intros a b Hab Ha Hb. rewrite after_name_eq.
    now rewrite (Hmin a b Hab Ha Hb).
Qed.

End UrlPattern.

Section ShortPattern.

Lemma take_append_len (a b : string) (k : nat) :
  k = String.length a -> take k (a ++ b) = a.
Proof. intros ->. apply take_append. Qed.

Lemma take_full (a : string) (k : nat) : k = String.length a -> take k a = a.
Proof.
  intros Hk. rewrite <- (append_nil_r a) at 1. now apply take_append_len.
Qed.

Lemma match_at_short (p : nat) (s : string) :
  match_at pattern_short p s
  = if (p =? 0)%nat
    then plus_loop (short_after_owner p s) true not_slash [] p s
    else None.
Proof. reflexivity. Qed.

Lemma short_after_owner_eq (p : nat) (s1 : string) (q : nat) (s : string)
    (g : captures) :
  short_after_owner p s1 (MState q s g)
  = match strip_prefix "/" s with
    | Some s2 =>
        plus_loop (short_after_name (q + 1) s2) true not_slash
                  ((1, take (q - p) s1) :: g) (q + 1) s2
    | None => None
    end.
Proof.
  unfold short_after_owner. cbn [exec rest pos groups].
  destruct (strip_prefix "/" s); reflexivity.
Qed.

Lemma short_after_name_eq (p : nat) (s2 : string) (q : nat) (s : string)
    (g : captures) :
  short_after_name p s2 (MState q s g)
  = if at_eol s then Some ((2, take (q - p) s2) :: g) else None.
Proof. reflexivity. Qed.

Lemma match_short_sound (p : nat) (s : string) (m : captures) :
  match_at pattern_short p s = Some m ->
  p = 0 /\
  exists o n e,
    s = o ++ "/" ++ n ++ e /\
    name_ok o /\ name_ok n /\ at_eol e = true /\
    m = [(2, n); (1, o)].
Proof.
  rewrite match_at_short.
  destruct (p =? 0)%nat eqn:Hp; [|discriminate].
  apply Nat.eqb_eq in Hp. subst p. intros H. split; [reflexivity|].
  apply plus_loop_sound in H.
  destruct H as (o & suf & Hs & Ho & Hoall & H).
  rewrite short_after_owner_eq in H.
  destruct (strip_prefix "/" suf) as [s2|] eqn:E2; [|discriminate].
  apply strip_prefix_some in E2.
  apply plus_loop_sound in H.
  destruct H as (n & e & Hs2 & Hn & Hnall & H).
  rewrite short_after_name_eq in H.
  destruct (at_eol e) eqn:He; [|discriminate].
  injection H as <-.
  exists o, n, e. subst s suf s2.
  repeat split; auto.
  now rewrite !take_append_len by lia.
Qed.

Lemma match_short_complete (o n : string) :
  name_ok o -> name_ok n ->
  match_at pattern_short 0 (o ++ "/" ++ n) = Some [(2, n); (1, o)].
Proof.
  intros [Ho Hoall] [Hn Hnall].
  rewrite match_at_short. cbn [Nat.eqb].
  apply plus_greedy_longest; auto; [reflexivity|].
  rewrite short_after_owner_eq, strip_prefix_append.
  rewrite take_append_len by lia.
  match goal with
  | |- plus_loop ?k true ?c ?g ?p n = Some ?m =>
      generalize (plus_greedy_longest k c g n "" p m)
  end.
  rewrite append_nil_r. intros H. apply H; auto; [exact I|].
  rewrite short_after_name_eq. cbn [at_eol].
  now rewrite take_full by lia.
Qed.

End ShortPattern.

(** *** The parser *)

Section Parser.

Lemma count_slash_suffix (dotgit trailing : bool) :
  count_slash (url_suffix dotgit trailing) = if trailing then 1 else 0.
Proof. now destruct dotgit, trailing. Qed.

Lemma count_slash_zero (s : string) :
  count_slash s = 0 -> all_in not_slash s = true.
Proof.
  induction s as [|c s IH]; simpl; [reflexivity|].
  destruct (not_slash c); simpl; [exact IH | discriminate].
Qed.

Lemma last_char_name (s : string) :
  name_ok s -> exists c, last_char s = Some c /\ not_slash c = true.
Proof.
  intros [Hne Hall]. induction s as [|c s IH]; [congruence|].
  simpl in Hall. apply andb_prop in Hall. destruct Hall as [Hc Hall].
  destruct s as [|d s].
  - exists c. now split.
  - destruct IH as (e & He & Hns); [discriminate | exact Hall |].
    exists e. split; [exact He | exact Hns].
Qed.

(** The last character of a name followed by an ending without a trailing
    slash is not a slash. *)
Lemma last_char_name_suffix (n : string) (dotgit : bool) :
  name_ok n -> last_char (n ++ url_suffix dotgit false) <> Some slash.
Proof.
  intros Hn. destruct dotgit.
  - rewrite last_char_append by discriminate. discriminate.
  - unfold url_suffix. simpl. rewrite append_nil_r.
    destruct (last_char_name n Hn) as (c & -> & Hc).
    intros H. injection H as ->. discriminate.
Qed.

(** A proper end [b] of the name cannot be taken for the ending: the lazy
    group reads the whole name. *)
Lemma name_end_not_suffix (b : string) (dotgit trailing : bool) :
  b <> "" -> all_in not_slash b = true ->
  last_char (b ++ url_suffix dotgit trailing) <> Some newline ->
  tail_ok (b ++ url_suffix dotgit trailing) = true ->
  dotgit = false /\ b = ".git".
Proof.
  intros Hne Hall Hl Ht.
  destruct (tail_ok_inv _ Ht Hl) as (dg & tr & H).
  clear Ht Hl.
  destruct dotgit, trailing, dg, tr; unfold url_suffix in H; simpl in H;
    rewrite ?append_nil_r in H;
    repeat (destruct b as [|? b];
            [ simpl in H; try discriminate H; try congruence
            | simpl in H;
              first [ discriminate H
                    | injection H as ? H; subst; simpl in Hall;
                      try discriminate Hall ] ]);
    try (split; reflexivity).
Qed.

Lemma search_url_sound (t : string) (m : captures) :
  last_char t <> Some newline ->
  search pattern_url t = Some m ->
  exists pre o n dotgit trailing,
    t = pre ++ "github.com/" ++ o ++ "/" ++ n ++ url_suffix dotgit trailing /\
    name_ok o /\ name_ok n /\ m = [(2, n); (1, o)].
Proof.
  intros Hl H. unfold search in H.
  apply search_from_sound in H. destruct H as (pre & suf & Ht & H).
  apply match_url_sound in H.
  destruct H as (o & n & sfx & Hsuf & Ho & Hn & Htail & Hm).
  assert (Hsfx : exists dotgit trailing, sfx = url_suffix dotgit trailing).
  { apply tail_ok_inv; [exact Htail|].
    destruct sfx as [|c sfx]; [discriminate|].
    intros Hc. apply Hl. subst t suf.
    rewrite <- !append_assoc. rewrite last_char_append by discriminate.
    exact Hc. }
  destruct Hsfx as (dg & tr & ->).
  exists pre, o, n, dg, tr. subst t suf. auto.
Qed.

Lemma search_short_sound (t : string) (m : captures) :
  last_char t <> Some newline ->
  search pattern_short t = Some m ->
  exists o n,
    t = o ++ "/" ++ n /\ name_ok o /\ name_ok n /\ m = [(2, n); (1, o)].
Proof.
  intros Hl H. unfold search in H.
  apply search_from_sound in H. destruct H as (pre & suf & Ht & H).
  apply match_short_sound in H.
  destruct H as (Hp & o & n & e & Hsuf & Ho & Hn & He & Hm).
  assert (Hpre : pre = "") by (destruct pre; [reflexivity | simpl in Hp; lia]).
  subst pre. simpl in Ht. subst t suf.
  assert (Hemp : e = "").
  { apply at_eol_inv; [exact He|].
    destruct e as [|c e]; [discriminate|].
    intros Hc. apply Hl.
    rewrite <- !append_assoc. rewrite last_char_append by discriminate.
    exact Hc. }
  subst e. rewrite append_nil_r. exists o, n. auto.
Qed.

(** No earlier position of the text matches: what follows an earlier
    [github.com/] has too many slashes. *)
Lemma no_earlier_match (p : nat) (b o n : string) (dotgit trailing : bool) :
  b <> "" -> name_ok o -> name_ok n ->
  last_char (n ++ url_suffix dotgit trailing) <> Some newline ->
  match_at pattern_url p
    (b ++ "github.com/" ++ o ++ "/" ++ n ++ url_suffix dotgit trailing) = None.
Proof.
  intros Hb Ho Hn Hl.
  destruct (match_at pattern_url p _) as [m|] eqn:E; [|reflexivity].
  exfalso. apply match_url_sound in E.
  destruct E as (o' & n' & sfx & Heq & Ho' & Hn' & Htail & _).
  assert (Hlast : last_char (b ++ "github.com/" ++ o ++ "/" ++ n
                               ++ url_suffix dotgit trailing)
                  = last_char (n ++ url_suffix dotgit trailing)).
  { replace (b ++ "github.com/" ++ o ++ "/" ++ n ++ url_suffix dotgit trailing)
      with ((b ++ "github.com/" ++ o ++ "/") ++ n ++ url_suffix dotgit trailing)
      by (now rewrite !append_assoc).
    apply last_char_append. destruct Hn as [Hne _].
    destruct n; [congruence | discriminate]. }
  assert (Hsfx : exists dg tr, sfx = url_suffix dg tr).
  { apply tail_ok_inv; [exact Htail|].
    destruct sfx as [|c sfx]; [discriminate|].
    intros Hc. apply Hl. rewrite <- Hlast, Heq.
    rewrite <- !append_assoc. rewrite last_char_append by discriminate.
    exact Hc. }
  destruct Hsfx as (dg & tr & ->).
  pose proof (f_equal count_slash Heq) as Hcount.
  rewrite !count_slash_append, !count_slash_suffix in Hcount.
  rewrite (count_slash_none o), (count_slash_none n),
    (count_slash_none o'), (count_slash_none n') in Hcount
    by (apply Ho || apply Hn || apply Ho' || apply Hn').
  simpl in Hcount.
  destruct (count_slash b) as [|k] eqn:Hcb.
  - (* no slash in [b]: the first slash is at two different places *)
    apply count_slash_zero in Hcb.
    pose proof (f_equal before_slash Heq) as Hbs.
    change ("github.com/" ++ o' ++ "/" ++ n' ++ url_suffix dg tr)
      with ("github.com" ++ String slash (o' ++ "/" ++ n' ++ url_suffix dg tr))
      in Hbs.
    replace (b ++ "github.com/" ++ o ++ "/" ++ n ++ url_suffix dotgit trailing)
      with ((b ++ "github.com")
              ++ String slash (o ++ "/" ++ n ++ url_suffix dotgit trailing))
      in Hbs by (now rewrite append_assoc).
    rewrite !before_slash_append in Hbs
      by (rewrite ?all_in_append, ?Hcb; reflexivity).
    apply (f_equal String.length) in Hbs. rewrite length_append in Hbs.
    destruct b; [congruence | simpl in Hbs; lia].
  - (* a slash in [b]: the texts end differently *)
    assert (tr = true) by (destruct tr, trailing; simpl in Hcount; lia || reflexivity).
    assert (trailing = false) by (destruct trailing; [subst; simpl in Hcount; lia | reflexivity]).
    subst tr trailing.
    apply (last_char_name_suffix n dotgit Hn).
    rewrite <- Hlast, Heq.
    rewrite <- !append_assoc. rewrite last_char_append by (destruct dg; discriminate).
    now destruct dg.
Qed.

Lemma search_url_found (pre o n : string) (dotgit trailing : bool) :
  let t := pre ++ "github.com/" ++ o ++ "/" ++ n ++ url_suffix dotgit trailing in
  last_char t <> Some newline ->
  name_ok o -> name_ok n ->
  (dotgit = false -> forall a, a <> "" -> n <> a ++ ".git") ->
  search pattern_url t = Some [(2, n); (1, o)].
Proof.
  intros t Hl Ho Hn Hgit.
  assert (Hlast : forall a b, n = a ++ b -> b <> "" ->
             last_char (b ++ url_suffix dotgit trailing) <> Some newline).
  { intros a b Hab Hb Hc. apply Hl. subst t n.
    replace (pre ++ "github.com/" ++ o ++ "/" ++ (a ++ b) ++ url_suffix dotgit trailing)
      with ((pre ++ "github.com/" ++ o ++ "/" ++ a) ++ b ++ url_suffix dotgit trailing)
      by (now rewrite !append_assoc).
    rewrite last_char_append; [exact Hc|].
    destruct b; [congruence | discriminate]. }
  unfold search. apply search_from_leftmost.
  - apply match_url_complete; auto; [apply tail_ok_suffix|].
    intros a b Hab Ha Hb.
    destruct (tail_ok (b ++ url_suffix dotgit trailing)) eqn:Ht; [|reflexivity].
    exfalso.
    assert (Hball : all_in not_slash b = true).
    { destruct Hn as [_ Hall]. rewrite Hab, all_in_append in Hall.
      now apply andb_prop in Hall. }
    destruct (name_end_not_suffix b dotgit trailing Hb Hball (Hlast a b Hab Hb) Ht)
      as [Hdg ->].
    exact (Hgit Hdg a Ha Hab).
  - intros a b Hab Hb. apply no_earlier_match; auto.
    apply (Hlast "" n); [reflexivity|]. now destruct Hn.
Qed.

Lemma search_url_short_none (o n : string) :
  name_ok o -> name_ok n -> search pattern_url (o ++ "/" ++ n) = None.
Proof.
  intros Ho Hn. unfold search. apply search_from_none.
  intros pre suf Heq.
  destruct (match_at pattern_url _ suf) as [m|] eqn:E; [|reflexivity].
  exfalso. apply match_url_sound in E.
  destruct E as (o' & n' & sfx & -> & Ho' & Hn' & _).
  apply (f_equal count_slash) in Heq.
  rewrite !count_slash_append in Heq.
  rewrite (count_slash_none o), (count_slash_none n),
    (count_slash_none o'), (count_slash_none n') in Heq
    by (apply Ho || apply Hn || apply Ho' || apply Hn').
  simpl in Heq. lia.
Qed.

Lemma search_short_found (o n : string) :
  name_ok o -> name_ok n ->
  search pattern_short (o ++ "/" ++ n) = Some [(2, n); (1, o)].
Proof.
  intros Ho Hn. unfold search.
  pose proof (match_short_complete o n Ho Hn) as H.
  remember (o ++ "/" ++ n) as t eqn:Et. clear Et.
  destruct t; cbn [search_from]; now rewrite H.
Qed.

End Parser.

Example parse_ex1 :
  parse_github_url "https://github.com/acme/widgets.git/" = (Some "acme", Some "widgets").
Proof. reflexivity. Qed.

Example parse_ex2 : parse_github_url "not a url" = (None, None).
Proof. reflexivity. Qed.

(** C3, as stated, fails: the shorthand keeps a [.git] suffix in the name
    and does not accept a trailing slash, and a host other than
    [github.com] is not accepted. *)
Lemma shorthand_keeps_suffix :
  parse_github_url "acme/widgets.git" = (Some "acme", Some "widgets.git") /\
  parse_github_url "acme/widgets/" = (None, None) /\
  parse_github_url "https://gitlab.com/acme/widgets" = (None, None).
Proof. repeat split. Qed.

(** C3, amended.  Let [t] be the reference with leading and trailing
    whitespace removed.
    - When [t] ends with [github.com/OWNER/NAME], optionally followed by
      [.git] and then optionally by a slash, where OWNER and NAME are
      non-empty and without slash (and, when no [.git] follows, NAME is not
      itself some non-empty text followed by [.git]), the parser returns
      (OWNER, NAME), whatever precedes [github.com/].
    - When [t] is [OWNER/NAME] with both parts non-empty and without slash,
      the parser returns (OWNER, NAME) unchanged: a [.git] suffix stays in
      the name.
    - In every other case it returns (None, None). *)
Theorem parse_github_url_forms (raw : string) :
  (forall pre o n dotgit trailing,
      strip raw = pre ++ "github.com/" ++ o ++ "/" ++ n ++ url_suffix dotgit trailing ->
      name_ok o -> name_ok n ->
      (dotgit = false -> forall a, a <> "" -> n <> a ++ ".git") ->
      parse_github_url raw = (Some o, Some n)) /\
  (forall o n,
      strip raw = o ++ "/" ++ n -> name_ok o -> name_ok n ->
      parse_github_url raw = (Some o, Some n)) /\
  ((forall pre o n dotgit trailing,
       name_ok o -> name_ok n ->
       strip raw <> pre ++ "github.com/" ++ o ++ "/" ++ n ++ url_suffix dotgit trailing) ->
   (forall o n, name_ok o -> name_ok n -> strip raw <> o ++ "/" ++ n) ->
   parse_github_url raw = (None, None)).
Proof.
  pose proof (last_char_strip raw) as Hl.
  unfold parse_github_url, patterns, first_match.
  split; [|split].
  - intros pre o n dg tr Heq Ho Hn Hgit.
    rewrite Heq in *. now rewrite search_url_found.
  - intros o n Heq Ho Hn. rewrite Heq.
    now rewrite search_url_short_none, search_short_found.
  - intros Hurl Hshort.
    destruct (search pattern_url (strip raw)) as [m|] eqn:E1.
    { apply search_url_sound in E1; [|exact Hl].
      destruct E1 as (pre & o & n & dg & tr & Heq & Ho & Hn & _).
      now destruct (Hurl pre o n dg tr Ho Hn). }
    destruct (search pattern_short (strip raw)) as [m|] eqn:E2; [|reflexivity].
    apply search_short_sound in E2; [|exact Hl].
    destruct E2 as (o & n & Heq & Ho & Hn & _).
    now destruct (Hshort o n Ho Hn).
Qed.

(** A result of the parser is the not-found pair or two captured names. *)
Lemma parse_github_url_cases (url : string) :
  parse_github_url url = (None, None) \/
  exists owner repo,
    parse_github_url url = (Some owner, Some repo) /\
    name_ok owner /\ name_ok repo.
Proof.
  pose proof (last_char_strip url) as Hl.
  unfold parse_github_url, patterns, first_match.
  destruct (search pattern_url (strip url)) as [m|] eqn:E1.
  { apply search_url_sound in E1; [|exact Hl].
    destruct E1 as (pre & o & n & dg & tr & _ & Ho & Hn & ->).
    right. exists o, n. auto. }
  destruct (search pattern_short (strip url)) as [m|] eqn:E2; [|now left].
  apply search_short_sound in E2; [|exact Hl].
  destruct E2 as (o & n & _ & Ho & Hn & ->).
  right. exists o, n. auto.
Qed.

Lemma name_ok_truthy (s : string) : name_ok s -> truthy s = true.
Proof. intros [Hne _]. destruct s; [congruence | reflexivity]. Qed.

(** C10: [parse_github_url] returns either (None, None) or two non-empty
    strings without ['/']; so the caller's check [not owner or not repo] is
    true exactly when the result is (None, None). *)
Theorem parse_github_url_result (url : string) :
  parse_github_url url = (None, None) \/
  exists owner repo,
    parse_github_url url = (Some owner, Some repo) /\
    owner <> "" /\ repo <> "" /\
    all_in not_slash owner = true /\ all_in not_slash repo = true /\
    negb (truthy owner) || negb (truthy repo) = false.
Proof.
  destruct (parse_github_url_cases url) as [H | (o & n & H & Ho & Hn)];
    [now left | right].
  exists o, n. split; [exact H|].
  rewrite (name_ok_truthy o Ho), (name_ok_truthy n Hn).
  destruct Ho, Hn. auto.
Qed.

Lemma parse_github_url_forms_witness :
  parse_github_url " https://github.com/acme/widgets.git/ " = (Some "acme", Some "widgets") /\
  parse_github_url "acme/widgets.git" = (Some "acme", Some "widgets.git") /\
  parse_github_url "not a url" = (None, None).
Proof.
  split; [|split].
  - apply (proj1 (parse_github_url_forms " https://github.com/acme/widgets.git/ ")
             "https://" "acme" "widgets" true true).
    + reflexivity.
    + split; [discriminate | reflexivity].
    + split; [discriminate | reflexivity].
    + discriminate.
  - apply (proj1 (proj2 (parse_github_url_forms "acme/widgets.git"))
             "acme" "widgets.git").
    + reflexivity.
    + split; [discriminate | reflexivity].
    + split; [discriminate | reflexivity].
  - apply (proj2 (proj2 (parse_github_url_forms "not a url"))).
    + intros pre o n dg tr _ _ H.
      apply (f_equal count_slash) in H.
      rewrite !count_slash_append in H. simpl in H. lia.
    + intros o n _ _ H.
      apply (f_equal count_slash) in H.
      rewrite !count_slash_append in H. simpl in H. lia.
Defined.

(** ** The request boundary *)

Section Boundary.
Variable P : Platform.
Implicit Types st : state P.

Lemma advanced_analyze_eq (req : request) st :
  AdvancedApp.analyze req st
  = if negb (truthy (url_of req)) then
      (Ret ([("error", JStr "Repository URL is required")], 400), st)
    else
      (view_outcome (fst (AdvancedApp.analyze_github_repo (url_of req) (kind_of req) st)),
       snd (AdvancedApp.analyze_github_repo (url_of req) (kind_of req) st)).
Proof.
  unfold AdvancedApp.analyze. fold (url_of req). fold (kind_of req).
  destruct (negb (truthy (url_of req))); [reflexivity|].
  unfold try_except, bind, ret.
  destruct (AdvancedApp.analyze_github_repo _ _ st) as [[pl|e|] st']; reflexivity.
Qed.

Lemma basic_analyze_eq (req : request) st :
  App.analyze req st
  = if negb (truthy (url_of req)) then
      (Ret ([("error", JStr "Repository URL is required")], 400), st)
    else
      (view_outcome (fst (App.analyze_github_repo (url_of req) (kind_of req) st)),
       snd (App.analyze_github_repo (url_of req) (kind_of req) st)).
Proof.
  unfold App.analyze. fold (url_of req). fold (kind_of req).
  destruct (negb (truthy (url_of req))); [reflexivity|].
  unfold try_except, bind, ret.
  destruct (App.analyze_github_repo _ _ st) as [[pl|e|] st']; reflexivity.
Qed.

(** No payload that [analyze_github_repo] returns has an [error] key. *)
Lemma advanced_payload_no_error (url kind : string) st pl st' :
  AdvancedApp.analyze_github_repo url kind st = (Ret pl, st') ->
  has_key "error" pl = false.
Proof.
  intros H. apply advanced_run_cases in H.
  inversion H; subst; try reflexivity.
  match goal with H : finally_outcome _ _ = Ret _ |- _ =>
    apply finally_outcome_ret in H; destruct H as [Hb _] end.
  destruct rb as [[]|e|]; try discriminate.
  injection Hb as <-. reflexivity.
Qed.

Lemma basic_payload_no_error (url kind : string) st pl st' :
  App.analyze_github_repo url kind st = (Ret pl, st') ->
  has_key "error" pl = false.
Proof.
  intros H. apply basic_run_cases in H.
  inversion H; subst; try reflexivity.
  match goal with H : finally_outcome _ _ = Ret _ |- _ =>
    apply finally_outcome_ret in H; destruct H as [Hb _] end.
  injection Hb as <-. reflexivity.
Qed.

Lemma advanced_unparsable (url kind : string) st :
  parse_github_url url = (None, None) ->
  AdvancedApp.analyze_github_repo url kind st = (Ret invalid_payload, st).
Proof. unfold AdvancedApp.analyze_github_repo. now intros ->. Qed.

Lemma basic_unparsable (url kind : string) st :
  parse_github_url url = (None, None) ->
  App.analyze_github_repo url kind st = (Ret invalid_payload, st).
Proof. unfold App.analyze_github_repo. now intros ->. Qed.

Lemma advanced_clone_failed (url kind owner repo e : string) st st1 :
  parse_github_url url = (Some owner, Some repo) ->
  AdvancedApp.clone_repo owner repo st = (Raise e, st1) ->
  AdvancedApp.analyze_github_repo url kind st
  = (Ret (clone_failed_payload e), st1).
Proof.
  intros Hparse Hclone. unfold AdvancedApp.analyze_github_repo.
  rewrite Hparse.
  destruct (parse_github_url_cases url) as [H | (o & n & H & Ho & Hn)];
    [congruence|].
  rewrite Hparse in H. injection H as <- <-.
  rewrite (name_ok_truthy owner Ho), (name_ok_truthy repo Hn). cbn [negb orb].
  unfold bind at 1, try_except at 1, bind at 1. rewrite Hclone. reflexivity.
Qed.

End Boundary.

(** C2, as stated, fails: an unparsable reference and a failed clone are
    both answered with status 200 and a payload that has a [response]
    message and no [error] field. *)
Lemma failure_with_success_status :
  let st := Sim.init (Sim.quiet_world "") in
  let w := Sim.SimWorld [] [] [] false "fatal: repository not found"
                        ([], None) ([], None) in
  App.analyze (Request (Some "not a url") None) st
  = (Ret (invalid_payload, 200), st) /\
  AdvancedApp.analyze (Request (Some "not a url") None) st
  = (Ret (invalid_payload, 200), st) /\
  has_key "error" invalid_payload = false /\
  fst (AdvancedApp.analyze (Request (Some "acme/widgets") None) (Sim.init w))
  = Ret (clone_failed_payload
           "Failed to clone repository: fatal: repository not found", 200) /\
  has_key "error"
    (clone_failed_payload
       "Failed to clone repository: fatal: repository not found") = false.
Proof. repeat split. Qed.

(** C2, amended.  A request without a repository URL is answered with
    [{error}] and status 400; when [analyze_github_repo] raises (a failure
    of the engine or the session, in either variant) the answer is
    [{error: message}] with status 500.  An unparsable non-empty reference
    and, in [advanced_app.py], a failed clone are answered with status 200
    and a payload that holds the failure message under [response] and an
    empty [events] list; no payload answered with status 200 has an [error]
    field. *)
Theorem view_failure_contract (P : Platform) (req : request) (st : state P) :
  (truthy (url_of req) = false ->
   AdvancedApp.analyze req st
   = (Ret ([("error", JStr "Repository URL is required")], 400), st) /\
   App.analyze req st
   = (Ret ([("error", JStr "Repository URL is required")], 400), st)) /\
  (truthy (url_of req) = true ->
   (forall r st',
       AdvancedApp.analyze_github_repo (url_of req) (kind_of req) st = (r, st') ->
       AdvancedApp.analyze req st = (view_outcome r, st') /\
       forall pl, r = Ret pl -> has_key "error" pl = false) /\
   (forall r st',
       App.analyze_github_repo (url_of req) (kind_of req) st = (r, st') ->
       App.analyze req st = (view_outcome r, st') /\
       forall pl, r = Ret pl -> has_key "error" pl = false) /\
   (parse_github_url (url_of req) = (None, None) ->
    AdvancedApp.analyze req st = (Ret (invalid_payload, 200), st) /\
    App.analyze req st = (Ret (invalid_payload, 200), st)) /\
   (forall owner repo e st1,
       parse_github_url (url_of req) = (Some owner, Some repo) ->
       AdvancedApp.clone_repo owner repo st = (Raise e, st1) ->
       AdvancedApp.analyze req st = (Ret (clone_failed_payload e, 200), st1))).
Proof.
  split.
  - intros Hu. rewrite advanced_analyze_eq, basic_analyze_eq, Hu. now split.
  - intros Hu. rewrite advanced_analyze_eq, basic_analyze_eq, Hu. cbn [negb].
    split; [|split; [|split]].
    + intros r st' Hrun. rewrite Hrun. split; [reflexivity|].
      intros pl ->. eapply advanced_payload_no_error; eauto.
    + intros r st' Hrun. rewrite Hrun. split; [reflexivity|].
      intros pl ->. eapply basic_payload_no_error; eauto.
    + intros Hparse.
      rewrite (advanced_unparsable P _ _ st Hparse),
        (basic_unparsable P _ _ st Hparse). now split.
    + intros owner repo e st1 Hparse Hclone.
      now rewrite (advanced_clone_failed P _ (kind_of req) _ _ _ st st1 Hparse Hclone).
Qed.

Lemma view_failure_contract_witness :
  let w := Sim.SimWorld [] [] [] true "" ([], Some "session lost") ([], None) in
  let req := Request (Some "acme/widgets") (Some "diagram") in
  truthy (url_of req) = true /\
  App.analyze req (Sim.init w)
  = (view_outcome (Raise "session lost"),
     snd (App.analyze_github_repo (url_of req) (kind_of req) (Sim.init w))).
Proof.
  split; [reflexivity|].
  apply (proj2 (view_failure_contract Sim.platform
                  (Request (Some "acme/widgets") (Some "diagram"))
                  (Sim.init (Sim.SimWorld [] [] [] true ""
                                          ([], Some "session lost") ([], None))))
           eq_refl).
  vm_compute. reflexivity.
Defined.

(** ** Teardown *)

(** In [advanced_app.py] the [try]/[finally] runs the teardown on every
    exit of its body: whether sending and waiting returned or raised,
    [session.destroy()] is awaited next; when it and [client.stop()]
    return, [cleanup_repo] runs last. *)
Lemma advanced_teardown_on_every_exit (P : Platform) (prompt repo_path : string)
    (st st' : state P) (r : outcome unit) :
  try_finally (send_and_wait P prompt) (AdvancedApp.teardown repo_path) st = (r, st') ->
  r <> Hang ->
  exists rb st_b rt new,
    send_and_wait P prompt st = (rb, st_b) /\
    AdvancedApp.teardown repo_path st_b = (rt, st') /\
    r = finally_outcome rb rt /\
    trace st' = (trace st_b ++ ADestroy :: new)%list /\
    (rt = Ret tt ->
     exists evs1 evs2 st2 fs,
       new = (map AEvent evs1 ++ AStop :: map AEvent evs2 ++ fs)%list /\
       AdvancedApp.cleanup_repo repo_path st2 = (Ret tt, st')).
Proof.
  unfold try_finally.
  destruct (send_and_wait P prompt st) as [rb st_b] eqn:Hb.
  destruct (teardown_step P repo_path st_b)
    as (rt & st2 & new & Ht & Hrt & (Htr & _) & Hok).
  destruct rb as [[]|e|]; rewrite ?Ht;
    try (intros H Hr; inversion H; subst; congruence);
    (destruct Hrt as [-> | [e' ->]]; intros H Hr; inversion H; subst;
     eexists _, st_b, _, new; repeat split; eauto;
     try discriminate;
     intros _; destruct (Hok eq_refl) as (evs1 & evs2 & st3 & fs & Hn & Hc & _);
     eauto 6).
Qed.

(** C1 on [app.py]: when sending the instruction raises, the call ends
    with that exception right after the send; neither [session.destroy()]
    nor [client.stop()] is called.  On the same input [advanced_app.py]
    destroys the session, stops the client and removes the workspace before
    the exception leaves. *)
Lemma basic_send_failure_skips_teardown :
  let w := Sim.SimWorld [] [] [] true "" ([], Some "connection reset") ([], None) in
  let basic := App.analyze_github_repo "acme/widgets" "overview" (Sim.init w) in
  let advanced := AdvancedApp.analyze_github_repo "acme/widgets" "overview" (Sim.init w) in
  fst basic = Raise "connection reset" /\
  trace (snd basic)
  = [AClientStart; ACreateSession; ASessionOn;
     ASend (App.prompt_overview "acme" "widgets")] /\
  existsb is_teardown (trace (snd basic)) = false /\
  fst advanced = Raise "connection reset" /\
  trace (snd advanced)
  = [AMakedirs "temp_repos";
     AGitClone "https://github.com/acme/widgets.git" "temp_repos/widgets";
     AClientStart; ACreateSession; ASessionOn;
     ASend (AdvancedApp.prompt_overview "acme" "widgets" "temp_repos/widgets");
     ADestroy; AStop; ARmtree "temp_repos/widgets"].
Proof. vm_compute. repeat split. Qed.

(** ** The diagram instruction *)

Section Contains.

Lemma strip_prefix_append_r (w s r b : string) :
  strip_prefix w s = Some r -> strip_prefix w (s ++ b) = Some (r ++ b).
Proof.
  revert s. induction w as [|c w IH]; intros s; simpl.
  - intros H. injection H as ->. reflexivity.
  - destruct s as [|d s]; [discriminate|]. simpl.
    destruct (Ascii.eqb c d); [apply IH | discriminate].
Qed.

Lemma contains_append_r (w s b : string) :
  contains w s = true -> contains w (s ++ b) = true.
Proof.
  induction s as [|c s IH]; simpl.
  - destruct (strip_prefix w "") as [r|] eqn:E; [|discriminate].
    intros _. destruct w; [|discriminate]. now destruct b.
  - destruct (strip_prefix w (String c s)) as [r|] eqn:E.
    + intros _.
      change (String c (s ++ b)) with (String c s ++ b).
      now rewrite (strip_prefix_append_r _ _ _ b E).
    + intros H. destruct (strip_prefix w (String c (s ++ b))); [reflexivity|].
      now apply IH.
Qed.

Lemma contains_append_l (w a s : string) :
  contains w s = true -> contains w (a ++ s) = true.
Proof.
  intros H. induction a as [|c a IH]; simpl; [exact H|].
  destruct (strip_prefix w (String c (a ++ s))); [reflexivity | exact IH].
Qed.

Lemma contains_of_prefix (w s r : string) :
  strip_prefix w s = Some r -> contains w s = true.
Proof. intros H. destruct s; simpl in *; now rewrite H. Qed.

Lemma contains_at_start (w rest : string) : contains w (w ++ rest) = true.
Proof. apply (contains_of_prefix w _ rest). apply strip_prefix_append. Qed.

(** [w in s] says that [s] is some text, [w], and some text. *)
Lemma contains_inv (w s : string) :
  contains w s = true -> exists a b, s = a ++ w ++ b.
Proof.
  induction s as [|c s IH]; simpl.
  - destruct (strip_prefix w "") as [r|] eqn:E; [|discriminate].
    intros _. exists "", r. simpl. now apply strip_prefix_some.
  - destruct (strip_prefix w (String c s)) as [r|] eqn:E.
    + intros _. exists "", r. simpl. now apply strip_prefix_some.
    + intros H. destruct (IH H) as (a & b & ->). now exists (String c a), b.
Qed.

Lemma contains_trans (k w s : string) :
  contains k w = true -> contains w s = true -> contains k s = true.
Proof.
  intros Hk Hw.
  destruct (contains_inv _ _ Hk) as (a' & b' & ->).
  destruct (contains_inv _ _ Hw) as (a & b & ->).
  apply contains_append_l, contains_append_r, contains_append_l,
        contains_at_start.
Qed.

(** *** Words between spaces

    A text [w] that ends with a space and holds no ['/'] cannot end inside,
    or run across, a text [x] that holds a ['/'] and no space. *)

Lemma not_prefix_of_token (x b : string) :
  forall w : string,
  w <> "" -> last_char w = Some " "%char -> all_in not_slash w = true ->
  all_in not_space x = true -> all_in not_slash x = false ->
  strip_prefix w (x ++ b) = None.
Proof.
  induction x as [|d x IH]; intros w Hne Hlast Hw Hx Hs; [discriminate|].
  destruct w as [|c w]; [congruence|]. simpl.
  destruct (Ascii.eqb c d) eqn:E; [|reflexivity].
  apply Ascii.eqb_eq in E. subst d.
  simpl in Hw, Hx, Hs.
  apply andb_true_iff in Hw as [Hc Hw]. apply andb_true_iff in Hx as [Hcx Hx].
  rewrite Hc in Hs. simpl in Hs.
  destruct w as [|c' w'].
  - simpl in Hlast. injection Hlast as ->. discriminate Hcx.
  - apply IH; auto. discriminate.
Qed.

Lemma prefix_through_token (a x b : string) :
  forall w : string,
  w <> "" -> last_char w = Some " "%char -> all_in not_slash w = true ->
  all_in not_space x = true -> all_in not_slash x = false ->
  match strip_prefix w (a ++ x ++ b) with Some _ => true | None => false end
  = match strip_prefix w a with Some _ => true | None => false end.
Proof.
  induction a as [|c a IH]; intros w Hne Hlast Hw Hx Hs.
  - simpl. rewrite not_prefix_of_token by assumption.
    destruct w; [congruence | reflexivity].
  - destruct w as [|d w]; [congruence|]. simpl.
    destruct (Ascii.eqb d c); [|reflexivity].
    destruct w as [|d' w']; [reflexivity|].
    apply IH; auto; [discriminate|].
    simpl in Hw. now apply andb_true_iff in Hw as [_ Hw].
Qed.

Lemma contains_past_token (w0 x b : string) :
  all_in not_space x = true ->
  contains (String " " w0) (x ++ b) = contains (String " " w0) b.
Proof.
  induction x as [|d x IH]; intros Hx; [reflexivity|].
  simpl in Hx. apply andb_true_iff in Hx as [Hd Hx].
  change (String d x ++ b) with (String d (x ++ b)).
  cbn [contains strip_prefix].
  unfold not_space in Hd. apply negb_true_iff in Hd.
  rewrite Ascii.eqb_sym in Hd. rewrite Hd. now apply IH.
Qed.

(** Such a [w], when it also starts with a space, occurs in [a ++ x ++ b]
    only inside [a] or inside [b]. *)
Lemma contains_through_token (w0 a x b : string) :
  last_char (String " " w0) = Some " "%char ->
  all_in not_slash (String " " w0) = true ->
  all_in not_space x = true -> all_in not_slash x = false ->
  contains (String " " w0) (a ++ x ++ b)
  = contains (String " " w0) a || contains (String " " w0) b.
Proof.
  intros Hlast Hw Hx Hs.
  induction a as [|c a IH].
  - change ("" ++ x ++ b) with (x ++ b).
    rewrite contains_past_token by assumption. reflexivity.
  - assert (Hp := prefix_through_token (String c a) x b (String " " w0)
                    ltac:(discriminate) Hlast Hw Hx Hs).
    change (String c a ++ x ++ b) with (String c (a ++ x ++ b)) in *.
    cbn [contains].
    destruct (strip_prefix (String " " w0) (String c (a ++ x ++ b)));
      destruct (strip_prefix (String " " w0) (String c a));
      try discriminate; [reflexivity | exact IH].
Qed.

(** The instruction of [app.py] holds such a [w] exactly when its template
    does: the interpolated [owner/repo] never matters. *)
Lemma basic_diagram_token (w0 owner repo : string) :
  last_char (String " " w0) = Some " "%char ->
  all_in not_slash (String " " w0) = true ->
  all_in not_space owner = true -> all_in not_space repo = true ->
  contains (String " " w0) (App.prompt_diagram owner repo)
  = contains (String " " w0) (App.prompt_diagram "" "").
Proof.
  intros Hlast Hw Ho Hr.
  assert (Hsplit : forall o r t0 t1 t2 t3,
             all_in not_space o = true -> all_in not_space r = true ->
             contains (String " " w0)
               (t0 ++ o ++ "/" ++ r ++ t1 ++ o ++ "/" ++ r
                   ++ t2 ++ o ++ "/" ++ r ++ t3)
             = contains (String " " w0) t0 || contains (String " " w0) t1
               || contains (String " " w0) t2 || contains (String " " w0) t3).
  { intros o r t0 t1 t2 t3 Hso Hsr.
    assert (Hx : all_in not_space (o ++ "/" ++ r) = true)
      by (rewrite !all_in_append, Hso, Hsr; reflexivity).
    assert (Hs : all_in not_slash (o ++ "/" ++ r) = false)
      by (rewrite !all_in_append; simpl; apply andb_false_r).
    assert (Hre : forall t rest,
               t ++ o ++ "/" ++ r ++ rest = t ++ (o ++ "/" ++ r) ++ rest)
      by (intros; now rewrite !append_assoc).
    rewrite (Hre t0), (Hre t1), (Hre t2).
    rewrite !contains_through_token by assumption.
    now rewrite !orb_assoc. }
  unfold App.prompt_diagram.
  rewrite (Hsplit owner repo) by assumption.
  rewrite (Hsplit "" "") by reflexivity.
  reflexivity.
Qed.

(** A text that holds such a word between spaces which the template of
    [app.py] lacks is not part of the instruction. *)
Lemma basic_diagram_lacks (text w0 owner repo : string) :
  all_in not_space owner = true -> all_in not_space repo = true ->
  last_char (String " " w0) = Some " "%char ->
  all_in not_slash (String " " w0) = true ->
  contains (String " " w0) text = true ->
  contains (String " " w0) (App.prompt_diagram "" "") = false ->
  contains text (App.prompt_diagram owner repo) = false.
Proof.
  intros Ho Hr Hlast Hw Hin Hout.
  destruct (contains text (App.prompt_diagram owner repo)) eqn:E;
    [|reflexivity].
  rewrite <- Hout, <- (basic_diagram_token w0 owner repo Hlast Hw Ho Hr).
  symmetry. exact (contains_trans _ _ _ Hin E).
Qed.

End Contains.

(** C9, as stated, fails on [app.py]: its diagram instruction holds none
    of the formatting rules and neither example, nor any of the words they
    would be stated in. *)
Lemma basic_diagram_has_no_rules :
  let prompt := App.prompt_diagram "acme" "widgets" in
  existsb (fun w => contains w prompt) diagram_rules = false /\
  existsb (fun w => contains w prompt) diagram_examples = false /\
  contains_none diagram_rule_words (lower prompt) = true.
Proof. vm_compute. repeat split. Qed.

(** C9, amended: in [advanced_app.py] the instruction for the kind
    [diagram] contains, for every owner, name and workspace path, the three
    formatting rules and the correct and the wrong example verbatim; in
    [app.py] it contains, for every owner and name, the fixed sample of the
    output format, and for every owner and name without a space none of the
    rules and neither example: the template of [app.py] has no such text,
    which can come in only with an interpolated name. *)
Theorem diagram_prompt_constraints (owner repo repo_path : string) :
  get_default "diagram" (AdvancedApp.prompt_overview owner repo repo_path)
              (AdvancedApp.analysis_prompts owner repo repo_path)
  = AdvancedApp.prompt_diagram owner repo repo_path /\
  contains_all diagram_rules
    (AdvancedApp.prompt_diagram owner repo repo_path) = true /\
  contains_all diagram_examples
    (AdvancedApp.prompt_diagram owner repo repo_path) = true /\
  get_default "diagram" (App.prompt_overview owner repo)
              (App.analysis_prompts owner repo)
  = App.prompt_diagram owner repo /\
  contains "```mermaid
graph TD
    A[Component A] --> B[Component B]
    B --> C[Component C]
```" (App.prompt_diagram owner repo) = true /\
  (all_in not_space owner = true -> all_in not_space repo = true ->
   existsb (fun w => contains w (App.prompt_diagram owner repo))
           (diagram_rules ++ diagram_examples)%list = false).
Proof.
  split; [reflexivity|].
  assert (Hadv : forall w,
             contains w "

Please analyze this LOCAL repository using file system tools (read_file, list_dir, grep_search).

Your task:
1. Explore the directory structure using list_dir
2. Read key files to understand the architecture (README.md, main source files, config files)
3. Based on your analysis, create a Mermaid flow diagram

CRITICAL MERMAID SYNTAX RULES:
- Each node definition MUST be on a SINGLE LINE
- Node labels should be SHORT (1-5 words max)
- Do NOT put newlines inside square brackets []
- Use simple IDs like A, B, C or short names like React, DOM, etc.
- If you need line breaks in labels, use <br> tag, NOT actual newlines

Output a Mermaid diagram using EXACTLY this format:
```mermaid
graph TD
    A[Short Label] --> B[Another Label]
    B --> C[Third Label]
    C --> D[Fourth Label]
```

CORRECT example:
```mermaid
graph TD
    A[React Core] --> B[Reconciler]
    B --> C[React DOM]
    B --> D[React Native]
```

WRONG example (DO NOT DO THIS):
```mermaid
graph TD
    A[React Core
    Package] --> B[Reconciler]
```

Keep node labels concise. Use actual component/directory names from " = true ->
             contains w (AdvancedApp.prompt_diagram owner repo repo_path) = true).
  { intros w Hw. unfold AdvancedApp.prompt_diagram.
    do 6 apply contains_append_l. apply contains_append_r. exact Hw. }
  split; [|split; [|split; [|split]]].
  - unfold contains_all, diagram_rules. cbn [forallb].
    rewrite !Hadv by (vm_compute; reflexivity). reflexivity.
  - unfold contains_all, diagram_examples. cbn [forallb].
    rewrite !Hadv by (vm_compute; reflexivity). reflexivity.
  - reflexivity.
  - unfold App.prompt_diagram.
    do 8 apply contains_append_l. apply contains_append_r.
    vm_compute. reflexivity.
  - intros Ho Hr. unfold diagram_rules, diagram_examples.
    cbn [app existsb].
    rewrite (basic_diagram_lacks _ "MUST " owner repo Ho Hr)
      by (vm_compute; reflexivity).
    rewrite (basic_diagram_lacks _ "SHORT " owner repo Ho Hr)
      by (vm_compute; reflexivity).
    rewrite (basic_diagram_lacks _ "square " owner repo Ho Hr)
      by (vm_compute; reflexivity).
    rewrite !(basic_diagram_lacks _ "A[React " owner repo Ho Hr)
      by (vm_compute; reflexivity).
    reflexivity.
Qed.

Lemma diagram_prompt_constraints_witness :
  all_in not_space "acme" = true /\ all_in not_space "widgets" = true /\
  existsb (fun w => contains w (App.prompt_diagram "acme" "widgets"))
          (diagram_rules ++ diagram_examples)%list = false.
Proof.
  split; [reflexivity|]. split; [reflexivity|].
  apply (diagram_prompt_constraints "acme" "widgets" "temp_repos/widgets");
    reflexivity.
Defined.

(** Why the names must be free of spaces: a reference whose name is a rule
    is parsed, and that rule is then part of the instruction of [app.py]. *)
Example diagram_rule_through_name :
  let rule := "- Node labels should be SHORT (1-5 words max)" in
  parse_github_url ("acme/" ++ rule) = (Some "acme", Some rule) /\
  In rule diagram_rules /\
  contains rule (App.prompt_diagram "acme" rule) = true.
Proof. vm_compute. repeat split. right. left. reflexivity. Qed.

(** * Further properties *)

(** ** The URL parser, continued *)

Section Trimming.

Lemma lstrip_spaces (ws s : string) :
  all_in isspace ws = true -> lstrip (ws ++ s) = lstrip s.
Proof.
  induction ws as [|c ws IH]; simpl; [reflexivity|].
  destruct (isspace c); simpl; [exact IH | discriminate].
Qed.

Lemma rstrip_all_spaces (ws : string) :
  all_in isspace ws = true -> rstrip ws = "".
Proof.
  induction ws as [|c ws IH]; simpl; [reflexivity|].
  destruct (isspace c); simpl; [|discriminate].
  intros H. now rewrite (IH H).
Qed.

Lemma rstrip_spaces (s ws : string) :
  all_in isspace ws = true -> rstrip (s ++ ws) = rstrip s.
Proof.
  intros H. induction s as [|c s IH]; simpl.
  - now apply rstrip_all_spaces.
  - now rewrite IH.
Qed.

Lemma lstrip_cases (s : string) :
  (all_in isspace s = true /\ lstrip s = "") \/
  (exists ws c r, s = ws ++ String c r /\ all_in isspace ws = true /\
                  isspace c = false /\ lstrip s = String c r).
Proof.
  induction s as [|c s IH]; simpl; [now left|].
  destruct (isspace c) eqn:Hc; simpl.
  - destruct IH as [[Hall Hl] | (ws & d & r & -> & Hws & Hd & Hl)].
    + now left.
    + right. exists (String c ws), d, r. simpl. rewrite Hc, Hws. auto.
  - right. exists "", c, s. auto.
Qed.

Lemma lstrip_all_spaces (s : string) :
  all_in isspace s = true -> lstrip s = "".
Proof.
  induction s as [|c s IH]; simpl; [reflexivity|].
  destruct (isspace c); simpl; [exact IH | discriminate].
Qed.

Lemma strip_spaces (ws1 s ws2 : string) :
  all_in isspace ws1 = true -> all_in isspace ws2 = true ->
  strip (ws1 ++ s ++ ws2) = strip s.
Proof.
  intros H1 H2. unfold strip. rewrite lstrip_spaces by exact H1.
  destruct (lstrip_cases s) as [[Hall Hl] | (ws & c & r & -> & Hws & Hc & Hl)].
  - rewrite Hl, lstrip_all_spaces; [reflexivity|].
    now rewrite all_in_append, Hall, H2.
  - rewrite Hl, append_assoc, lstrip_spaces by exact Hws.
    assert (Hkeep : lstrip (String c r ++ ws2) = String c r ++ ws2)
      by (simpl; now rewrite Hc).
    rewrite Hkeep. now apply rstrip_spaces.
Qed.

Lemma rstrip_fixed (s : string) (c : ascii) :
  last_char s = Some c -> isspace c = false -> rstrip s = s.
Proof.
  induction s as [|d s IH]; [discriminate|].
  destruct s as [|e s].
  - simpl. intros H Hc. injection H as ->. now rewrite Hc.
  - intros H Hc. change (last_char (String d (String e s)))
      with (last_char (String e s)) in H.
    change (rstrip (String d (String e s)))
      with (match rstrip (String e s) with
            | "" => if isspace d then "" else String d ""
            | r => String d r
            end).
    now rewrite (IH H Hc).
Qed.

Lemma count_slash_lstrip (s : string) : count_slash (lstrip s) <= count_slash s.
Proof.
  induction s as [|c s IH]; simpl; [lia|].
  destruct (isspace c); simpl; lia.
Qed.

Lemma count_slash_rstrip (s : string) : count_slash (rstrip s) <= count_slash s.
Proof.
  induction s as [|c s IH]; simpl; [lia|].
  destruct (rstrip s) as [|d r]; simpl in *.
  - destruct (isspace c); simpl; lia.
  - lia.
Qed.

End Trimming.

(** X1: white space around a reference does not change what the parser
    returns. *)
Theorem parse_ignores_surrounding_space (ws1 s ws2 : string) :
  all_in isspace ws1 = true -> all_in isspace ws2 = true ->
  parse_github_url (ws1 ++ s ++ ws2) = parse_github_url s.
Proof.
  intros H1 H2. unfold parse_github_url. now rewrite strip_spaces.
Qed.

Lemma parse_ignores_surrounding_space_witness :
  all_in isspace "  " = true /\ all_in isspace nl = true /\
  parse_github_url ("  " ++ "acme/widgets" ++ nl) = parse_github_url "acme/widgets".
Proof.
  split; [reflexivity|]. split; [reflexivity|].
  apply (parse_ignores_surrounding_space "  " "acme/widgets" nl); reflexivity.
Defined.

(** X2: the clone URL that [clone_repo] builds from an owner and a name
    parses back to that owner and that name. *)
Theorem parse_clone_url_round_trip (owner repo : string) :
  name_ok owner -> name_ok repo ->
  parse_github_url (clone_source owner repo) = (Some owner, Some repo).
Proof.
  intros Ho Hn.
  assert (Hlast : last_char (clone_source owner repo) = Some "t"%char).
  { unfold clone_source.
    replace ("https://github.com/" ++ owner ++ "/" ++ repo ++ ".git")
      with (("https://github.com/" ++ owner ++ "/" ++ repo) ++ ".git")
      by (now rewrite !append_assoc).
    now rewrite last_char_append by discriminate. }
  assert (Hs : strip (clone_source owner repo) = clone_source owner repo).
  { unfold strip.
    assert (Hl : lstrip (clone_source owner repo) = clone_source owner repo)
      by reflexivity.
    rewrite Hl. now apply (rstrip_fixed _ "t"%char). }
  unfold parse_github_url, patterns, first_match. rewrite Hs.
  change (clone_source owner repo)
    with ("https://" ++ "github.com/" ++ owner ++ "/" ++ repo ++ url_suffix true false).
  rewrite search_url_found; auto; [|discriminate].
  change ("https://" ++ "github.com/" ++ owner ++ "/" ++ repo ++ url_suffix true false)
    with (clone_source owner repo).
  rewrite Hlast. discriminate.
Qed.

Lemma parse_clone_url_round_trip_witness :
  name_ok "acme" /\ name_ok "widgets.git" /\
  parse_github_url (clone_source "acme" "widgets.git")
  = (Some "acme", Some "widgets.git").
Proof.
  assert (H1 : name_ok "acme") by (split; [discriminate | reflexivity]).
  assert (H2 : name_ok "widgets.git") by (split; [discriminate | reflexivity]).
  split; [exact H1|]. split; [exact H2|].
  exact (parse_clone_url_round_trip "acme" "widgets.git" H1 H2).
Defined.

(** X3: a reference without any ['/'] is never parsed: the result is
    (None, None). *)
Theorem parse_without_slash (url : string) :
  count_slash url = 0 -> parse_github_url url = (None, None).
Proof.
  intros H0.
  assert (Ht : count_slash (strip url) = 0).
  { unfold strip.
    pose proof (count_slash_rstrip (lstrip url)).
    pose proof (count_slash_lstrip url). lia. }
  pose proof (last_char_strip url) as Hl.
  unfold parse_github_url, patterns, first_match.
  destruct (search pattern_url (strip url)) as [m|] eqn:E1.
  { exfalso. apply search_url_sound in E1; [|exact Hl].
    destruct E1 as (pre & o & n & dg & tr & Heq & _).
    rewrite Heq, !count_slash_append in Ht. simpl in Ht. lia. }
  destruct (search pattern_short (strip url)) as [m|] eqn:E2; [|reflexivity].
  exfalso. apply search_short_sound in E2; [|exact Hl].
  destruct E2 as (o & n & Heq & _).
  rewrite Heq, !count_slash_append in Ht. simpl in Ht. lia.
Qed.

Lemma parse_without_slash_witness :
  count_slash "github.com" = 0 /\ parse_github_url "github.com" = (None, None).
Proof.
  split; [reflexivity|]. apply (parse_without_slash "github.com"). reflexivity.
Defined.

(** X4: whatever the parser returns was read from the reference: the
    trimmed reference either ends with [github.com/owner/name] and one of
    the four endings, or is [owner/name] itself. *)
Theorem parse_result_comes_from_input (url owner repo : string) :
  parse_github_url url = (Some owner, Some repo) ->
  (exists pre dotgit trailing,
      strip url = pre ++ "github.com/" ++ owner ++ "/" ++ repo
                      ++ url_suffix dotgit trailing) \/
  strip url = owner ++ "/" ++ repo.
Proof.
  pose proof (last_char_strip url) as Hl.
  unfold parse_github_url, patterns, first_match.
  destruct (search pattern_url (strip url)) as [m|] eqn:E1.
  { apply search_url_sound in E1; [|exact Hl].
    destruct E1 as (pre & o & n & dg & tr & Heq & _ & _ & ->).
    simpl. intros H. injection H as <- <-. left. now exists pre, dg, tr. }
  destruct (search pattern_short (strip url)) as [m|] eqn:E2; [|discriminate].
  apply search_short_sound in E2; [|exact Hl].
  destruct E2 as (o & n & Heq & _ & _ & ->).
  simpl. intros H. injection H as <- <-. now right.
Qed.

Lemma parse_result_comes_from_input_witness :
  parse_github_url "see https://github.com/acme/widgets/" = (Some "acme", Some "widgets") /\
  ((exists pre dotgit trailing,
       strip "see https://github.com/acme/widgets/"
       = pre ++ "github.com/" ++ "acme" ++ "/" ++ "widgets"
             ++ url_suffix dotgit trailing) \/
   strip "see https://github.com/acme/widgets/" = "acme" ++ "/" ++ "widgets").
Proof.
  split; [reflexivity|].
  apply (parse_result_comes_from_input "see https://github.com/acme/widgets/").
  reflexivity.
Defined.

(** ** The event handler, continued *)

(** X5: an event of a type the handler has no branch for changes
    nothing: the flag, the fragments and the log stay as they are. *)
Theorem handle_event_ignores_other_types (h : handler_state) (ev : event) :
  existsb (String.eqb (type_value ev)) handled_types = false ->
  handle_event h ev = h.
Proof.
  unfold handled_types. cbn [existsb]. intros H.
  repeat (apply orb_false_elim in H; destruct H as [? H]).
  unfold handle_event.
  repeat match goal with
         | Hx : (type_value ev =? ?t) = false |- context [type_value ev =? ?t] =>
             rewrite Hx
         end.
  reflexivity.
Qed.

Lemma handle_event_ignores_other_types_witness :
  let h := HandlerState false ["so far"] [MessageDelta "x"] in
  let ev := Event "session.error" Sim.no_data in
  existsb (String.eqb (type_value ev)) handled_types = false /\
  handle_event h ev = h.
Proof.
  split; [reflexivity|].
  apply (handle_event_ignores_other_types
           (HandlerState false ["so far"] [MessageDelta "x"])
           (Event "session.error" Sim.no_data)).
  reflexivity.
Defined.

Lemma one_record_per_event (ev : event) :
  List.length (logged ev) + List.length (fragments [ev]) <= 1.
Proof.
  unfold logged, fragments. cbn [flat_map app].
  destruct (type_value ev =? "assistant.message") eqn:E1.
  - apply String.eqb_eq in E1. rewrite E1. simpl. lia.
  - rewrite app_nil_r.
    destruct (type_value ev =? "assistant.message_delta").
    + destruct (delta_content (data ev)) as [[|c d]|]; simpl; lia.
    + destruct (type_value ev =? "tool.execution_start"); [simpl; lia|].
      destruct (type_value ev =? "tool.execution_complete"); simpl; lia.
Qed.

(** X6: the handler only ever appends.  After any events the log and the
    fragments are the old ones followed by new entries, at most one new
    entry (in one of the two lists) per event, and a raised flag stays
    raised. *)
Theorem handler_only_appends (h : handler_state) (evs : list event) :
  exists records texts,
    events_log (handle_events h evs) = (events_log h ++ records)%list /\
    response_content (handle_events h evs) = (response_content h ++ texts)%list /\
    List.length records + List.length texts <= List.length evs /\
    (done h = true -> done (handle_events h evs) = true).
Proof.
  exists (flat_map logged evs), (fragments evs).
  split; [apply handle_events_log|].
  split; [apply handle_events_content|].
  split.
  - induction evs as [|ev evs IH]; simpl; [lia|].
    pose proof (one_record_per_event ev) as H1.
    unfold fragments in *. simpl in *.
    rewrite !length_app in *. simpl in H1. lia.
  - intros Hd. rewrite handle_events_done, Hd. reflexivity.
Qed.

(** ** The instruction, continued *)

Section Instruction.

Lemma contains_name (o r rest : string) :
  contains (o ++ "/" ++ r) (o ++ "/" ++ r ++ rest) = true.
Proof.
  replace (o ++ "/" ++ r ++ rest) with ((o ++ "/" ++ r) ++ rest)
    by (now rewrite !append_assoc).
  apply contains_at_start.
Qed.

Lemma advanced_prompt_cases (kind owner repo repo_path : string) :
  let selected := get_default kind (AdvancedApp.prompt_overview owner repo repo_path)
                              (AdvancedApp.analysis_prompts owner repo repo_path) in
  selected = AdvancedApp.prompt_overview owner repo repo_path \/
  selected = AdvancedApp.prompt_structure owner repo repo_path \/
  selected = AdvancedApp.prompt_diagram owner repo repo_path \/
  selected = AdvancedApp.prompt_dependencies owner repo repo_path.
Proof.
  unfold get_default, AdvancedApp.analysis_prompts. cbn [lookup].
  destruct ("overview" =? kind); [now left|].
  destruct ("structure" =? kind); [now right; left|].
  destruct ("diagram" =? kind); [now right; right; left|].
  destruct ("dependencies" =? kind); [now right; right; right | now left].
Qed.

Lemma basic_prompt_cases (kind owner repo : string) :
  let selected := get_default kind (App.prompt_overview owner repo)
                              (App.analysis_prompts owner repo) in
  selected = App.prompt_overview owner repo \/
  selected = App.prompt_structure owner repo \/
  selected = App.prompt_diagram owner repo \/
  selected = App.prompt_dependencies owner repo.
Proof.
  unfold get_default, App.analysis_prompts. cbn [lookup].
  destruct ("overview" =? kind); [now left|].
  destruct ("structure" =? kind); [now right; left|].
  destruct ("diagram" =? kind); [now right; right; left|].
  destruct ("dependencies" =? kind); [now right; right; right | now left].
Qed.

Lemma unknown_kind_lookup {V : Type} (kind : string) (a b c d : V) :
  existsb (String.eqb kind) known_kinds = false ->
  lookup kind [("overview", a); ("structure", b); ("diagram", c);
               ("dependencies", d)] = None.
Proof.
  unfold known_kinds. cbn [existsb lookup]. intros H.
  repeat (apply orb_false_elim in H; destruct H as [? H]).
  repeat match goal with
         | Hx : (kind =? ?t) = false |- _ =>
             rewrite String.eqb_sym in Hx; rewrite Hx; clear Hx
         end.
  reflexivity.
Qed.

End Instruction.

(** X7: an analysis kind that is not a key of [analysis_prompts] is
    treated exactly like [overview]: in both variants the whole run is the
    run for the kind [overview]. *)
Theorem unknown_kind_runs_overview (P : Platform) (url kind : string)
    (st : state P) :
  existsb (String.eqb kind) known_kinds = false ->
  AdvancedApp.analyze_github_repo url kind st
  = AdvancedApp.analyze_github_repo url "overview" st /\
  App.analyze_github_repo url kind st
  = App.analyze_github_repo url "overview" st.
Proof.
  intros Hk.
  assert (Hadv : forall owner repo path,
             get_default kind (AdvancedApp.prompt_overview owner repo path)
                         (AdvancedApp.analysis_prompts owner repo path)
             = get_default "overview" (AdvancedApp.prompt_overview owner repo path)
                           (AdvancedApp.analysis_prompts owner repo path)).
  { intros owner repo path.
    unfold get_default at 1, AdvancedApp.analysis_prompts.
    now rewrite (unknown_kind_lookup kind _ _ _ _ Hk). }
  assert (Hbas : forall owner repo,
             get_default kind (App.prompt_overview owner repo)
                         (App.analysis_prompts owner repo)
             = get_default "overview" (App.prompt_overview owner repo)
                           (App.analysis_prompts owner repo)).
  { intros owner repo.
    unfold get_default at 1, App.analysis_prompts.
    now rewrite (unknown_kind_lookup kind _ _ _ _ Hk). }
  split.
  - unfold AdvancedApp.analyze_github_repo.
    destruct (parse_github_url url) as [[owner|] [repo|]]; try reflexivity.
    destruct (negb (truthy owner) || negb (truthy repo)); [reflexivity|].
    unfold bind, try_except.
    destruct (AdvancedApp.clone_repo owner repo st) as [[path|e|] st1];
      try reflexivity.
    unfold ret. cbv beta iota.
    now rewrite Hadv.
  - unfold App.analyze_github_repo.
    destruct (parse_github_url url) as [[owner|] [repo|]]; try reflexivity.
    destruct (negb (truthy owner) || negb (truthy repo)); [reflexivity|].
    now rewrite Hbas.
Qed.

Lemma unknown_kind_runs_overview_witness :
  let st := Sim.init (Sim.quiet_world "hello") in
  existsb (String.eqb "summary") known_kinds = false /\
  AdvancedApp.analyze_github_repo "acme/widgets" "summary" st
  = AdvancedApp.analyze_github_repo "acme/widgets" "overview" st.
Proof.
  split; [reflexivity|].
  apply (unknown_kind_runs_overview Sim.platform "acme/widgets" "summary"
           (Sim.init (Sim.quiet_world "hello"))).
  reflexivity.
Defined.

(** X8: whatever the analysis kind, known or not, the instruction names
    the repository as [owner/name]; in [advanced_app.py] it also names the
    workspace path. *)
Theorem instruction_names_repository (kind owner repo repo_path : string) :
  contains (owner ++ "/" ++ repo)
    (get_default kind (AdvancedApp.prompt_overview owner repo repo_path)
                 (AdvancedApp.analysis_prompts owner repo repo_path)) = true /\
  contains repo_path
    (get_default kind (AdvancedApp.prompt_overview owner repo repo_path)
                 (AdvancedApp.analysis_prompts owner repo repo_path)) = true /\
  contains (owner ++ "/" ++ repo)
    (get_default kind (App.prompt_overview owner repo)
                 (App.analysis_prompts owner repo)) = true.
Proof.
  split; [|split].
  - destruct (advanced_prompt_cases kind owner repo repo_path)
      as [-> | [-> | [-> | ->]]];
      apply contains_append_l; apply contains_name.
  - destruct (advanced_prompt_cases kind owner repo repo_path)
      as [-> | [-> | [-> | ->]]];
      do 5 apply contains_append_l; apply contains_at_start.
  - destruct (basic_prompt_cases kind owner repo)
      as [-> | [-> | [-> | ->]]];
      apply contains_append_l; apply contains_name.
Qed.

(** ** The session orchestrator, continued *)

Section Completed.
Variable P : Platform.
Implicit Types st : state P.

(** What a run that returns the result of a session looks like. *)
Lemma completed_run_shape (url kind : string) st st' (pl : payload) :
  AdvancedApp.analyze_github_repo url kind st = (Ret pl, st') \/
  App.analyze_github_repo url kind st = (Ret pl, st') ->
  has_key "owner" pl = true ->
  exists owner repo pre prompt rest,
    parse_github_url url = (Some owner, Some repo) /\
    pl = success_payload owner repo (handler st') /\
    trace st' = (trace st ++ pre
                   ++ [AClientStart; ACreateSession; ASessionOn; ASend prompt]
                   ++ rest)%list /\
    events_of pre = [] /\
    handler st' = handle_events handler_init (events_of rest) /\
    existsb is_idle (events_of rest) = true.
Proof.
  intros Hrun Hkey.
  assert (Hgoal : forall st_on st_b prompt newb newt owner repo,
             parse_github_url url = (Some owner, Some repo) ->
             session_opened P st st_on ->
             send_and_wait P prompt st_on = (Ret tt, st_b) ->
             run_step st_on st_b (ASend prompt :: newb) ->
             run_step st_b st' (ADestroy :: newt) ->
             pl = success_payload owner repo (handler st') ->
             exists owner repo pre prompt rest,
               parse_github_url url = (Some owner, Some repo) /\
               pl = success_payload owner repo (handler st') /\
               trace st' = (trace st ++ pre
                              ++ [AClientStart; ACreateSession; ASessionOn;
                                  ASend prompt] ++ rest)%list /\
               events_of pre = [] /\
               handler st' = handle_events handler_init (events_of rest) /\
               existsb is_idle (events_of rest) = true).
  { intros st_on st_b prompt newb newt owner repo Hparse
           (pre & Hton & Hpre & Hhon) Hsend (Htb & Hhb) (Ht' & Hh') Hpl.
    exists owner, repo, pre, prompt, (newb ++ ADestroy :: newt)%list.
    split; [exact Hparse|]. split; [exact Hpl|].
    split.
    { rewrite Ht', Htb, Hton. rewrite <- !app_assoc. reflexivity. }
    split; [exact Hpre|].
    assert (Hb : handler st_b = handle_events handler_init (events_of newb)).
    { rewrite Hhb, Hhon. reflexivity. }
    split.
    - rewrite Hh', Hb, events_of_app, handle_events_app. reflexivity.
    - destruct (send_and_wait_step P prompt st_on)
        as (r & st2 & new2 & Heq & _ & Hdone).
      rewrite Hsend in Heq. injection Heq as <- <-.
      specialize (Hdone eq_refl).
      rewrite Hb, handle_events_done in Hdone. simpl in Hdone.
      rewrite events_of_app, existsb_app, Hdone. reflexivity. }
  destruct Hrun as [Hrun | Hrun].
  - apply advanced_run_cases in Hrun.
    inversion Hrun; subst; try discriminate.
    match goal with H : finally_outcome _ _ = Ret _ |- _ =>
      apply finally_outcome_ret in H; destruct H as [Hb _] end.
    destruct rb as [[]|e|]; try discriminate.
    injection Hb as Hpl. eapply Hgoal; eauto.
  - apply basic_run_cases in Hrun.
    inversion Hrun; subst; try discriminate.
    match goal with H : finally_outcome _ _ = Ret _ |- _ =>
      apply finally_outcome_ret in H; destruct H as [Hb _] end.
    injection Hb as Hpl. eapply Hgoal; eauto.
Qed.

End Completed.

(** X9: a run returns the result of a session only after a
    [session.idle] event has been handled: among the events received after
    the instruction was sent there is an idle event, and no event was
    handled before the handler was registered. *)
Theorem completed_run_saw_idle (P : Platform) (url kind : string)
    (st st' : state P) (pl : payload) :
  AdvancedApp.analyze_github_repo url kind st = (Ret pl, st') \/
  App.analyze_github_repo url kind st = (Ret pl, st') ->
  has_key "owner" pl = true ->
  exists pre prompt rest,
    trace st' = (trace st ++ pre
                   ++ [AClientStart; ACreateSession; ASessionOn; ASend prompt]
                   ++ rest)%list /\
    events_of pre = [] /\
    existsb is_idle (events_of rest) = true.
Proof.
  intros Hrun Hkey.
  destruct (completed_run_shape P url kind st st' pl Hrun Hkey)
    as (owner & repo & pre & prompt & rest & _ & _ & Ht & Hpre & _ & Hidle).
  now exists pre, prompt, rest.
Qed.

Lemma completed_run_saw_idle_witness :
  let st := Sim.init (Sim.quiet_world "hello") in
  let run := App.analyze_github_repo "acme/widgets" "diagram" st in
  let pl := success_payload "acme" "widgets" (HandlerState true ["hello"] []) in
  fst run = Ret pl /\
  exists pre prompt rest,
    trace (snd run)
    = (trace st ++ pre
         ++ [AClientStart; ACreateSession; ASessionOn; ASend prompt]
         ++ rest)%list /\
    events_of pre = [] /\
    existsb is_idle (events_of rest) = true.
Proof.
  split; [vm_compute; reflexivity|].
  apply (completed_run_saw_idle Sim.platform "acme/widgets" "diagram"
           (Sim.init (Sim.quiet_world "hello")) _
           (success_payload "acme" "widgets" (HandlerState true ["hello"] []))).
  - right. vm_compute. reflexivity.
  - reflexivity.
Defined.

(** X10: the result of a session carries, under [events], the records of
    the events received during the run, in arrival order, and under [owner]
    and [repo] the two names the parser read from the reference. *)
Theorem completed_run_payload (P : Platform) (url kind : string)
    (st st' : state P) (pl : payload) :
  AdvancedApp.analyze_github_repo url kind st = (Ret pl, st') \/
  App.analyze_github_repo url kind st = (Ret pl, st') ->
  has_key "owner" pl = true ->
  exists owner repo new,
    parse_github_url url = (Some owner, Some repo) /\
    trace st' = (trace st ++ new)%list /\
    lookup "events" pl = Some (JEvents (flat_map logged (events_of new))) /\
    lookup "owner" pl = Some (JStr owner) /\
    lookup "repo" pl = Some (JStr repo) /\
    map fst pl = ["response"; "events"; "owner"; "repo"].
Proof.
  intros Hrun Hkey.
  destruct (completed_run_shape P url kind st st' pl Hrun Hkey)
    as (owner & repo & pre & prompt & rest & Hparse & -> & Ht & Hpre & Hh & _).
  exists owner, repo,
    (pre ++ [AClientStart; ACreateSession; ASessionOn; ASend prompt] ++ rest)%list.
  split; [exact Hparse|]. split; [exact Ht|].
  split; [|repeat split].
  rewrite !events_of_app, Hpre. cbn [events_of app].
  change (lookup "events" (success_payload owner repo (handler st')))
    with (Some (JEvents (events_log (handler st')))).
  now rewrite Hh, handle_events_log.
Qed.

Lemma completed_run_payload_witness :
  let st := Sim.init (Sim.SimWorld [] [] [] true "" ([], None)
                        ([Sim.ev_tool_start "list_dir" "c1";
                          Sim.ev_message "done"; Sim.ev_idle], None)) in
  let run := AdvancedApp.analyze_github_repo "acme/widgets" "structure" st in
  let pl := success_payload "acme" "widgets"
              (HandlerState true ["done"] [ToolStart "list_dir" (Some "c1")]) in
  fst run = Ret pl /\
  exists owner repo new,
    parse_github_url "acme/widgets" = (Some owner, Some repo) /\
    trace (snd run) = (trace st ++ new)%list /\
    lookup "events" pl = Some (JEvents (flat_map logged (events_of new))) /\
    lookup "owner" pl = Some (JStr owner) /\
    lookup "repo" pl = Some (JStr repo) /\
    map fst pl = ["response"; "events"; "owner"; "repo"].
Proof.
  split; [vm_compute; reflexivity|].
  apply (completed_run_payload Sim.platform "acme/widgets" "structure"
           (Sim.init (Sim.SimWorld [] [] [] true "" ([], None)
                        ([Sim.ev_tool_start "list_dir" "c1";
                          Sim.ev_message "done"; Sim.ev_idle], None)))).
  - left. vm_compute. reflexivity.
  - reflexivity.
Defined.

(** ** The request boundary, continued *)



(** ** The workspace reaper, continued *)

(** X12: [cleanup_repo] never raises and leaves the handler's objects
    alone; for an empty path or a path that does not exist it does nothing
    at all. *)
Theorem cleanup_repo_never_raises (P : Platform) (repo_path : string)
    (st : state P) :
  exists st' new,
    AdvancedApp.cleanup_repo repo_path st = (Ret tt, st') /\
    trace st' = (trace st ++ new)%list /\
    handler st' = handler st /\
    (truthy repo_path && os_path_exists P (world st) repo_path = false ->
     st' = st).
Proof.
  destruct (truthy repo_path && os_path_exists P (world st) repo_path) eqn:E.
  - destruct (cleanup_repo_step P repo_path st) as (st' & new & Hrun & Ht & Hh & _).
    exists st', new. repeat split; auto. discriminate.
  - exists st, []. unfold AdvancedApp.cleanup_repo, bind, get_world.
    rewrite E, app_nil_r. auto.
Qed.

(** *** Any number of retries *)

Section IntRetries.
Variable P : Platform.
Implicit Types st : state P.

(** On the attempts of [range(retries)] the loop over [int]s is the loop
    of [safe_rmtree_loop]. *)
Lemma safe_rmtree_loop_int_eq (path : string) (retries : nat) (l : list nat) :
  forall st,
    safe_rmtree_loop_int P path (Z.of_nat retries) (map Z.of_nat l) st
    = AdvancedApp.safe_rmtree_loop path retries l st.
Proof.
  induction l as [|a l IH]; intros st; [reflexivity|].
  cbn [map safe_rmtree_loop_int AdvancedApp.safe_rmtree_loop].
  unfold try_except.
  destruct ((AdvancedApp.remove_tree path;; ret true) st) as [[b|e|] st1];
    try reflexivity.
  replace (Z.to_nat (Z.of_nat a + 1)) with (a + 1) by lia.
  replace (Z.of_nat a <? Z.of_nat retries - 1)%Z with (a <? retries - 1)%nat.
  - unfold bind at 1 3. unfold log at 1 3. cbn [world handler trace].
    unfold bind at 1 2.
    destruct (a <? retries - 1)%nat.
    + unfold log at 1 2. cbn [world handler trace]. apply IH.
    + unfold ret at 1 2. apply IH.
  - destruct (Nat.ltb_spec a (retries - 1)); symmetry;
      [apply Z.ltb_lt | apply Z.ltb_ge]; lia.
Qed.

Lemma safe_rmtree_int_eq (path : string) (retries : Z) st :
  safe_rmtree_int P path retries st
  = AdvancedApp.safe_rmtree path (Z.to_nat retries) st.
Proof.
  unfold safe_rmtree_int, range, AdvancedApp.safe_rmtree.
  destruct (Z.le_gt_cases 0 retries) as [Hpos | Hneg].
  - rewrite <- (Z2Nat.id retries Hpos) at 1. apply safe_rmtree_loop_int_eq.
  - replace (Z.to_nat retries) with 0 by lia. reflexivity.
Qed.

End IntRetries.

(** X13: for every [int] passed as [retries], negative ones included,
    [safe_rmtree] returns a boolean and never raises.  With
    [n = max(retries, 0)] it makes at most [n] attempts, each decided by the
    platform and started in the world the one before left; it returns
    [True] when one of them returned and [False], after the final report,
    when [n] of them raised -- so with [retries <= 0] it returns [False] at
    once, without touching the world, even for a path that does not
    exist. *)
Theorem safe_rmtree_any_retries (P : Platform) (path : string) (retries : Z)
    (st : state P) :
  let n := Z.to_nat retries in
  exists b st' new errs,
    safe_rmtree_int P path retries st = (Ret b, st') /\
    trace st' = (trace st ++ new)%list /\
    handler st' = handler st /\
    List.length errs <= n /\
    b = negb (List.length errs =? n)%nat /\
    List.length (filter is_rmtree new) <= n /\
    List.length (filter is_gc new) <= n /\
    (exists w_f tried last,
        failed_attempts P path n 0 (world st) errs w_f tried /\
        new = (tried ++ last)%list /\
        if b then
          List.length errs < n /\ attempt_result P path w_f None (world st') last
        else
          List.length errs = n /\ world st' = w_f /\
          last = [ACouldNotCleanUp path]) /\
    ((retries <= 0)%Z ->
     b = false /\ world st' = world st /\ new = [ACouldNotCleanUp path]).
Proof.
  intros n. rewrite safe_rmtree_int_eq. fold n.
  assert (Hn0 : (retries <= 0)%Z -> n = 0) by (subst n; lia).
  clearbody n.
  destruct (safe_rmtree_attempts P path n st)
    as (b & st' & new & errs & Hrun & Ht & Hh & Hle & Hb & Hlog & Hrm & Hgc
        & w_f & tried & last & Hfail & Hnew & Hend).
  exists b, st', new, errs.
  split; [exact Hrun|]. split; [exact Ht|]. split; [exact Hh|].
  split; [exact Hle|]. split; [exact Hb|].
  split; [exact Hrm|]. split; [exact Hgc|].
  split; [exists w_f, tried, last; auto|].
  intros Hneg. specialize (Hn0 Hneg). subst n.
  destruct errs as [|e errs]; [|cbn in Hle; lia].
  cbn in Hb. subst b.
  inversion Hfail; subst.
  destruct Hend as (_ & -> & ->). auto.
Qed.

Lemma safe_rmtree_any_retries_witness :
  let w := Sim.SimWorld ["ws"] ["locked"] [] true "" ([], None) ([], None) in
  safe_rmtree_int Sim.platform "ws" (-2) (Sim.init w)
  = (Ret false, State Sim.platform w handler_init [ACouldNotCleanUp "ws"]) /\
  safe_rmtree_int Sim.platform "ws" 2 (Sim.init w)
  = (Ret true,
     State Sim.platform (Sim.SimWorld [] [] [] true "" ([], None) ([], None))
           handler_init
           [ARmtree "ws"; ACleanupFailed 1 "locked"; ASleep 1; ARmtree "ws"]) /\
  exists b st' new errs,
    safe_rmtree_int Sim.platform "ws" (-2) (Sim.init w) = (Ret b, st') /\
    trace st' = (trace (Sim.init w) ++ new)%list /\
    handler st' = handler (Sim.init w) /\
    List.length errs <= 0 /\
    b = negb (List.length errs =? 0)%nat /\
    List.length (filter is_rmtree new) <= 0 /\
    List.length (filter is_gc new) <= 0 /\
    (exists w_f tried last,
        failed_attempts Sim.platform "ws" 0 0 (world (Sim.init w)) errs w_f tried /\
        new = (tried ++ last)%list /\
        if b then
          List.length errs < 0 /\
          attempt_result Sim.platform "ws" w_f None (world st') last
        else
          List.length errs = 0 /\ world st' = w_f /\
          last = [ACouldNotCleanUp "ws"]) /\
    ((-2 <= 0)%Z ->
     b = false /\ world st' = world (Sim.init w) /\
     new = [ACouldNotCleanUp "ws"]).
Proof.
  intros w. split; [reflexivity|]. split; [reflexivity|].
  exact (safe_rmtree_any_retries Sim.platform "ws" (-2) (Sim.init w)).
Defined.

(** X14: a failure of [git gc] fails the whole attempt: when the path and
    its [.git] directory exist and [git gc] raises, [rmtree] is not called
    in that attempt; the failure is reported, the call sleeps 1 second and
    goes on with the attempts 2 and 3, started in the world the failed
    [git gc] left: it returns [True] when one of the two returns and
    [False] when both raise. *)
Theorem gc_failure_fails_the_attempt (P : Platform) (path e : string)
    (st : state P) (w1 : World P) :
  os_path_exists P (world st) path = true ->
  os_path_exists P (world st) (os_path_join P path ".git") = true ->
  git_gc P (world st) path = (Some e, w1) ->
  exists b st' rest errs,
    AdvancedApp.safe_rmtree path AdvancedApp.default_retries st = (Ret b, st') /\
    trace st' = (trace st ++ [AGitGc path; ACleanupFailed 1 e; ASleep 1] ++ rest)%list /\
    handler st' = handler st /\
    List.length (filter is_rmtree rest) <= 2 /\
    exists w_f tried last,
      failed_attempts P path 3 1 w1 errs w_f tried /\
      rest = (tried ++ last)%list /\
      if b then
        List.length errs < 2 /\ attempt_result P path w_f None (world st') last
      else
        List.length errs = 2 /\ world st' = w_f /\
        last = [ACouldNotCleanUp path].
Proof.
  intros Hex Hgit Hgc.
  set (st3 := State P w1 (handler st)
                (((trace st ++ [AGitGc path]) ++ [ACleanupFailed 1 e])
                   ++ [ASleep 1])%list).
  destruct (safe_rmtree_loop_attempts P path 3 2 1 st3)
    as (b & w' & new & errs & Hrun & w_f & tried & last & Hfail & Hnew & Hend).
  exists b, (State P w' (handler st3) (trace st3 ++ new)%list), new, errs.
  split.
  - unfold AdvancedApp.safe_rmtree, AdvancedApp.default_retries.
    cbn [seq AdvancedApp.safe_rmtree_loop].
    unfold try_except at 1, bind at 1.
    unfold AdvancedApp.remove_tree at 1.
    unfold bind at 1, get_world at 1. rewrite Hex, Hgit.
    unfold bind at 1, call_exn at 1. rewrite Hgc.
    unfold bind at 1, log at 1. cbn [world handler trace Nat.add].
    unfold bind at 1. cbn [Nat.ltb Nat.leb Nat.sub]. unfold log at 1.
    cbn [world handler trace]. exact Hrun.
  - cbn [world handler trace]. split; [subst st3; cbn [trace]; now rewrite <- !app_assoc|].
    split; [reflexivity|].
    split.
    + destruct (failed_attempts_actions P Hfail) as (_ & _ & Hrm & _).
      subst new. rewrite filter_app, length_app.
      destruct b.
      * destruct Hend as [Hlt Hatt].
        destruct (attempt_result_actions P Hatt) as (_ & _ & R & _). lia.
      * destruct Hend as (Hlen & _ & ->). cbn. lia.
    + exists w_f, tried, last. auto.
Qed.

Lemma gc_failure_fails_the_attempt_witness :
  let w := Sim.SimWorld ["ws"; "ws/.git"] [] ["timed out"] true ""
                        ([], None) ([], None) in
  let st := Sim.init w in
  os_path_exists Sim.platform (world st) "ws" = true /\
  AdvancedApp.safe_rmtree "ws" AdvancedApp.default_retries st
  = (Ret true,
     State Sim.platform (Sim.SimWorld [] [] [] true "" ([], None) ([], None))
           handler_init
           [AGitGc "ws"; ACleanupFailed 1 "timed out"; ASleep 1;
            AGitGc "ws"; ARmtree "ws"]) /\
  exists b st' rest errs,
    AdvancedApp.safe_rmtree "ws" AdvancedApp.default_retries st = (Ret b, st') /\
    trace st' = (trace st ++ [AGitGc "ws"; ACleanupFailed 1 "timed out"; ASleep 1]
                   ++ rest)%list /\
    handler st' = handler st /\
    List.length (filter is_rmtree rest) <= 2 /\
    exists w_f tried last,
      failed_attempts Sim.platform "ws" 3 1
        (Sim.SimWorld ["ws"; "ws/.git"] [] [] true "" ([], None) ([], None))
        errs w_f tried /\
      rest = (tried ++ last)%list /\
      if b then
        List.length errs < 2 /\
        attempt_result Sim.platform "ws" w_f None (world st') last
      else
        List.length errs = 2 /\ world st' = w_f /\
        last = [ACouldNotCleanUp "ws"].
Proof.
  split; [reflexivity|]. split; [reflexivity|].
  apply (gc_failure_fails_the_attempt Sim.platform "ws" "timed out"
           (Sim.init (Sim.SimWorld ["ws"; "ws/.git"] [] ["timed out"] true ""
                                   ([], None) ([], None)))
           (Sim.SimWorld ["ws"; "ws/.git"] [] [] true "" ([], None) ([], None)));
    reflexivity.
Defined.

(** X15: when the path and its [.git] directory exist and neither
    [git gc] nor [rmtree] raises, [safe_rmtree] returns [True] after the
    first attempt: one [git gc], then one [rmtree] in the world [git gc]
    left, no report and no sleep. *)
Theorem safe_rmtree_first_attempt (P : Platform) (path : string)
    (st : state P) (w1 w2 : World P) :
  os_path_exists P (world st) path = true ->
  os_path_exists P (world st) (os_path_join P path ".git") = true ->
  git_gc P (world st) path = (None, w1) ->
  shutil_rmtree P w1 path = (None, w2) ->
  AdvancedApp.safe_rmtree path AdvancedApp.default_retries st
  = (Ret true,
     State P w2 (handler st) (trace st ++ [AGitGc path; ARmtree path])%list).
Proof.
  intros Hex Hgit Hgc Hrm.
  unfold AdvancedApp.safe_rmtree, AdvancedApp.default_retries.
  cbn [seq AdvancedApp.safe_rmtree_loop].
  unfold try_except at 1, bind at 1.
  unfold AdvancedApp.remove_tree at 1.
  unfold bind at 1, get_world at 1. rewrite Hex, Hgit.
  unfold bind at 1, call_exn at 1. rewrite Hgc.
  unfold call_exn at 1. cbn [world handler trace]. rewrite Hrm.
  unfold ret. now rewrite <- app_assoc.
Qed.

Lemma safe_rmtree_first_attempt_witness :
  let w := Sim.SimWorld ["ws"; "ws/.git"; "other"] [] [] true ""
                        ([], None) ([], None) in
  let st := Sim.init w in
  os_path_exists Sim.platform (world st) "ws" = true /\
  AdvancedApp.safe_rmtree "ws" AdvancedApp.default_retries st
  = (Ret true,
     State Sim.platform (Sim.set_paths w ["other"]) handler_init
           [AGitGc "ws"; ARmtree "ws"]).
Proof.
  split; [reflexivity|].
  apply (safe_rmtree_first_attempt Sim.platform "ws"
           (Sim.init (Sim.SimWorld ["ws"; "ws/.git"; "other"] [] [] true ""
                                   ([], None) ([], None)))
           (Sim.SimWorld ["ws"; "ws/.git"; "other"] [] [] true ""
                         ([], None) ([], None)));
    reflexivity.
Defined.

(** ** The repository acquirer, continued *)

Section FreshClone.
Variable P : Platform.
Implicit Types st : state P.

(** What [clone_repo] does from the clone on, run in [st1]. *)
Lemma clone_from_here (owner repo : string) st1 :
  let path := clone_target P repo in
  let url := clone_source owner repo in
  exists r st' tail,
    (stderr <- call_val (AGitClone url path) (fun w => git_clone P w url path) ;;
     w2 <- get_world ;;
     if negb (os_path_exists P w2 path) then
       raise ("Failed to clone repository: " ++ stderr)
     else
       (if contains "checkout failed" (lower stderr)
        then call (AGitRestore path) (fun w => git_restore P w path)
        else ret tt) ;;
       ret path) st1 = (r, st') /\
    trace st' = (trace st1 ++ AGitClone url path :: tail)%list /\
    (tail = [] \/ tail = [AGitRestore path]) /\
    (r = Ret path \/
     r = Raise ("Failed to clone repository: "
                  ++ fst (git_clone P (world st1) url path))).
Proof.
  intros path url.
  unfold bind, call_val, get_world, call, ret, raise.
  destruct (git_clone P (world st1) url path) as [stderr w2].
  cbn [world handler trace fst].
  destruct (os_path_exists P w2 path); cbn [negb].
  - destruct (contains "checkout failed" (lower stderr)).
    + eexists _, _, [AGitRestore path]. split; [reflexivity|].
      cbn [trace]. rewrite <- app_assoc. auto.
    + eexists _, _, []. split; [reflexivity|]. cbn [trace]. auto.
  - eexists _, _, []. split; [reflexivity|]. cbn [trace]. auto.
Qed.

End FreshClone.

(** X16: [clone_repo] tries to remove a leftover before it clones.  When
    the target does not exist (after the root directory has been made) the
    call runs [git clone] at once; when it exists, [safe_rmtree] is run on
    it first and [git clone] runs in the state that call left, whether or
    not the removal succeeded.  In both cases exactly one [git clone] is
    followed by at most one [git restore]. *)
Theorem clone_repo_removes_first (P : Platform) (owner repo : string)
    (st : state P) :
  let path := clone_target P repo in
  let url := clone_source owner repo in
  let st0 := State P (os_makedirs P (world st) (TEMP_REPOS_DIR P)) (handler st)
                   (trace st ++ [AMakedirs (TEMP_REPOS_DIR P)])%list in
  (os_path_exists P (world st0) path = false ->
   exists r st' tail,
     AdvancedApp.clone_repo owner repo st = (r, st') /\
     trace st' = (trace st0 ++ AGitClone url path :: tail)%list /\
     (tail = [] \/ tail = [AGitRestore path]) /\
     (r = Ret path \/
      r = Raise ("Failed to clone repository: "
                   ++ fst (git_clone P (world st0) url path)))) /\
  (os_path_exists P (world st0) path = true ->
   exists b st_r r st' tail,
     AdvancedApp.safe_rmtree path AdvancedApp.default_retries st0 = (Ret b, st_r) /\
     AdvancedApp.clone_repo owner repo st = (r, st') /\
     trace st' = (trace st_r ++ AGitClone url path :: tail)%list /\
     (tail = [] \/ tail = [AGitRestore path]) /\
     (r = Ret path \/
      r = Raise ("Failed to clone repository: "
                   ++ fst (git_clone P (world st_r) url path)))).
Proof.
  intros path url st0. subst path url. split; intros Hex.
  - destruct (clone_from_here P owner repo st0) as (r & st' & tail & Hrun & Hrest).
    exists r, st', tail. split; [|exact Hrest].
    unfold AdvancedApp.clone_repo.
    fold (clone_target P repo). fold (clone_source owner repo).
    unfold bind at 1, call at 1. fold st0.
    unfold bind at 1, get_world at 1. cbv beta. rewrite Hex.
    unfold bind at 1, ret at 1. exact Hrun.
  - destruct (safe_rmtree_loop_spec P (clone_target P repo) 3 3 0 st0)
      as (b & st_r & new & errs & Hrm & _).
    destruct (clone_from_here P owner repo st_r) as (r & st' & tail & Hrun & Hrest).
    exists b, st_r, r, st', tail. split; [exact Hrm|]. split; [|exact Hrest].
    unfold AdvancedApp.clone_repo.
    fold (clone_target P repo). fold (clone_source owner repo).
    unfold bind at 1, call at 1. fold st0.
    unfold bind at 1, get_world at 1. cbv beta. rewrite Hex.
    unfold bind at 1, bind at 1.
    unfold AdvancedApp.safe_rmtree, AdvancedApp.default_retries.
    rewrite Hrm. unfold ret at 1. exact Hrun.
Qed.

Lemma clone_repo_removes_first_witness :
  let w := Sim.SimWorld ["temp_repos"; "temp_repos/widgets"] [] [] true ""
                        ([], None) ([], None) in
  os_path_exists Sim.platform w "temp_repos/widgets" = true /\
  exists b st_r r st' tail,
    AdvancedApp.safe_rmtree "temp_repos/widgets" AdvancedApp.default_retries
      (State Sim.platform w handler_init [AMakedirs "temp_repos"])
    = (Ret b, st_r) /\
    AdvancedApp.clone_repo "acme" "widgets" (Sim.init w) = (r, st') /\
    trace st'
    = (trace st_r ++ AGitClone "https://github.com/acme/widgets.git"
                               "temp_repos/widgets" :: tail)%list /\
    (tail = [] \/ tail = [AGitRestore "temp_repos/widgets"]) /\
    (r = Ret "temp_repos/widgets" \/
     r = Raise ("Failed to clone repository: "
                  ++ fst (git_clone Sim.platform (world st_r)
                            "https://github.com/acme/widgets.git"
                            "temp_repos/widgets"))).
Proof.
  split; [reflexivity|].
  apply (proj2 (clone_repo_removes_first Sim.platform "acme" "widgets"
                  (Sim.init (Sim.SimWorld ["temp_repos"; "temp_repos/widgets"]
                                          [] [] true "" ([], None) ([], None))))).
  reflexivity.
Defined.

(** ** The session orchestrator: the exits without teardown *)

(** X17: in [advanced_app.py] the workspace is cloned before the engine
    is started, and the [try]/[finally] begins only after the session
    exists: when [client.start()] or [create_session] raises, the exception
    leaves [analyze_github_repo] at once, and neither the teardown nor
    [cleanup_repo] runs -- the trace ends with the failed call and the
    workspace stays. *)
Theorem session_start_failure_skips_cleanup (P : Platform)
    (url kind owner repo path : string) (st st1 : state P) :
  parse_github_url url = (Some owner, Some repo) ->
  AdvancedApp.clone_repo owner repo st = (Ret path, st1) ->
  (forall e w2,
      client_start P (world st1) = (Some e, w2) ->
      AdvancedApp.analyze_github_repo url kind st
      = (Raise e, State P w2 (handler st1) (trace st1 ++ [AClientStart])%list)) /\
  (forall e w2 w3,
      client_start P (world st1) = (None, w2) ->
      client_create_session P w2 = (Some e, w3) ->
      AdvancedApp.analyze_github_repo url kind st
      = (Raise e, State P w3 (handler st1)
                        (trace st1 ++ [AClientStart; ACreateSession])%list)).
Proof.
  intros Hparse Hclone.
  destruct (parse_github_url_cases url) as [H | (o & n & H & Ho & Hn)];
    [congruence|].
  rewrite Hparse in H. injection H as <- <-.
  assert (Hstart : AdvancedApp.analyze_github_repo url kind st
                   = (call_exn AClientStart (client_start P) ;;
                      call_exn ACreateSession (client_create_session P) ;;
                      set_handler handler_init ;;
                      log ASessionOn ;;
                      try_finally
                        (send_and_wait P
                           (get_default kind
                              (AdvancedApp.prompt_overview owner repo path)
                              (AdvancedApp.analysis_prompts owner repo path)))
                        (AdvancedApp.teardown path) ;;
                      h <- get_handler ;;
                      ret (success_payload owner repo h)) st1).
  { unfold AdvancedApp.analyze_github_repo. rewrite Hparse.
    rewrite (name_ok_truthy owner Ho), (name_ok_truthy repo Hn). cbn [negb orb].
    unfold bind at 1, try_except at 1, bind at 1. rewrite Hclone.
    reflexivity. }
  rewrite Hstart. split.
  - intros e w2 Hs. unfold bind at 1, call_exn at 1. now rewrite Hs.
  - intros e w2 w3 Hs Hc. unfold bind at 1, call_exn at 1. rewrite Hs.
    unfold bind at 1, call_exn at 1. cbn [world handler trace]. rewrite Hc.
    now rewrite <- app_assoc.
Qed.

Lemma session_start_failure_skips_cleanup_witness :
  let P := engine_down "engine not installed" in
  let st := State P (Sim.quiet_world "") handler_init [] in
  let run := AdvancedApp.analyze_github_repo "acme/widgets" "overview" st in
  parse_github_url "acme/widgets" = (Some "acme", Some "widgets") /\
  fst run = Raise "engine not installed" /\
  trace (snd run)
  = [AMakedirs "temp_repos";
     AGitClone "https://github.com/acme/widgets.git" "temp_repos/widgets";
     AClientStart] /\
  os_path_exists P (world (snd run)) "temp_repos/widgets" = true.
Proof.
  split; [reflexivity|].
  pose (P := engine_down "engine not installed").
  pose (st := State P (Sim.quiet_world "") handler_init []).
  pose (st1 := snd (AdvancedApp.clone_repo (P:=P) "acme" "widgets" st)).
  assert (H : AdvancedApp.analyze_github_repo "acme/widgets" "overview" st
              = (Raise "engine not installed",
                 State P (world st1) (handler st1) (trace st1 ++ [AClientStart])%list)).
  { apply (proj1 (session_start_failure_skips_cleanup P "acme/widgets" "overview"
                    "acme" "widgets" "temp_repos/widgets" st st1
                    eq_refl eq_refl)).
    reflexivity. }
  change (AdvancedApp.analyze_github_repo "acme/widgets" "overview"
            (State (engine_down "engine not installed") (Sim.quiet_world "")
                   handler_init []))
    with (AdvancedApp.analyze_github_repo "acme/widgets" "overview" st).
  rewrite H. repeat split.
Defined.

(** X18: a session that never goes idle stalls the run.  When the
    instruction is sent without an exception, the wait is not interrupted
    and no [session.idle] event is among the events received,
    [analyze_github_repo] of [advanced_app.py] never returns: the run is
    left waiting, after the events have been handled, with no teardown and
    no cleanup. *)
Theorem run_without_idle_never_returns (P : Platform)
    (url kind owner repo path : string) (st st1 : state P)
    (w2 w3 w4 w5 : World P) (evs1 evs2 : list event) :
  let prompt := get_default kind (AdvancedApp.prompt_overview owner repo path)
                            (AdvancedApp.analysis_prompts owner repo path) in
  parse_github_url url = (Some owner, Some repo) ->
  AdvancedApp.clone_repo owner repo st = (Ret path, st1) ->
  client_start P (world st1) = (None, w2) ->
  client_create_session P w2 = (None, w3) ->
  session_send P w3 prompt = (evs1, None, w4) ->
  done_wait P w4 = (evs2, None, w5) ->
  existsb is_idle (evs1 ++ evs2) = false ->
  AdvancedApp.analyze_github_repo url kind st
  = (Hang,
     State P w5 (handle_events handler_init (evs1 ++ evs2))
           (trace st1 ++ [AClientStart; ACreateSession; ASessionOn; ASend prompt]
              ++ map AEvent evs1 ++ AWait :: map AEvent evs2)%list).
Proof.
  intros prompt Hparse Hclone Hs Hc Hsend Hwait Hidle.
  destruct (parse_github_url_cases url) as [H | (o & n & H & Ho & Hn)];
    [congruence|].
  rewrite Hparse in H. injection H as <- <-.
  rewrite existsb_app in Hidle. apply orb_false_elim in Hidle.
  destruct Hidle as [Hi1 Hi2].
  unfold AdvancedApp.analyze_github_repo. rewrite Hparse.
  rewrite (name_ok_truthy owner Ho), (name_ok_truthy repo Hn). cbn [negb orb].
  unfold bind at 1, try_except at 1, bind at 1. rewrite Hclone.
  unfold ret at 1. cbv beta iota. fold prompt.
  unfold bind at 1, call_exn at 1. rewrite Hs.
  unfold bind at 1, call_exn at 1. cbn [world handler trace]. rewrite Hc.
  unfold bind at 1, set_handler at 1. cbn [world handler trace].
  unfold bind at 1, log at 1. cbn [world handler trace].
  unfold bind at 1, try_finally at 1, bind at 1.
  rewrite await_eq. cbn [world handler trace]. rewrite Hsend. cbn [fst snd].
  unfold await_done.
  cbn [handler]. rewrite handle_events_done. cbn [done handler_init orb].
  rewrite Hi1.
  rewrite await_eq. cbn [world handler trace]. rewrite Hwait. cbn [fst snd].
  rewrite handle_events_done, handle_events_done. cbn [done handler_init orb].
  rewrite Hi1, Hi2. cbn [orb].
  rewrite <- handle_events_app.
  f_equal. f_equal. rewrite <- !app_assoc. reflexivity.
Qed.

Lemma run_without_idle_never_returns_witness :
  let w := Sim.SimWorld [] [] [] true "" ([], None)
                        ([Sim.ev_message "partial"], None) in
  let run := AdvancedApp.analyze_github_repo "acme/widgets" "overview" (Sim.init w) in
  existsb is_idle ([] ++ [Sim.ev_message "partial"]) = false /\
  fst run = Hang /\
  existsb is_teardown (trace (snd run)) = false.
Proof.
  intros w run. split; [reflexivity|]. subst run.
  pose (st1 := snd (AdvancedApp.clone_repo (P:=Sim.platform) "acme" "widgets"
                      (Sim.init w))).
  rewrite (run_without_idle_never_returns Sim.platform "acme/widgets" "overview"
             "acme" "widgets" "temp_repos/widgets" (Sim.init w) st1
             (world st1) (world st1) (world st1) (world st1)
             [] [Sim.ev_message "partial"]
             eq_refl eq_refl eq_refl eq_refl eq_refl eq_refl eq_refl).
  split; reflexivity.
Defined.

(** X19: the teardown of [advanced_app.py] stops at its first failure.
    When [session.destroy()] raises, [client.stop()] and [cleanup_repo] are
    not run, and the exception replaces whatever the body of the [try] had
    produced, a result or an exception of its own. *)
Theorem destroy_failure_skips_the_rest (P : Platform) (repo_path e : string)
    (st : state P) (evs : list event) (w : World P) :
  session_destroy P (world st) = (evs, Some e, w) ->
  let st' := State P w (handle_events (handler st) evs)
                   (trace st ++ ADestroy :: map AEvent evs)%list in
  AdvancedApp.teardown repo_path st = (Raise e, st') /\
  forall (body : M P unit) (st0 : state P) (rb : outcome unit),
    body st0 = (rb, st) -> rb <> Hang ->
    try_finally body (AdvancedApp.teardown repo_path) st0 = (Raise e, st').
Proof.
  intros Hd st'.
  assert (Ht : AdvancedApp.teardown repo_path st = (Raise e, st')).
  { unfold AdvancedApp.teardown, bind at 1. rewrite await_eq, Hd. reflexivity. }
  split; [exact Ht|].
  intros body st0 rb Hb Hne. unfold try_finally. rewrite Hb.
  destruct rb as [[]|e'|]; [| |congruence]; now rewrite Ht.
Qed.

Lemma destroy_failure_skips_the_rest_witness :
  let P := closing_fails [Sim.ev_delta (Some "late")] "already closed" in
  let st := State P (Sim.quiet_world "") handler_init [ASessionOn] in
  AdvancedApp.teardown "temp_repos/widgets" st
  = (Raise "already closed",
     State P (Sim.quiet_world "")
           (HandlerState false [] [MessageDelta "late"])
           [ASessionOn; ADestroy; AEvent (Sim.ev_delta (Some "late"))]).
Proof.
  intros P st.
  exact (proj1 (destroy_failure_skips_the_rest P "temp_repos/widgets"
                  "already closed" st [Sim.ev_delta (Some "late")]
                  (Sim.quiet_world "") eq_refl)).
Defined.
